(** * libjxl: Lehmer codes and the ICC profile decoder

    A shallow embedding of [jxl/lehmer_code.h] and [lib/jxl/icc_codec.cc].

    Conventions of the embedding.
    - Unsigned machine integers are values of [Z] with the wrap-around of
      every arithmetic operation written out ([u32], [u64]); [int32_t] uses
      [s32].
    - C arrays are lists.  A read or write outside the array is undefined
      behaviour in the source; the embedding makes it a failure ([None]).
    - [JXL_DASSERT] states a contract of the function; an execution that
      violates it is a failure ([None]) as well.
    - [while] loops carry a fuel; running out of fuel is a failure.  The
      fuel constants are larger than the number of iterations any
      terminating execution of the loop can make (see the remarks at each
      loop).
    - Positions and lengths ([size_t]) of buffers that exist in memory are
      not wrapped: they are bounded by the address space. *)

From Stdlib Require Import ZArith Lia Bool String.
From stdpp Require Import base numbers list option.

Local Open Scope Z_scope.

(** ** Machine integers *)

Definition u32 (z : Z) : Z := z mod 2 ^ 32.
Definition u64 (z : Z) : Z := z mod 2 ^ 64.
Definition s32 (z : Z) : Z := (z + 2 ^ 31) mod 2 ^ 32 - 2 ^ 31.

(** ** Arrays with checked accesses *)

Definition zget {A} (l : list A) (i : Z) : option A :=
  if decide (0 <= i) then l !! Z.to_nat i else None.

Definition zset {A} (l : list A) (i : Z) (v : A) : option (list A) :=
  if decide (0 <= i < Z.of_nat (length l)) then Some (<[Z.to_nat i := v]> l)
  else None.

(** ** Loops *)

(** [for (i = start; i < start + count; ++i) body], with failure. *)
Fixpoint for_range {S} (count : nat) (i : Z) (body : Z -> S -> option S)
    (s : S) : option S :=
  match count with
  | O => Some s
  | S c => match body i s with
           | Some s' => for_range c (i + 1) body s'
           | None => None
           end
  end.

(** [while (cond) body], with fuel and failure. *)
Fixpoint while_fuel {S} (fuel : nat) (cond : S -> bool)
    (body : S -> option S) (s : S) : option S :=
  if cond s then
    match fuel with
    | O => None
    | S f => match body s with
             | Some s' => while_fuel f cond body s'
             | None => None
             end
    end
  else Some s.

Module Lehmer.

(** [template <typename T> constexpr T ValueOfLowest1Bit(T t) { return t & -t; }]
    The argument [wrapT] is the reduction to the range of [T]. *)
Definition ValueOfLowest1Bit (wrapT : Z -> Z) (t : Z) : Z :=
  Z.land t (wrapT (- t)).

(** Modelled from the spec: [CeilLog2Nonzero] of [jxl/base/bits.h], which is
    not among the sources.  Section 4.7 of the specification gives the size
    of the decoder's tree as [2^ceil(log2 n)]; the values expected by
    [jxl/bits_test.cc] are checked below. *)
Definition CeilLog2Nonzero (n : Z) : Z := Z.log2_up n.

(** *** ComputeLehmerCode *)

(** [while (i != 0) { penalty += temp[i]; i &= i - 1; }]
    State: [(i, penalty)].  Every iteration clears one of the 32 bits of
    [i]. *)
Definition sum_cond (st : Z * Z) : bool := negb (st.1 =? 0).
Definition sum_body (temp : list Z) (st : Z * Z) : option (Z * Z) :=
  let '(i, penalty) := st in
  match zget temp i with
  | Some t => Some (Z.land i (u32 (i - 1)), u32 (penalty + t))
  | None => None
  end.

(** [while (i < n + 1) { temp[i] += 1; i += ValueOfLowest1Bit(i); }]
    State: [(i, temp)].  Every iteration moves the lowest set bit of [i]
    up; after at most 32 of them [i] is zero and the source loops forever. *)
Definition add_cond (n : Z) (st : Z * list Z) : bool := st.1 <? n + 1.
Definition add_body (st : Z * list Z) : option (Z * list Z) :=
  let '(i, temp) := st in
  match zget temp i with
  | Some t =>
      match zset temp i (u32 (t + 1)) with
      | Some temp' => Some (u32 (i + ValueOfLowest1Bit u32 i), temp')
      | None => None
      end
  | None => None
  end.

Definition bit_fuel : nat := 70.

(** One iteration of the main loop; state: [(temp, code)], the code being
    built in order. *)
Definition compute_step (n : Z) (s : Z) (st : list Z * list Z)
  : option (list Z * list Z) :=
  let '(temp, code) := st in
  match while_fuel bit_fuel sum_cond (sum_body temp) (u32 (s + 1), 0) with
  | Some (_, penalty) =>
      if decide (penalty <= s) then          (* JXL_DASSERT(s >= penalty) *)
        match while_fuel bit_fuel (add_cond n) add_body (u32 (s + 1), temp) with
        | Some (_, temp') => Some (temp', code ++ [u32 (s - penalty)])
        | None => None
        end
      else None
  | None => None
  end.

Fixpoint compute_loop (n : Z) (perm : list Z) (st : list Z * list Z)
  : option (list Z * list Z) :=
  match perm with
  | [] => Some st
  | s :: rest =>
      match compute_step n s st with
      | Some st' => compute_loop n rest st'
      | None => None
      end
  end.

(** [for (size_t idx = 0; idx < n + 1; ++idx) temp[idx] = 0;] *)
Definition zero_temp (n : Z) (temp : list Z) : option (list Z) :=
  for_range (Z.to_nat (n + 1)) 0 (fun idx t => zset t idx 0) temp.

(** [ComputeLehmerCode(permutation, temp, n, code)]: [permutation] holds the
    [n] entries, [temp] is the caller's scratch array; the result is
    [code[0..n)]. *)
Definition ComputeLehmerCode (permutation temp : list Z) : option (list Z) :=
  let n := Z.of_nat (length permutation) in
  match zero_temp n temp with
  | Some temp0 =>
      match compute_loop n permutation (temp0, []) with
      | Some (_, code) => Some code
      | None => None
      end
  | None => None
  end.

(** *** DecodeLehmerCode *)

(** [temp[i] = static_cast<uint32_t>(ValueOfLowest1Bit(static_cast<int32_t>(i + 1)))] *)
Definition init_tree (padded_n : Z) (temp : list Z) : option (list Z) :=
  for_range (Z.to_nat padded_n) 0
    (fun i t => zset t i (u32 (ValueOfLowest1Bit s32 (s32 (i + 1))))) temp.

(** The descent [for (size_t i = 0; i <= log2n; i++)]; state:
    [(bit, next, rank)]. *)
Definition descend_body (temp : list Z) (_ : Z) (st : Z * Z * Z)
  : option (Z * Z * Z) :=
  let '(bit, next, rank) := st in
  let cand := u64 (next + bit) in
  if decide (1 <= cand) then                  (* JXL_DASSERT(cand >= 1) *)
    match zget temp (cand - 1) with
    | Some t =>
        if decide (t < rank) then Some (Z.shiftr bit 1, cand, u32 (rank - t))
        else Some (Z.shiftr bit 1, next, rank)
    | None => None
    end
  else None.

(** [while (next <= padded_n) { temp[next - 1] -= 1; next += ValueOfLowest1Bit(next); }]
    State: [(next, temp)]. *)
Definition mark_cond (padded_n : Z) (st : Z * list Z) : bool :=
  st.1 <=? padded_n.
Definition mark_body (st : Z * list Z) : option (Z * list Z) :=
  let '(next, temp) := st in
  match zget temp (u64 (next - 1)) with
  | Some t =>
      match zset temp (u64 (next - 1)) (u32 (t - 1)) with
      | Some temp' => Some (u64 (next + ValueOfLowest1Bit u64 next), temp')
      | None => None
      end
  | None => None
  end.

(** One iteration of the main loop at index [i]; state: [(temp, permutation)]. *)
Definition decode_step (n log2n padded_n : Z) (i : Z) (c : Z)
    (st : list Z * list Z) : option (list Z * list Z) :=
  let '(temp, perm) := st in
  if decide (c + i < n) then                  (* JXL_DASSERT(code[i] + i < n) *)
    let rank := u32 (c + 1) in
    match for_range (Z.to_nat (log2n + 1)) 0 (descend_body temp)
            (padded_n, 0, rank) with
    | Some (_, next, _) =>
        match while_fuel bit_fuel (mark_cond padded_n) mark_body
                (u64 (next + 1), temp) with
        | Some (_, temp') => Some (temp', perm ++ [next])
        | None => None
        end
    | None => None
    end
  else None.

Fixpoint decode_loop (n log2n padded_n : Z) (i : Z) (code : list Z)
    (st : list Z * list Z) : option (list Z * list Z) :=
  match code with
  | [] => Some st
  | c :: rest =>
      match decode_step n log2n padded_n i c st with
      | Some st' => decode_loop n log2n padded_n (i + 1) rest st'
      | None => None
      end
  end.

(** [DecodeLehmerCode(code, temp, n, permutation)]. *)
Definition DecodeLehmerCode (code temp : list Z) : option (list Z) :=
  let n := Z.of_nat (length code) in
  if decide (n <> 0) then                     (* JXL_DASSERT(n != 0) *)
    let log2n := CeilLog2Nonzero n in
    let padded_n := Z.shiftl 1 log2n in
    match init_tree padded_n temp with
    | Some temp0 =>
        match decode_loop n log2n padded_n 0 code (temp0, []) with
        | Some (_, perm) => Some perm
        | None => None
        end
    | None => None
    end
  else None.

End Lehmer.


(** ** Specification-level notions for Lehmer codes *)

Module LehmerSpec.

(** The lowest set bit of a positive number, by recursion on its binary
    representation. *)
Fixpoint plow (p : positive) : positive :=
  match p with
  | xO q => xO (plow q)
  | _ => xH
  end.

Definition lowbit (i : Z) : Z :=
  match i with
  | Zpos p => Zpos (plow p)
  | _ => 0
  end.

(** Number of elements of [U] in the interval [[lo, hi)]. *)
Definition cnt (U : list Z) (lo hi : Z) : Z :=
  Z.of_nat (length (filter (fun u => lo <= u < hi) U)).

(** Number of integers of [[lo, hi)] that are not in [U], for a
    duplicate-free [U]. *)
Definition free (U : list Z) (lo hi : Z) : Z := (hi - lo) - cnt U lo hi.

(** Rank of [s] among the values that are not in [U]: the number of
    [v] in [[0, s)] that [U] does not contain. *)
Definition rank_unused (U : list Z) (s : Z) : Z :=
  Z.of_nat (length (filter (fun v => v ∉ U) (seqZ 0 s))).

(** The Lehmer code of the entries [rest] that follow the already used
    entries [U]. *)
Fixpoint codes_of (U rest : list Z) : list Z :=
  match rest with
  | [] => []
  | s :: r => rank_unused U s :: codes_of (U ++ [s]) r
  end.

(** [p] is a permutation of [[0..n)], [n] its length. *)
Definition is_permutation (p : list Z) : Prop :=
  NoDup p /\ forall v, v ∈ p -> 0 <= v < Z.of_nat (length p).

(** [c] is a Lehmer code: [code[i] + i < n] for every index, entries
    being unsigned. *)
Definition is_lehmer_code (c : list Z) : Prop :=
  forall (i : nat) v, c !! i = Some v -> 0 <= v /\ v + Z.of_nat i < Z.of_nat (length c).

(** Position [j] of a Fenwick tree accounts for position [p]. *)
Definition covers (j p : Z) : Prop := j - lowbit j < p <= j.

#[global] Instance covers_dec j p : Decision (covers j p).
Proof. unfold covers. apply _. Defined.

(** The common shape of the two loops that walk up a Fenwick tree from a
    position: [temp[idx i] = upd temp[idx i]; i += lowest bit of i]. *)
Definition chain_body (idx upd wrap vl : Z -> Z) (st : Z * list Z)
  : option (Z * list Z) :=
  let '(i, temp) := st in
  match zget temp (idx i) with
  | Some t =>
      match zset temp (idx i) (upd t) with
      | Some temp' => Some (wrap (i + vl i), temp')
      | None => None
      end
  | None => None
  end.

(** The Fenwick tree of [ComputeLehmerCode]: [temp[i]] counts the used
    values in [[i - lowbit i, i)]. *)
Definition fen_inv (n : Z) (U temp : list Z) : Prop :=
  Z.of_nat (length temp) = n + 1 /\
  forall i, 1 <= i <= n ->
    temp !! Z.to_nat i = Some (cnt U (i - lowbit i) i).

(** The order-statistics tree of [DecodeLehmerCode]: [temp[i-1]] counts the
    unused values in [[i - lowbit i, i)]. *)
Definition dec_inv (padded_n : Z) (U temp : list Z) : Prop :=
  Z.of_nat (length temp) = padded_n /\
  forall i, 1 <= i <= padded_n ->
    temp !! Z.to_nat (i - 1) = Some (lowbit i - cnt U (i - lowbit i) i).

End LehmerSpec.

(** * The ICC profile decoder, [lib/jxl/icc_codec.cc] *)

(** ** Status *)

(** [jxl::Status]: success, a generic error ([JXL_FAILURE], with its
    message) or "not enough bytes" ([JXL_NOT_ENOUGH_BYTES]). *)
Inductive Status : Type :=
  | OK
  | Failure (msg : string)
  | NotEnoughBytes (msg : string).

Arguments Failure msg%_string_scope.
Arguments NotEnoughBytes msg%_string_scope.


(** ** What [icc_codec.cc] takes from [icc_codec_common.h]

    The constants, tables and helper functions of
    [lib/jxl/icc_codec_common.{h,cc}] are not among the sources; the
    decoder is parameterised by them.  Memory allocation is not modelled:
    [push_back], [append], [resize] and the helpers that append to a buffer
    always succeed. *)
Class ICCCommon : Type := {
  Tag : Type;
  Tag_eq_dec :: EqDecision Tag;
  kICCHeaderSize : Z;
  kCommandInsert : Z;
  kCommandShuffle2 : Z;
  kCommandShuffle4 : Z;
  kCommandPredict : Z;
  kCommandXYZ : Z;
  kCommandTypeStartFirst : Z;
  kNumTypeStrings : Z;
  kCommandTagUnknown : Z;
  kCommandTagTRC : Z;
  kCommandTagXYZ : Z;
  kCommandTagStringFirst : Z;
  kNumTagStrings : Z;
  kFlagBitOffset : Z;
  kFlagBitSize : Z;
  kRtrcTag : Tag; kGtrcTag : Tag; kBtrcTag : Tag;
  kRxyzTag : Tag; kGxyzTag : Tag; kBxyzTag : Tag; kKxyzTag : Tag;
  kWtptTag : Tag; kBkptTag : Tag; kLumiTag : Tag; kXyz_Tag : Tag;
  kTagStrings : Z -> Tag;
  kTypeStrings : Z -> Tag;
  (** [Status CheckIs32Bit(uint64_t v)] *)
  CheckIs32Bit : Z -> Status;
  (** [Status CheckOutOfBounds(uint64_t a, uint64_t b, uint64_t size)] *)
  CheckOutOfBounds : Z -> Z -> Z -> Status;
  (** [PaddedBytes ICCInitialHeaderPrediction(uint32_t size)] *)
  ICCInitialHeaderPrediction : Z -> list Z;
  (** [void ICCPredictHeader(icc, size, header, pos)]: the updated header *)
  ICCPredictHeader : list Z -> Z -> list Z -> Z -> list Z;
  (** [Tag DecodeKeyword(data, size, pos)] *)
  DecodeKeyword : list Z -> Z -> Z -> Tag;
  (** [AppendKeyword(keyword, data)]: the extended buffer *)
  AppendKeyword : Tag -> list Z -> list Z;
  (** [AppendUint32(value, data)]: the extended buffer *)
  AppendUint32 : Z -> list Z -> list Z;
  (** [uint8_t LinearPredictICCValue(data, start, i, stride, width, order)] *)
  LinearPredictICCValue : list Z -> Z -> Z -> Z -> Z -> Z -> Z;
}.

Module ICC.

Definition u8 (z : Z) : Z := z mod 256.

(** [data[i]]; every read of the decoder is dominated by a bounds check, a
    read outside the buffer yields 0 here. *)
Definition byte_at (data : list Z) (i : Z) : Z := nth (Z.to_nat i) data 0.

(** [data[pos .. pos + num)] *)
Definition slice (data : list Z) (pos num : Z) : list Z :=
  map (fun i => byte_at data (pos + i)) (seqZ 0 num).

(** *** Shuffle *)

(** The loop of [Shuffle]; state [(s, j)], [acc] the part of [result]
    already written. *)
Fixpoint Shuffle_loop (count : nat) (data : list Z) (size height s j : Z)
    (acc : list Z) : list Z :=
  match count with
  | O => acc
  | S c =>
      let acc' := acc ++ [byte_at data j] in
      let j' := j + height in
      if size <=? j' then Shuffle_loop c data size height (s + 1) (s + 1) acc'
      else Shuffle_loop c data size height s j' acc'
  end.

(** [Shuffle(data, size, width)]: the new contents of [data].  The
    [size_t] additions [size + width - 1] and [j += height] are written in
    [Z]: this is the function for sizes and widths below [2^63], where they
    do not wrap. *)
Definition Shuffle (data : list Z) (width : Z) : list Z :=
  let size := Z.of_nat (length data) in
  let height := (size + width - 1) / width in
  Shuffle_loop (length data) data size height 0 0 [].

(** *** DecodeVarInt *)

(** The loop [for (i = 0; *pos + i < inputSize && i < 10; ++i)]; [count] is
    [10 - i]; the result is [(i, ret)] when the loop is left. *)
Fixpoint DecodeVarInt_loop (count : nat) (input : list Z) (pos i ret : Z)
  : Z * Z :=
  match count with
  | O => (i, ret)
  | S c =>
      if pos + i <? Z.of_nat (length input) then
        let b := byte_at input (pos + i) in
        let ret' := Z.lor ret (u64 (Z.shiftl (Z.land b 127) (7 * i))) in
        if Z.land b 128 =? 0 then (i, ret')
        else DecodeVarInt_loop c input pos (i + 1) ret'
      else (i, ret)
  end.

(** [uint64_t DecodeVarInt(input, inputSize, pos)]: the value and the new
    [*pos].  The cursor arithmetic [*pos + i] and [*pos += i + 1] is written
    in [Z]: this is the function for cursors whose new value is below
    [2^64]. *)
Definition DecodeVarInt (input : list Z) (pos : Z) : Z * Z :=
  let '(i, ret) := DecodeVarInt_loop 10 input pos 0 0 in
  (ret, pos + i + 1).

(** *** The state and the control flow of [UnpredictICC] *)

(** The buffer being reconstructed and the two cursors into the input. *)
Record ustate : Type := mk_ustate {
  result : list Z;
  cpos : Z;     (* pos in commands stream *)
  pos : Z;      (* pos in data stream *)
}.

(** One iteration of a loop of the function either goes on with the next
    iteration, leaves the loop, or returns from the function. *)
Inductive step (S : Type) : Type :=
  | Continue (s : S)
  | Break (s : ustate)
  | Return (st : Status) (s : ustate).
Arguments Continue {S} s.
Arguments Break {S} s.
Arguments Return {S} st s.

(** The locals of the tag list loop. *)
Record tag_state : Type := mk_tag_state {
  ts : ustate;
  prevtagstart : Z;
  prevtagsize : Z;
}.

(** How a loop [for (;;)] is left. *)
Inductive loop_exit : Type :=
  | Broke (s : ustate)
  | Returned (st : Status) (s : ustate).

(** A loop [for (;;)] with the given body; [None] when the fuel runs out. *)
Fixpoint forever {S} (fuel : nat) (body : S -> step S) (s : S)
  : option loop_exit :=
  match fuel with
  | O => None
  | S f =>
      match body s with
      | Continue s' => forever f body s'
      | Break u => Some (Broke u)
      | Return st u => Some (Returned st u)
      end
  end.

Section decoder.
Context `{ICCCommon}.

(** *** CheckPreamble *)

Definition CheckPreamble (data : list Z) (enc_size : Z) : Status :=
  let size := Z.of_nat (length data) in
  let '(osize, pos) := DecodeVarInt data 0 in
  match CheckIs32Bit osize with
  | OK =>
      if size <=? pos then Failure "Out of bounds" else
      let '(csize, pos) := DecodeVarInt data pos in
      match CheckIs32Bit csize with
      | OK =>
          match CheckOutOfBounds pos csize size with
          | OK =>
              if u64 (osize + 65536) <? enc_size then Failure "Malformed ICC"
              else
                let output_limit := Z.shiftl 1 28 in
                if negb (output_limit =? 0) && (output_limit <? osize)
                then Failure "Decoded ICC is too large"
                else OK
          | e => e
          end
      | e => e
      end
  | e => e
  end.

(** *** UnpredictICC *)

(** The header loop [for (size_t i = 0; i <= kICCHeaderSize; i++)];
    [count] is [kICCHeaderSize + 1 - i]. *)
Fixpoint header_loop (count : nat) (enc : list Z) (osize commands_end : Z)
    (i : Z) (header : list Z) (s : ustate) : step unit :=
  let size := Z.of_nat (length enc) in
  match count with
  | O => Break s
  | S c =>
      if Z.of_nat (length (result s)) =? osize then
        if negb (cpos s =? commands_end)
        then Return (Failure "Not all commands used") s
        else if negb (pos s =? size)
        then Return (Failure "Not all data used") s
        else Return OK s                          (* Valid end *)
      else if i =? kICCHeaderSize then Break s     (* Done *)
      else
        let header' :=
          ICCPredictHeader (result s) (Z.of_nat (length (result s))) header i in
        if size <=? pos s then Return (Failure "Out of bounds") s
        else
          header_loop c enc osize commands_end (i + 1) header'
            (mk_ustate
               (result s ++ [u8 (byte_at enc (pos s) + byte_at header' i)])
               (cpos s) (pos s + 1))
  end.

Definition is_xyz_like (tag : Tag) : bool :=
  bool_decide (tag = kRxyzTag) || bool_decide (tag = kGxyzTag)
  || bool_decide (tag = kBxyzTag) || bool_decide (tag = kKxyzTag)
  || bool_decide (tag = kWtptTag) || bool_decide (tag = kBkptTag)
  || bool_decide (tag = kLumiTag).

(** The part of the tag loop's body that follows the choice of [tag]. *)
Definition tag_entry (enc : list Z) (commands_end : Z) (command tagcode : Z)
    (tag : Tag) (t : tag_state) : step tag_state :=
  let s := ts t in
  let r := AppendKeyword tag (result s) in
  let tagsize := if is_xyz_like tag then 20 else prevtagsize t in
  (* tagstart *)
  let start_res : Status * Z * Z :=
    if negb (Z.land command kFlagBitOffset =? 0) then
      if commands_end <=? cpos s then (Failure "Out of bounds", 0, cpos s)
      else let '(v, cp) := DecodeVarInt enc (cpos s) in (OK, v, cp)
    else
      match CheckIs32Bit (prevtagstart t) with
      | OK => (OK, u64 (prevtagstart t + prevtagsize t), cpos s)
      | e => (e, 0, cpos s)
      end in
  let '(st1, tagstart, cp1) := start_res in
  match st1 with
  | OK =>
      match CheckIs32Bit tagstart with
      | OK =>
          let r := AppendUint32 tagstart r in
          (* tagsize *)
          let size_res : Status * Z * Z :=
            if negb (Z.land command kFlagBitSize =? 0) then
              if commands_end <=? cp1 then (Failure "Out of bounds", 0, cp1)
              else let '(v, cp) := DecodeVarInt enc cp1 in (OK, v, cp)
            else (OK, tagsize, cp1) in
          let '(st2, tagsize, cp2) := size_res in
          match st2 with
          | OK =>
              match CheckIs32Bit tagsize with
              | OK =>
                  let r := AppendUint32 tagsize r in
                  let r :=
                    if tagcode =? kCommandTagTRC then
                      AppendUint32 tagsize (AppendUint32 tagstart
                        (AppendKeyword kBtrcTag
                          (AppendUint32 tagsize (AppendUint32 tagstart
                            (AppendKeyword kGtrcTag r)))))
                    else r in
                  if tagcode =? kCommandTagXYZ then
                    match CheckIs32Bit (u64 (tagstart + u64 (tagsize * 2))) with
                    | OK =>
                        let r :=
                          AppendUint32 tagsize
                            (AppendUint32 (u64 (tagstart + u64 (tagsize * 2)))
                              (AppendKeyword kBxyzTag
                                (AppendUint32 tagsize
                                  (AppendUint32 (u64 (tagstart + tagsize))
                                    (AppendKeyword kGxyzTag r))))) in
                        Continue (mk_tag_state (mk_ustate r cp2 (pos s))
                                    tagstart tagsize)
                    | e => Return e (mk_ustate r cp2 (pos s))
                    end
                  else
                    Continue (mk_tag_state (mk_ustate r cp2 (pos s))
                                tagstart tagsize)
              | e => Return e (mk_ustate r cp2 (pos s))
              end
          | e => Return e (mk_ustate r cp2 (pos s))
          end
      | e => Return e (mk_ustate r cp1 (pos s))
      end
  | e => Return e (mk_ustate r cp1 (pos s))
  end.

(** The body of the tag list loop. *)
Definition tag_body (enc : list Z) (osize commands_end : Z) (t : tag_state)
  : step tag_state :=
  let size := Z.of_nat (length enc) in
  let s := ts t in
  if osize <? Z.of_nat (length (result s))
  then Return (Failure "Invalid result size") s
  else if commands_end <? cpos s then Return (Failure "Out of bounds") s
  else if cpos s =? commands_end then Break s            (* Valid end *)
  else
    let command := byte_at enc (cpos s) in
    let s1 := mk_ustate (result s) (cpos s + 1) (pos s) in
    let tagcode := Z.land command 63 in
    if tagcode =? 0 then Break s1
    else if tagcode =? kCommandTagUnknown then
      match CheckOutOfBounds (pos s1) 4 size with
      | OK =>
          let tag := DecodeKeyword enc size (pos s1) in
          tag_entry enc commands_end command tagcode tag
            (mk_tag_state (mk_ustate (result s1) (cpos s1) (pos s1 + 4))
               (prevtagstart t) (prevtagsize t))
      | e => Return e s1
      end
    else if tagcode =? kCommandTagTRC then
      tag_entry enc commands_end command tagcode kRtrcTag
        (mk_tag_state s1 (prevtagstart t) (prevtagsize t))
    else if tagcode =? kCommandTagXYZ then
      tag_entry enc commands_end command tagcode kRxyzTag
        (mk_tag_state s1 (prevtagstart t) (prevtagsize t))
    else if kNumTagStrings <=? u64 (tagcode - kCommandTagStringFirst)
    then Return (Failure "Unknown tagcode") s1
    else
      tag_entry enc commands_end command tagcode
        (kTagStrings (tagcode - kCommandTagStringFirst))
        (mk_tag_state s1 (prevtagstart t) (prevtagsize t)).

(** [for (i = 0; i < num; i++) result->push_back(predicted + shuffled[i])],
    [predicted] being computed from the buffer as it grows. *)
Fixpoint predict_loop (shuffled : list Z) (start i stride width order : Z)
    (r : list Z) : list Z :=
  match shuffled with
  | [] => r
  | b :: rest =>
      let predicted := LinearPredictICCValue r start i stride width order in
      predict_loop rest start (i + 1) stride width order
        (r ++ [u8 (predicted + b)])
  end.

(** The command [kCommandPredict] from the statement
    [if (cpos >= commands_end) ...; uint64_t num = DecodeVarInt(...)] on,
    that is, once the stride has been accepted; [cp] is the commands cursor
    at that point. *)
Definition predict_data (enc : list Z) (commands_end : Z) (s : ustate)
    (cp stride width order : Z) : step ustate :=
  let size := Z.of_nat (length enc) in
  let s2 := mk_ustate (result s) cp (pos s) in
  if commands_end <=? cp then Return (Failure "Out of bounds") s2
  else
    let '(num, cp') := DecodeVarInt enc cp in  (* in bytes *)
    let s3 := mk_ustate (result s) cp' (pos s) in
    match CheckOutOfBounds (pos s) num size with
    | OK =>
        let shuffled := slice enc (pos s) num in
        let shuffled :=
          if 1 <? width then Shuffle shuffled width else shuffled in
        let start := Z.of_nat (length (result s)) in
        Continue
          (mk_ustate
             (predict_loop shuffled start 0 stride width order (result s))
             cp' (pos s + num))
    | e => Return e s3
    end.

(** The command [kCommandPredict]; [s] is the state after the command
    byte has been consumed. *)
Definition predict_command (enc : list Z) (commands_end : Z) (s : ustate)
  : step ustate :=
  match CheckOutOfBounds (cpos s) 2 commands_end with
  | OK =>
      let flags := byte_at enc (cpos s) in
      let s1 := mk_ustate (result s) (cpos s + 1) (pos s) in
      let width := Z.land flags 3 + 1 in
      if width =? 3 then Return (Failure "Invalid width") s1 else
      let order := Z.shiftr (Z.land flags 12) 2 in
      if order =? 3 then Return (Failure "Invalid order") s1 else
      let stride_res : Status * Z * Z :=
        if negb (Z.land flags 16 =? 0) then
          if commands_end <=? cpos s1 then (Failure "Out of bounds", 0, cpos s1)
          else
            let '(stride, cp) := DecodeVarInt enc (cpos s1) in
            if stride <? width then (Failure "Invalid stride", stride, cp)
            else (OK, stride, cp)
        else (OK, width, cpos s1) in
      let '(st, stride, cp) := stride_res in
      let s2 := mk_ustate (result s) cp (pos s) in
      match st with
      | OK =>
          let rsize := Z.of_nat (length (result s)) in
          if (rsize =? 0) || (Z.shiftr (rsize - 1) 2 <? stride)
          then Return (Failure "Invalid stride") s2
          else predict_data enc commands_end s cp stride width order
      | e => Return e s2
      end
  | e => Return e s
  end.

(** The body of the main content loop. *)
Definition main_body (enc : list Z) (osize commands_end : Z) (s : ustate)
  : step ustate :=
  let size := Z.of_nat (length enc) in
  if osize <? Z.of_nat (length (result s))
  then Return (Failure "Invalid result size") s
  else if commands_end <? cpos s then Return (Failure "Out of bounds") s
  else if cpos s =? commands_end then Break s            (* Valid end *)
  else
    let command := byte_at enc (cpos s) in
    let s1 := mk_ustate (result s) (cpos s + 1) (pos s) in
    if command =? kCommandInsert then
      if commands_end <=? cpos s1 then Return (Failure "Out of bounds") s1
      else
        let '(num, cp) := DecodeVarInt enc (cpos s1) in
        match CheckOutOfBounds (pos s1) num size with
        | OK =>
            Continue (mk_ustate (result s1 ++ slice enc (pos s1) num) cp
                        (pos s1 + num))
        | e => Return e (mk_ustate (result s1) cp (pos s1))
        end
    else if (command =? kCommandShuffle2) || (command =? kCommandShuffle4) then
      if commands_end <=? cpos s1 then Return (Failure "Out of bounds") s1
      else
        let '(num, cp) := DecodeVarInt enc (cpos s1) in
        match CheckOutOfBounds (pos s1) num size with
        | OK =>
            let shuffled := slice enc (pos s1) num in
            let shuffled :=
              if command =? kCommandShuffle2 then Shuffle shuffled 2
              else if command =? kCommandShuffle4 then Shuffle shuffled 4
              else shuffled in
            Continue (mk_ustate (result s1 ++ shuffled) cp (pos s1 + num))
        | e => Return e (mk_ustate (result s1) cp (pos s1))
        end
    else if command =? kCommandPredict then
      predict_command enc commands_end s1
    else if command =? kCommandXYZ then
      let r := AppendKeyword kXyz_Tag (result s1) ++ [0; 0; 0; 0] in
      match CheckOutOfBounds (pos s1) 12 size with
      | OK =>
          Continue (mk_ustate (r ++ slice enc (pos s1) 12) (cpos s1)
                      (pos s1 + 12))
      | e => Return e (mk_ustate r (cpos s1) (pos s1))
      end
    else if (kCommandTypeStartFirst <=? command)
            && (command <? kCommandTypeStartFirst + kNumTypeStrings) then
      Continue
        (mk_ustate
           (AppendKeyword (kTypeStrings (command - kCommandTypeStartFirst))
              (result s1) ++ [0; 0; 0; 0])
           (cpos s1) (pos s1))
    else Return (Failure "Unknown command") s1.

(** The tag list: [numtags] and the tag loop. *)
Definition tag_list (fuel : nat) (enc : list Z) (osize commands_end : Z)
    (s : ustate) : option loop_exit :=
  let '(numtags, cp) := DecodeVarInt enc (cpos s) in
  let s1 := mk_ustate (result s) cp (pos s) in
  if negb (numtags =? 0) then
    let numtags := numtags - 1 in
    match CheckIs32Bit numtags with
    | OK =>
        let s2 := mk_ustate (AppendUint32 numtags (result s)) cp (pos s) in
        let prevtagstart := u64 (kICCHeaderSize + u64 (numtags * 12)) in
        forever fuel (tag_body enc osize commands_end)
          (mk_tag_state s2 prevtagstart 0)
    | e => Some (Returned e s1)
    end
  else Some (Broke s1).

(** The fuel given to the tag loop and to the main loop: both loops consume
    at least one byte of the commands in every iteration that continues. *)
Definition loop_fuel (commands_end cpos : Z) : nat :=
  S (Z.to_nat (commands_end - cpos)).

(** The function from its first statement to its return: the status and
    the state of the buffer and of the cursors at that point; [None] if a
    loop had run out of fuel. *)
Definition UnpredictICC_run (enc : list Z) (result0 : list Z)
  : option (Status * ustate) :=
  let size := Z.of_nat (length enc) in
  let s0 := mk_ustate result0 0 0 in
  if negb (bool_decide (result0 = []))
  then Some (Failure "result must be empty initially", s0)
  else
    let pos0 := 0 in
    if size <=? pos0 then Some (Failure "Out of bounds", s0) else
    let '(osize, pos1) := DecodeVarInt enc pos0 in       (* Output size *)
    let s1 := mk_ustate result0 0 pos1 in
    match CheckIs32Bit osize with
    | OK =>
        if size <=? pos1 then Some (Failure "Out of bounds", s1) else
        let '(csize, pos2) := DecodeVarInt enc pos1 in   (* Commands size *)
        let s2 := mk_ustate result0 pos2 pos2 in
        match CheckIs32Bit csize with
        | OK =>
            let cpos0 := pos2 in
            match CheckOutOfBounds pos2 csize size with
            | OK =>
                let commands_end := cpos0 + csize in
                let s3 := mk_ustate result0 cpos0 commands_end in
                (* Header *)
                let header := ICCInitialHeaderPrediction (u32 osize) in
                match header_loop (Z.to_nat (kICCHeaderSize + 1)) enc osize
                        commands_end 0 header s3 with
                | Return st s => Some (st, s)
                | Continue _ => None
                | Break s4 =>
                    if commands_end <=? cpos s4
                    then Some (Failure "Out of bounds", s4)
                    else
                      (* Tag list *)
                      match tag_list (loop_fuel commands_end (cpos s4)) enc
                              osize commands_end s4 with
                      | None => None
                      | Some (Returned st s) => Some (st, s)
                      | Some (Broke s5) =>
                          (* Main Content *)
                          match forever (loop_fuel commands_end (cpos s5))
                                  (main_body enc osize commands_end) s5 with
                          | None => None
                          | Some (Returned st s) => Some (st, s)
                          | Some (Broke s6) =>
                              if negb (pos s6 =? size)
                              then Some (Failure "Not all data used", s6)
                              else if negb (Z.of_nat (length (result s6)) =? osize)
                              then Some (Failure "Invalid result size", s6)
                              else Some (OK, s6)
                          end
                      end
                end
            | e => Some (e, s2)
            end
        | e => Some (e, s2)
        end
    | e => Some (e, s1)
    end.

End decoder.
End ICC.

(** * The resumable reader, [ICCReader] *)

(** ** The bit reader *)

Module BitIO.

(** Modelled from the spec: the bit reader of [lib/jxl/dec_bit_reader.h],
    which is not among the sources.  Section 4.1: the stream is a sequence
    of bytes, the first bit being the least significant bit of byte 0;
    [read(n)] consumes [n] bits, LSB first; reading past the end returns
    zeros and is reported by [all_reads_within_bounds()];
    [total_bits_consumed()] is the position. *)
Record BitReader : Type := mk_reader {
  br_bytes : list Z;
  br_pos : Z;
}.

Definition bit_at (bytes : list Z) (i : Z) : Z :=
  if i <? 8 * Z.of_nat (length bytes)
  then Z.b2z (Z.testbit (nth (Z.to_nat (i / 8)) bytes 0) (i mod 8))
  else 0.

Fixpoint peek_bits (n : nat) (bytes : list Z) (p : Z) : Z :=
  match n with
  | O => 0
  | S m => bit_at bytes p + 2 * peek_bits m bytes (p + 1)
  end.

Definition ReadBits (n : nat) (r : BitReader) : Z * BitReader :=
  (peek_bits n (br_bytes r) (br_pos r),
   mk_reader (br_bytes r) (br_pos r + Z.of_nat n)).

Definition SkipBits (k : Z) (r : BitReader) : BitReader :=
  mk_reader (br_bytes r) (br_pos r + k).

Definition TotalBitsConsumed (r : BitReader) : Z := br_pos r.

Definition AllReadsWithinBounds (r : BitReader) : bool :=
  br_pos r <=? 8 * Z.of_nat (length (br_bytes r)).

(** A computation that uses the bit reader through [ReadBits] only. *)
Inductive rd (A : Type) : Type :=
  | RdRet (a : A)
  | RdBits (n : nat) (k : Z -> rd A).
Arguments RdRet {A} a.
Arguments RdBits {A} n k.

Fixpoint run {A} (p : rd A) (r : BitReader) : A * BitReader :=
  match p with
  | RdRet a => (a, r)
  | RdBits n k => let '(v, r') := ReadBits n r in run (k v) r'
  end.

(** The reader over a longer input, at the same position. *)
Definition extend (rest : list Z) (r : BitReader) : BitReader :=
  mk_reader (br_bytes r ++ rest) (br_pos r).

End BitIO.

(** ** What [ICCReader] takes from [dec_ans.h] and [fields.h]

    The entropy decoder is not among the sources.  Its operations use the
    bit reader through bit reads only, which is what [BitIO.rd] expresses;
    the state of [ANSSymbolReader] and the decoded histograms are abstract.
    [ANSSymbolReader::Checkpoint] holds a copy of the reader's state. *)
Class ANSDecoder : Type := {
  ANSCode : Type;                 (* code_ and context_map_ *)
  ANSSymbolReader : Type;
  code_default : ANSCode;
  ans_default : ANSSymbolReader;
  kMaxCheckpointInterval : Z;
  kNumICCContexts : Z;
  (** [U64Coder::Read(reader)] *)
  U64Coder_Read : BitIO.rd Z;
  (** [DecodeHistograms(memory_manager, reader, num_contexts, &code, &context_map)] *)
  DecodeHistograms : Z -> BitIO.rd (Status * ANSCode);
  (** [ANSSymbolReader::Create(&code, reader)] *)
  ANSSymbolReader_Create : ANSCode -> BitIO.rd (Status * ANSSymbolReader);
  (** [ans_reader.ReadHybridUint(ctx, reader, context_map)] *)
  ReadHybridUint : ANSCode -> ANSSymbolReader -> Z -> BitIO.rd (Z * ANSSymbolReader);
  (** [ans_reader.CheckANSFinalState()] *)
  CheckANSFinalState : ANSSymbolReader -> bool;
  (** [ICCANSContext(i, b1, b2)] *)
  ICCANSContext : Z -> Z -> Z -> Z;
}.

Module Reader.
Import BitIO ICC.

(** [constexpr const size_t kPreambleSize = 22;] *)
Definition kPreambleSize : Z := 22.

(** *** The conversion of an unsigned integer to [float]

    Binary32 has 24 significant bits; the conversion rounds to nearest,
    ties to even.  The value of the float is represented by the integer it
    equals. *)
Definition float_of_Z (z : Z) : Z :=
  if z <? 2 ^ 24 then z
  else
    let e := Z.log2 z - 23 in
    let q := z / 2 ^ e in
    let r := z mod 2 ^ e in
    let half := 2 ^ (e - 1) in
    if r <? half then q * 2 ^ e
    else if half <? r then (q + 1) * 2 ^ e
    else if Z.even q then q * 2 ^ e
    else (q + 1) * 2 ^ e.

(** [float used_bytes = bits / 8.0f; i_ > used_bytes * 256]: the division by
    8 and the multiplication by 256 are exact in binary32 (scalings by
    powers of two, far from overflow and underflow), so that
    [used_bytes * 256] is [32 * float(bits)]; [i_] is converted to [float]
    for the comparison. *)
Definition expansion_exceeded (i bits : Z) : bool :=
  32 * float_of_Z bits <? float_of_Z i.

Section reader.
Context `{ICCCommon} `{ANSDecoder}.

Record ICCReader : Type := mk_ICCReader {
  enc_size_ : Z;
  i_ : Z;
  bits_to_skip_ : Z;
  used_bits_base_ : Z;
  decompressed_ : list Z;
  code_ : ANSCode;
  ans_reader_ : ANSSymbolReader;
}.

(** A newly constructed reader. *)
Definition ICCReader_new : ICCReader :=
  mk_ICCReader 0 0 0 0 [] code_default ans_default.

(** [decompressed_.resize(n)]: bytes that the resize adds are not
    initialised; [garbage] gives their contents. *)
Definition resize (garbage : Z -> Z) (n : Z) (l : list Z) : list Z :=
  take (Z.to_nat n) l
  ++ map garbage (seqZ (Z.of_nat (length l)) (n - Z.of_nat (length l))).

(** [Status ICCReader::CheckEOI(BitReader* reader)] *)
Definition CheckEOI (r : BitReader) : Status :=
  if AllReadsWithinBounds r then OK
  else NotEnoughBytes "Not enough bytes for reading ICC profile".

(** [decompressed_[i_] = ans_reader_.ReadHybridUint(ICCANSContext(i_, b1, b2), reader, context_map_)];
    [None] if the index is outside [decompressed_]. *)
Definition read_symbol (st : ICCReader) (r : BitReader) (b1 b2 : Z)
  : option (ICCReader * BitReader) :=
  let ctx := ICCANSContext (i_ st) b1 b2 in
  let '((v, ans'), r') := run (ReadHybridUint (code_ st) (ans_reader_ st) ctx) r in
  match zset (decompressed_ st) (i_ st) (u8 v) with
  | Some d =>
      Some (mk_ICCReader (enc_size_ st) (i_ st) (bits_to_skip_ st)
              (used_bits_base_ st) d (code_ st) ans', r')
  | None => None
  end.

Definition set_i (st : ICCReader) (i : Z) : ICCReader :=
  mk_ICCReader (enc_size_ st) i (bits_to_skip_ st) (used_bits_base_ st)
    (decompressed_ st) (code_ st) (ans_reader_ st).

Definition set_bits_to_skip (st : ICCReader) (b : Z) : ICCReader :=
  mk_ICCReader (enc_size_ st) (i_ st) b (used_bits_base_ st)
    (decompressed_ st) (code_ st) (ans_reader_ st).

Definition set_decompressed (st : ICCReader) (d : list Z) : ICCReader :=
  mk_ICCReader (enc_size_ st) (i_ st) (bits_to_skip_ st) (used_bits_base_ st)
    d (code_ st) (ans_reader_ st).

(** The loops of [Init] that read the first symbols:
    [for (; i_ < bound; i_++) decompressed_[i_] = ...]. *)
Fixpoint init_symbols (count : nat) (st : ICCReader) (r : BitReader)
  : option (ICCReader * BitReader) :=
  match count with
  | O => Some (st, r)
  | S c =>
      let b1 := if 0 <? i_ st then byte_at (decompressed_ st) (i_ st - 1) else 0 in
      let b2 := if 1 <? i_ st then byte_at (decompressed_ st) (i_ st - 2) else 0 in
      match read_symbol st r b1 b2 with
      | Some (st', r') => init_symbols c (set_i st' (i_ st' + 1)) r'
      | None => None
      end
  end.

(** [Status ICCReader::Init(BitReader* reader)]; [None] stands for an access
    outside [decompressed_]. *)
Definition Init (garbage : Z -> Z) (st : ICCReader) (r : BitReader)
  : option (Status * ICCReader * BitReader) :=
  match CheckEOI r with
  | OK =>
      let st := mk_ICCReader (enc_size_ st) (i_ st) (bits_to_skip_ st)
                  (TotalBitsConsumed r) (decompressed_ st) (code_ st)
                  (ans_reader_ st) in
      if bits_to_skip_ st =? 0 then
        let '(enc_size, r) := run U64Coder_Read r in
        let st := mk_ICCReader enc_size (i_ st) (bits_to_skip_ st)
                    (used_bits_base_ st) (decompressed_ st) (code_ st)
                    (ans_reader_ st) in
        if 268435456 <? enc_size
        then Some (Failure "Too large encoded profile", st, r)
        else
          let '((hst, code), r) := run (DecodeHistograms kNumICCContexts) r in
          let st := mk_ICCReader enc_size (i_ st) (bits_to_skip_ st)
                      (used_bits_base_ st) (decompressed_ st) code
                      (ans_reader_ st) in
          match hst with
          | OK =>
              let '((cst, ans), r) := run (ANSSymbolReader_Create code) r in
              match cst with
              | OK =>
                  let st := mk_ICCReader enc_size 0 (bits_to_skip_ st)
                              (used_bits_base_ st)
                              (resize garbage (Z.min (0 + 0x400) enc_size)
                                 (decompressed_ st))
                              code ans in
                  match init_symbols (Z.to_nat (Z.min 2 enc_size)) st r with
                  | Some (st, r) =>
                      if kPreambleSize <? enc_size then
                        match init_symbols (Z.to_nat (kPreambleSize - i_ st)) st r with
                        | Some (st, r) =>
                            match CheckEOI r with
                            | OK =>
                                match CheckPreamble (decompressed_ st) enc_size with
                                | OK =>
                                    Some (OK,
                                          set_bits_to_skip st
                                            (u64 (TotalBitsConsumed r - used_bits_base_ st)),
                                          r)
                                | e => Some (e, st, r)
                                end
                            | e => Some (e, st, r)
                            end
                        | None => None
                        end
                      else
                        Some (OK,
                              set_bits_to_skip st
                                (u64 (TotalBitsConsumed r - used_bits_base_ st)),
                              r)
                  | None => None
                  end
              | e => Some (e, st, r)
              end
          | e => Some (e, st, r)
          end
      else Some (OK, st, SkipBits (bits_to_skip_ st) r)
  | e => Some (e, st, r)
  end.

(** [*checkpoint] and [saved_i]. *)
Record checkpoint : Type := mk_checkpoint {
  cp_ans : ANSSymbolReader;
  cp_i : Z;
}.

(** The lambda [save]. *)
Definition save (st : ICCReader) (r : BitReader) : ICCReader * checkpoint :=
  (set_bits_to_skip st (u64 (TotalBitsConsumed r - used_bits_base_ st)),
   mk_checkpoint (ans_reader_ st) (i_ st)).

(** The lambda [check_and_restore]. *)
Definition check_and_restore (st : ICCReader) (r : BitReader) (cp : checkpoint)
  : Status * ICCReader :=
  match CheckEOI r with
  | OK => (OK, st)
  | status =>
      (* not enough bytes. *)
      (status,
       mk_ICCReader (enc_size_ st) (cp_i cp) (bits_to_skip_ st)
         (used_bits_base_ st) (decompressed_ st) (code_ st) (cp_ans cp))
  end.

(** What an iteration of the loop of [Process] does: it goes on, or
    [Process] returns. *)
Inductive iter : Type :=
  | Next (st : ICCReader) (r : BitReader) (cp : checkpoint)
  | Exit (status : Status) (st : ICCReader) (r : BitReader) (cp : checkpoint).

(** The block [if (i_ % kMaxCheckpointInterval == 0 && i_ > 0) { ... }]. *)
Definition checkpoint_block (garbage : Z -> Z) (st : ICCReader) (r : BitReader)
    (cp : checkpoint) : iter :=
  if (i_ st mod kMaxCheckpointInterval =? 0) && (0 <? i_ st) then
    match check_and_restore st r cp with
    | (OK, st) =>
        let '(st, cp) := save st r in
        if (0 <? i_ st) && (Z.land (i_ st) 0xFFFF =? 0)
           && expansion_exceeded (i_ st)
                (u64 (TotalBitsConsumed r - used_bits_base_ st))
        then Exit (Failure "Corrupted stream") st r cp
        else
          Next (set_decompressed st
                  (resize garbage (Z.min (i_ st + 0x400) (enc_size_ st))
                     (decompressed_ st)))
               r cp
    | (e, st) => Exit e st r cp
    end
  else Next st r cp.

(** [JXL_ENSURE(i_ >= 2); decompressed_[i_] = ans_reader_.ReadHybridUint(...)]. *)
Definition symbol_step (st : ICCReader) (r : BitReader) (cp : checkpoint)
  : option iter :=
  if i_ st <? 2 then Some (Exit (Failure "JXL_ENSURE(i_ >= 2)") st r cp)
  else
    match read_symbol st r (byte_at (decompressed_ st) (i_ st - 1))
            (byte_at (decompressed_ st) (i_ st - 2)) with
    | Some (st', r') => Some (Next st' r' cp)
    | None => None
    end.

(** The body of [for (; i_ < enc_size_; i_++)], without the increment. *)
Definition process_body (garbage : Z -> Z) (st : ICCReader) (r : BitReader)
    (cp : checkpoint) : option iter :=
  match checkpoint_block garbage st r cp with
  | Next st r cp => symbol_step st r cp
  | e => Some e
  end.

(** The loop [for (; i_ < enc_size_; i_++)]; [count] is [enc_size_ - i_]. *)
Fixpoint process_loop (garbage : Z -> Z) (count : nat) (st : ICCReader)
    (r : BitReader) (cp : checkpoint) : option iter :=
  match count with
  | O => Some (Next st r cp)
  | S c =>
      match process_body garbage st r cp with
      | Some (Next st' r' cp') =>
          process_loop garbage c (set_i st' (i_ st' + 1)) r' cp'
      | other => other
      end
  end.

(** The statements of [Process] that follow the loop. *)
Definition process_tail (st : ICCReader) (r : BitReader) (cp : checkpoint)
    (icc : list Z) : option (Status * ICCReader * BitReader * list Z) :=
  match check_and_restore st r cp with
  | (OK, st) =>
      let st := set_bits_to_skip st
                  (u64 (TotalBitsConsumed r - used_bits_base_ st)) in
      if negb (CheckANSFinalState (ans_reader_ st))
      then Some (Failure "Corrupted ICC profile", st, r, icc)
      else
        (* icc->clear(); return UnpredictICC(...) *)
        match UnpredictICC_run (decompressed_ st) [] with
        | Some (status, u) => Some (status, st, r, result u)
        | None => None
        end
  | (e, st) => Some (e, st, r, icc)
  end.

(** The loop of [Process] and the statements that follow it. *)
Definition process_from (garbage : Z -> Z) (count : nat) (st : ICCReader)
    (r : BitReader) (cp : checkpoint) (icc : list Z)
  : option (Status * ICCReader * BitReader * list Z) :=
  match process_loop garbage count st r cp with
  | Some (Next st r cp) => process_tail st r cp icc
  | Some (Exit e st r cp) => Some (e, st, r, icc)
  | None => None
  end.

(** [Status ICCReader::Process(BitReader* reader, PaddedBytes* icc)]: the
    status, the reader's state, the bit reader and [*icc] on return.
    [None] stands for an access outside [decompressed_]. *)
Definition Process (garbage : Z -> Z) (st : ICCReader) (r : BitReader)
    (icc : list Z) : option (Status * ICCReader * BitReader * list Z) :=
  let '(st, cp) := save st r in
  process_from garbage (Z.to_nat (enc_size_ st - i_ st)) st r cp icc.

(** What the caller observes of a call of [Process]: the status and the
    contents of [*icc]. *)
Definition outcome (x : option (Status * ICCReader * BitReader * list Z))
  : option (Status * list Z) :=
  match x with
  | Some (status, _, _, icc) => Some (status, icc)
  | None => None
  end.

(** Two states of the reader that differ at most in [bits_to_skip_] and
    in the bytes of [decompressed_] from index [i_] on. *)
Definition sim (a b : ICCReader) : Prop :=
  enc_size_ a = enc_size_ b /\ i_ a = i_ b
  /\ used_bits_base_ a = used_bits_base_ b
  /\ code_ a = code_ b /\ ans_reader_ a = ans_reader_ b
  /\ length (decompressed_ a) = length (decompressed_ b)
  /\ take (Z.to_nat (i_ a)) (decompressed_ a)
     = take (Z.to_nat (i_ a)) (decompressed_ b).

(** The state is as [Init] and the loop of [Process] keep it:
    [decompressed_] holds at least the symbols read and at most
    [enc_size_] bytes. *)
Definition wf_state (st : ICCReader) : Prop :=
  0 <= i_ st <= Z.of_nat (length (decompressed_ st))
  /\ Z.of_nat (length (decompressed_ st)) <= enc_size_ st.

End reader.
End Reader.

(** * Instances for the examples

    The theorems below hold for every instance of [ICCCommon] and of
    [ANSDecoder].  The instances of this section serve to run the decoder on
    concrete inputs; they are not part of the program under study.  No
    control-flow decision of the decoder depends on the predictions, which
    are all zero here. *)

Module Sample.
Import ICC BitIO.

Definition check_is_32bit (v : Z) : Status :=
  if 0xFFFFFFFF <? v then Failure "32-bit value expected" else OK.

Definition check_out_of_bounds (a b size : Z) : Status :=
  let pos := u64 (a + b) in
  if size <? pos then Failure "Out of bounds"
  else if pos <? a then Failure "Out of bounds"
  else OK.

Definition append_uint32 (v : Z) (data : list Z) : list Z :=
  data ++ [Z.shiftr v 24 mod 256; Z.shiftr v 16 mod 256;
           Z.shiftr v 8 mod 256; v mod 256].

#[global] Instance common : ICCCommon := {|
  Tag := list Z;
  kICCHeaderSize := 128;
  kCommandInsert := 1;
  kCommandShuffle2 := 2;
  kCommandShuffle4 := 3;
  kCommandPredict := 4;
  kCommandXYZ := 10;
  kCommandTypeStartFirst := 16;
  kNumTypeStrings := 8;
  kCommandTagUnknown := 1;
  kCommandTagTRC := 2;
  kCommandTagXYZ := 3;
  kCommandTagStringFirst := 4;
  kNumTagStrings := 17;
  kFlagBitOffset := 64;
  kFlagBitSize := 128;
  kRtrcTag := [114; 84; 82; 67];
  kGtrcTag := [103; 84; 82; 67];
  kBtrcTag := [98; 84; 82; 67];
  kRxyzTag := [114; 88; 89; 90];
  kGxyzTag := [103; 88; 89; 90];
  kBxyzTag := [98; 88; 89; 90];
  kKxyzTag := [107; 88; 89; 90];
  kWtptTag := [119; 116; 112; 116];
  kBkptTag := [98; 107; 112; 116];
  kLumiTag := [108; 117; 109; 105];
  kXyz_Tag := [88; 89; 90; 32];
  kTagStrings := fun i => [116; 97; 103; 48 + i];
  kTypeStrings := fun i => [116; 121; 112; 48 + i];
  CheckIs32Bit := check_is_32bit;
  CheckOutOfBounds := check_out_of_bounds;
  ICCInitialHeaderPrediction := fun size => append_uint32 size [] ++ replicate 124 0;
  ICCPredictHeader := fun icc size header pos => header;
  DecodeKeyword := fun data size pos => slice data pos 4;
  AppendKeyword := fun tag data => data ++ tag;
  AppendUint32 := append_uint32;
  LinearPredictICCValue := fun data start i stride width order => 0;
|}.

(** A stand-in for the entropy decoder: every symbol is one byte of the
    stream, the state of the symbol reader counts the symbols. *)
#[global] Instance raw_bytes : ANSDecoder := {|
  ANSCode := unit;
  ANSSymbolReader := Z;
  code_default := tt;
  ans_default := 0;
  kMaxCheckpointInterval := 512;
  kNumICCContexts := 41;
  U64Coder_Read := RdBits 32 (fun v => RdRet v);
  DecodeHistograms := fun n => RdRet (OK, tt);
  ANSSymbolReader_Create := fun c => RdRet (OK, 0);
  ReadHybridUint := fun c a ctx => RdBits 8 (fun v => RdRet (v, a + 1));
  CheckANSFinalState := fun a => true;
  ICCANSContext := fun i b1 b2 => 0;
|}.

(** Inputs of the examples. *)

(** Declared size 1000, no tag list, then a PREDICT command (width 1,
    order 0, explicit stride 40) after the 128 bytes of the header. *)
Definition stride_example : list Z :=
  [232; 7; 4; 0; 4; 16; 40] ++ replicate 128 0.

(** A reader at index 65536 of an encoded profile of 70000 bytes. *)
Definition expansion_example : Reader.ICCReader :=
  Reader.mk_ICCReader 70000 65536 0 0 [] tt 0.

(** The encoded size 3 on 32 bits, then the three symbols of the encoded
    profile [1; 0; 7] (a profile of one byte, 7); and two truncations of
    that stream: after the size, and before the last symbol. *)
Definition short_stream : list Z := [3; 0; 0; 0; 1; 0; 7].
Definition short_stream_size_only : list Z := take 4 short_stream.
Definition short_stream_two_symbols : list Z := take 6 short_stream.

Definition zero_fill (_ : Z) : Z := 0.

End Sample.

(** * Specification-level notions for the ICC decoder *)

Module ICCSpec.

(** The value of an unsigned LEB128 number: 7 payload bits per byte, low
    groups first. *)
Fixpoint leb128_value (bs : list Z) : Z :=
  match bs with
  | [] => 0
  | b :: r => Z.land b 127 + 128 * leb128_value r
  end.

(** The bytes of one LEB128 number: the high bit is set in every byte but
    the last. *)
Fixpoint leb128_wf (bs : list Z) : Prop :=
  match bs with
  | [] => False
  | b :: r =>
      match r with
      | [] => Z.land b 128 = 0
      | _ => Z.land b 128 <> 0 /\ leb128_wf r
      end
  end.

End ICCSpec.

(** * Notions for the resumption of [ICCReader::Process] *)

Module ResumeSpec.
Import BitIO ICC Reader.

Section resume.
Context `{ICCCommon} `{ANSDecoder}.

(** The truncated input, what is appended to it, the position of the bit
    reader when [Init] is called, the contents of uninitialised bytes in
    the resumed and in the uninterrupted decoding, the buffer given to
    [Process], and the outcome [O] of the uninterrupted decoding. *)
Variables (pre rest : list Z) (base : Z) (g2 g3 : Z -> Z) (icc' : list Z).
Variable O : option (Status * list Z).

(** The state that [check_and_restore] leaves when it fails. *)
Definition restore (st : ICCReader) (cp : checkpoint) : ICCReader :=
  mk_ICCReader (enc_size_ st) (cp_i cp) (bits_to_skip_ st)
    (used_bits_base_ st) (decompressed_ st) (code_ st) (cp_ans cp).

(** From the state [st'], [Init] on a reader over the whole input, then
    [Process], have the outcome [O]. *)
Definition resume_ok (st' : ICCReader) : Prop :=
  exists st2 r2,
    Init g2 st' (mk_reader (pre ++ rest) base) = Some (OK, st2, r2)
    /\ outcome (Process g2 st2 r2 icc') = O.

(** The checkpoint was taken within the truncated input, and the
    uninterrupted decoding passes through a state similar to it. *)
Definition good_cp (st : ICCReader) (cp : checkpoint) : Prop :=
  0 <= cp_i cp /\ 0 < bits_to_skip_ st
  /\ base + bits_to_skip_ st <= 8 * Z.of_nat (length pre)
  /\ exists S cpS,
       sim S (restore st cp) /\ wf_state S
       /\ outcome (process_from g3 (Z.to_nat (enc_size_ S - i_ S)) S
                     (mk_reader (pre ++ rest) (base + bits_to_skip_ st))
                     cpS icc') = O.

(** As long as the reads are within the truncated input, the decoding is at
    a state similar to one of the uninterrupted decoding. *)
Definition in_sync (st : ICCReader) (r : BitReader) (count : nat) : Prop :=
  AllReadsWithinBounds r = true ->
  exists S cpS,
    sim S st /\ wf_state S
    /\ outcome (process_from g3 count S (extend rest r) cpS icc') = O.

(** The invariant of the loop of [Process] on the truncated input. *)
Definition resume_inv (st : ICCReader) (r : BitReader) (cp : checkpoint)
    (count : nat) : Prop :=
  used_bits_base_ st = base /\ br_bytes r = pre /\ base < br_pos r
  /\ count = Z.to_nat (enc_size_ st - i_ st)
  /\ cp_i cp <= i_ st /\ wf_state st
  /\ good_cp st cp /\ in_sync st r count.

End resume.
End ResumeSpec.

(** * Specification-level notions for [Shuffle] *)

Module ShuffleSpec.
Import ICC.

(** The input indices that the loop of [Shuffle] visits: the values of [j]
    at the assignments [result[i] = data[j]]. *)
Fixpoint Shuffle_indices (count : nat) (size height s j : Z) : list Z :=
  match count with
  | O => []
  | S c =>
      j :: (if size <=? j + height
            then Shuffle_indices c size height (s + 1) (s + 1)
            else Shuffle_indices c size height s (j + height))
  end.

(** The indices below [size] that are congruent to [s] modulo [height],
    in increasing order: one column of the matrix. *)
Definition column (size height s : Z) : list Z :=
  (fun k => s + k * height) <$> seqZ 0 ((size - s + height - 1) / height).

(** The columns [s], [s + 1], ..., [s + n - 1], one after the other. *)
Definition columns (size height s n : Z) : list Z :=
  seqZ s n ≫= column size height.

(** What the enumeration by columns holds from row [k] of column [s] on. *)
Definition remaining (size height s k : Z) : list Z :=
  ((fun k' => s + k' * height)
     <$> seqZ k ((size - s + height - 1) / height - k))
  ++ columns size height (s + 1) (height - s - 1).

(** The index of the input that a transposition of a matrix of [width]
    rows and [height] columns puts at index [t] of the output. *)
Definition transposed (width height t : Z) : Z :=
  t / width + (t mod width) * height.

End ShuffleSpec.

(** * Notions for the buffer of [ICCReader] *)

Module ReaderSpec.
Import BitIO ICC Reader.

Section spec.
Context `{ICCCommon} `{ANSDecoder}.

(** The iterations of the loop of [Process] that run the checkpoint block:
    [i_ % ANSSymbolReader::kMaxCheckpointInterval == 0 && i_ > 0]. *)
Definition is_checkpoint (i : Z) : bool :=
  (i mod kMaxCheckpointInterval =? 0) && (0 <? i).

(** [decompressed_] has room for the symbols that are decoded before the
    next checkpoint resizes it: every index from [i_] on, below
    [enc_size_], that is reached without passing a checkpoint is within
    the buffer. *)
Definition has_room (st : ICCReader) : Prop :=
  forall j, i_ st <= j < enc_size_ st ->
    (forall m, i_ st <= m <= j -> is_checkpoint m = false) ->
    j < Z.of_nat (length (decompressed_ st)).

(** What a caller observes of a call of [Init]: the status and the bit
    reader. *)
Definition init_outcome (x : option (Status * ICCReader * BitReader))
  : option (Status * BitReader) :=
  match x with
  | Some (status, _, r) => Some (status, r)
  | None => None
  end.

End spec.
End ReaderSpec.

(** * Further inputs for the examples *)

Module Examples.

(** The encoded size 23 on 32 bits, then the 23 symbols of an encoded
    profile: declared size 21, no commands, 21 bytes of header data. *)
Definition long_stream : list Z := [23; 0; 0; 0] ++ [21; 0] ++ replicate 21 1.

End Examples.

(** * Properties *)

(** ** Bit-level facts *)

Section bits.
Import LehmerSpec.

Lemma land_even_even a b : Z.land (2 * a) (2 * b) = 2 * Z.land a b.
Proof.
  apply Z.bits_inj'; intros n Hn.
  destruct (Z.eq_dec n 0) as [->|Hne].
  - rewrite Z.land_spec, !Z.testbit_even_0. reflexivity.
  - replace n with (Z.succ (n - 1)) by lia.
    rewrite Z.land_spec, !Z.testbit_even_succ, Z.land_spec by lia. reflexivity.
Qed.

Lemma land_odd_odd a b : Z.land (2 * a + 1) (2 * b + 1) = 2 * Z.land a b + 1.
Proof.
  apply Z.bits_inj'; intros n Hn.
  destruct (Z.eq_dec n 0) as [->|Hne].
  - rewrite Z.land_spec, !Z.testbit_odd_0. reflexivity.
  - replace n with (Z.succ (n - 1)) by lia.
    rewrite Z.land_spec, !Z.testbit_odd_succ, Z.land_spec by lia. reflexivity.
Qed.

Lemma land_odd_even a b : Z.land (2 * a + 1) (2 * b) = 2 * Z.land a b.
Proof.
  apply Z.bits_inj'; intros n Hn.
  destruct (Z.eq_dec n 0) as [->|Hne].
  - rewrite Z.land_spec, Z.testbit_odd_0, !Z.testbit_even_0. reflexivity.
  - replace n with (Z.succ (n - 1)) by lia.
    rewrite Z.land_spec, Z.testbit_odd_succ, !Z.testbit_even_succ, Z.land_spec by lia.
    reflexivity.
Qed.

Lemma land_even_odd a b : Z.land (2 * a) (2 * b + 1) = 2 * Z.land a b.
Proof. rewrite Z.land_comm, land_odd_even, Z.land_comm. reflexivity. Qed.

Lemma lowbit_even q : 0 < q -> lowbit (2 * q) = 2 * lowbit q.
Proof. destruct q; try lia. reflexivity. Qed.

Lemma lowbit_odd q : 0 <= q -> lowbit (2 * q + 1) = 1.
Proof. destruct q; try lia; reflexivity. Qed.

(** Induction on the binary representation of a positive integer. *)
Lemma Z_binary_ind (P : Z -> Prop) :
  P 1 ->
  (forall q, 0 < q -> P q -> P (2 * q)) ->
  (forall q, 0 < q -> P q -> P (2 * q + 1)) ->
  forall i, 0 < i -> P i.
Proof.
  intros H1 H0 H2 i Hi. destruct i as [|p|p]; try lia. clear Hi.
  induction p as [p IH|p IH|].
  - change (Z.pos p~1) with (2 * Z.pos p + 1). apply H2; [lia|exact IH].
  - change (Z.pos p~0) with (2 * Z.pos p). apply H0; [lia|exact IH].
  - exact H1.
Qed.

Lemma lowbit_bounds i : 0 < i -> 1 <= lowbit i <= i.
Proof.
  revert i. apply Z_binary_ind.
  - simpl. lia.
  - intros q Hq IH. rewrite lowbit_even by lia. lia.
  - intros q Hq IH. rewrite lowbit_odd by lia. lia.
Qed.

Lemma lowbit_nonpos i : i <= 0 -> lowbit i = 0.
Proof. destruct i; try lia; reflexivity. Qed.

Lemma lowbit_land i : 0 < i -> Z.land i (- i) = lowbit i.
Proof.
  revert i. apply Z_binary_ind.
  - reflexivity.
  - intros q Hq IH. rewrite lowbit_even by lia.
    replace (- (2 * q)) with (2 * (- q)) by lia.
    rewrite land_even_even, IH. reflexivity.
  - intros q Hq IH. rewrite lowbit_odd by lia.
    replace (- (2 * q + 1)) with (2 * Z.lnot q + 1) by (unfold Z.lnot; lia).
    rewrite land_odd_odd, Z.land_lnot_diag. reflexivity.
Qed.

Lemma clear_lowbit i : 0 < i -> Z.land i (i - 1) = i - lowbit i.
Proof.
  revert i. apply Z_binary_ind.
  - reflexivity.
  - intros q Hq IH. rewrite lowbit_even by lia.
    replace (2 * q - 1) with (2 * (q - 1) + 1) by lia.
    rewrite land_even_odd, IH. lia.
  - intros q Hq IH. rewrite lowbit_odd by lia.
    replace (2 * q + 1 - 1) with (2 * q) by lia.
    rewrite land_odd_even, Z.land_diag. lia.
Qed.

Lemma lowbit_add_step i : 0 < i -> 2 * lowbit i <= lowbit (i + lowbit i).
Proof.
  revert i. apply Z_binary_ind.
  - simpl. lia.
  - intros q Hq IH. rewrite lowbit_even by lia.
    replace (2 * q + 2 * lowbit q) with (2 * (q + lowbit q)) by lia.
    pose proof (lowbit_bounds q Hq).
    rewrite lowbit_even by lia. lia.
  - intros q Hq IH. rewrite lowbit_odd by lia.
    replace (2 * q + 1 + 1) with (2 * (q + 1)) by lia.
    rewrite lowbit_even by lia. pose proof (lowbit_bounds (q + 1)). lia.
Qed.

Lemma lowbit_sub_step i :
  0 < i -> 0 < i - lowbit i -> 2 * lowbit i <= lowbit (i - lowbit i).
Proof.
  revert i. apply (Z_binary_ind (fun i =>
    0 < i - lowbit i -> 2 * lowbit i <= lowbit (i - lowbit i))).
  - simpl. lia.
  - intros q Hq IH. rewrite lowbit_even by lia. intros Hp.
    replace (2 * q - 2 * lowbit q) with (2 * (q - lowbit q)) by lia.
    rewrite lowbit_even by lia. specialize (IH ltac:(lia)). lia.
  - intros q Hq IH. rewrite lowbit_odd by lia. intros Hp.
    replace (2 * q + 1 - 1) with (2 * q) by lia.
    rewrite lowbit_even by lia. pose proof (lowbit_bounds q Hq). lia.
Qed.

Lemma covers_double i p : 0 < i -> 0 < p -> covers (2 * i) (2 * p) <-> covers i p.
Proof. intros Hi Hp. unfold covers. rewrite lowbit_even by lia. lia. Qed.

(** The positions that account for [p] are [p] itself and those that
    account for the next position of the chain, [p + lowbit p]. *)
Lemma covers_chain p : 0 < p ->
  forall j, 0 < j -> covers j p <-> j = p \/ covers j (p + lowbit p).
Proof.
  revert p. apply (Z_binary_ind (fun p => forall j, 0 < j ->
    covers j p <-> j = p \/ covers j (p + lowbit p))).
  - intros j Hj. change (lowbit 1) with 1. revert j Hj. apply Z_binary_ind.
    + unfold covers. simpl. lia.
    + intros q Hq _. unfold covers. rewrite lowbit_even by lia.
      pose proof (lowbit_bounds q Hq). lia.
    + intros q Hq _. unfold covers. rewrite lowbit_odd by lia. lia.
  - intros p Hp IH j Hj. rewrite lowbit_even by lia.
    replace (2 * p + 2 * lowbit p) with (2 * (p + lowbit p)) by lia.
    pose proof (lowbit_bounds p Hp) as Hlp.
    revert j Hj. apply Z_binary_ind.
    + unfold covers. simpl. lia.
    + intros q Hq _. rewrite !covers_double by lia. rewrite IH by lia.
      split; (intros [?|?]; [left; lia | right; assumption]).
    + intros q Hq _. unfold covers. rewrite lowbit_odd by lia. lia.
  - intros p Hp IH j Hj. rewrite lowbit_odd by lia.
    revert j Hj. apply Z_binary_ind.
    + unfold covers. simpl. lia.
    + intros q Hq _. unfold covers. rewrite lowbit_even by lia.
      pose proof (lowbit_bounds q Hq). lia.
    + intros q Hq _. unfold covers. rewrite lowbit_odd by lia. lia.
Qed.

End bits.

(** ** The machine operations compute [lowbit] *)

Section machine.
Import LehmerSpec Lehmer.

Lemma u32_small z : 0 <= z < 2 ^ 32 -> u32 z = z.
Proof. intros H. unfold u32. apply Z.mod_small. lia. Qed.

Lemma u64_small z : 0 <= z < 2 ^ 64 -> u64 z = z.
Proof. intros H. unfold u64. apply Z.mod_small. lia. Qed.

Lemma s32_small z : - 2 ^ 31 <= z < 2 ^ 31 -> s32 z = z.
Proof. intros H. unfold s32. rewrite Z.mod_small by lia. lia. Qed.

Lemma testbit_small i w n : 0 <= i < 2 ^ w -> 0 <= w <= n -> Z.testbit i n = false.
Proof.
  intros Hi Hw. destruct (Z.eq_dec i 0) as [->|Hne].
  - apply Z.bits_0.
  - apply Z.bits_above_log2; [lia|].
    assert (Z.log2 i < w) by (apply Z.log2_lt_pow2; lia). lia.
Qed.

Lemma land_neg_mod i w :
  0 <= w -> 0 < i < 2 ^ w -> Z.land i ((- i) mod 2 ^ w) = lowbit i.
Proof.
  intros Hw Hi. rewrite <- lowbit_land by lia.
  apply Z.bits_inj'; intros n Hn. rewrite !Z.land_spec.
  destruct (Z_lt_dec n w).
  - rewrite Z.mod_pow2_bits_low by lia. reflexivity.
  - rewrite (testbit_small i w n) by lia. reflexivity.
Qed.

Lemma vl1b_u32 i : 0 < i < 2 ^ 32 -> ValueOfLowest1Bit u32 i = lowbit i.
Proof. intros H. unfold ValueOfLowest1Bit, u32. apply land_neg_mod; lia. Qed.

Lemma vl1b_u64 i : 0 < i < 2 ^ 64 -> ValueOfLowest1Bit u64 i = lowbit i.
Proof. intros H. unfold ValueOfLowest1Bit, u64. apply land_neg_mod; lia. Qed.

Lemma vl1b_s32 i :
  0 < i < 2 ^ 31 -> u32 (ValueOfLowest1Bit s32 (s32 i)) = lowbit i.
Proof.
  intros H. unfold ValueOfLowest1Bit. rewrite (s32_small i) by lia.
  rewrite (s32_small (- i)) by lia. rewrite lowbit_land by lia.
  pose proof (lowbit_bounds i). apply u32_small. lia.
Qed.

Lemma clear_lowbit_u32 i : 0 < i < 2 ^ 32 -> Z.land i (u32 (i - 1)) = i - lowbit i.
Proof. intros H. rewrite u32_small by lia. apply clear_lowbit. lia. Qed.

Lemma zget_Some {A} (l : list A) i :
  0 <= i -> zget l i = l !! Z.to_nat i.
Proof. intros H. unfold zget. destruct (decide (0 <= i)); [reflexivity|lia]. Qed.

Lemma zset_Some {A} (l : list A) i v :
  0 <= i < Z.of_nat (length l) -> zset l i v = Some (<[Z.to_nat i := v]> l).
Proof.
  intros H. unfold zset.
  destruct (decide (0 <= i < Z.of_nat (length l))); [reflexivity|lia].
Qed.

End machine.

(** ** Counting *)

Section counting.
Import LehmerSpec.

Lemma cnt_nil lo hi : cnt [] lo hi = 0.
Proof. reflexivity. Qed.

Lemma cnt_app U V lo hi : cnt (U ++ V) lo hi = cnt U lo hi + cnt V lo hi.
Proof. unfold cnt. rewrite list.filter_app, length_app. lia. Qed.

Lemma cnt_single s lo hi :
  cnt [s] lo hi = if decide (lo <= s < hi) then 1 else 0.
Proof.
  unfold cnt. rewrite filter_cons, filter_nil.
  destruct (decide (lo <= s < hi)); reflexivity.
Qed.

Lemma cnt_snoc U s lo hi :
  cnt (U ++ [s]) lo hi = cnt U lo hi + if decide (lo <= s < hi) then 1 else 0.
Proof. rewrite cnt_app, cnt_single. reflexivity. Qed.

Lemma cnt_nonneg U lo hi : 0 <= cnt U lo hi.
Proof. unfold cnt. lia. Qed.

Lemma cnt_le_length U lo hi : cnt U lo hi <= Z.of_nat (length U).
Proof. unfold cnt. pose proof (length_filter (fun u => lo <= u < hi) U). lia. Qed.

Lemma cnt_split U lo mid hi :
  lo <= mid <= hi -> cnt U lo hi = cnt U lo mid + cnt U mid hi.
Proof.
  intros H. induction U as [|u U IH].
  - reflexivity.
  - change (u :: U) with ([u] ++ U). rewrite !(cnt_app [u]), IH, !cnt_single.
    repeat case_decide; lia.
Qed.

Lemma cnt_empty U lo hi : hi <= lo -> cnt U lo hi = 0.
Proof.
  intros H. induction U as [|u U IH].
  - reflexivity.
  - change (u :: U) with ([u] ++ U). rewrite cnt_app, IH, cnt_single.
    case_decide; lia.
Qed.

(** Distinct integers of an interval are no more than its width. *)
Lemma cnt_le_width U lo hi : NoDup U -> lo <= hi -> cnt U lo hi <= hi - lo.
Proof.
  intros Hnd Hle. unfold cnt.
  assert (filter (fun u => lo <= u < hi) U ⊆+ seqZ lo (hi - lo)) as Hsub.
  { apply NoDup_submseteq.
    - apply list.NoDup_filter, Hnd.
    - intros x Hx. apply list_elem_of_filter in Hx as [Hx _].
      apply elem_of_seqZ. lia. }
  apply submseteq_length in Hsub. rewrite length_seqZ in Hsub. lia.
Qed.

Lemma cnt_point U s : NoDup U ->
  cnt U s (s + 1) = if decide (s ∈ U) then 1 else 0.
Proof.
  intros Hnd. induction Hnd as [|u U Hnotin Hnd IH].
  - rewrite cnt_nil. case_decide as H; [inversion H|reflexivity].
  - change (u :: U) with ([u] ++ U). rewrite cnt_app, IH, cnt_single.
    destruct (decide (s = u)) as [->|Hne].
    + rewrite decide_True by lia. rewrite (decide_False (P := u ∈ U)) by assumption.
      rewrite decide_True by (left). reflexivity.
    + rewrite decide_False by lia.
      destruct (decide (s ∈ U)) as [Hin|Hout].
      * rewrite decide_True by (right; assumption). reflexivity.
      * rewrite decide_False; [reflexivity|].
        intros Hin. apply elem_of_cons in Hin as [?|?]; [lia|contradiction].
Qed.

Lemma rank_unused_succ U s : 0 <= s ->
  rank_unused U (s + 1) = rank_unused U s + if decide (s ∈ U) then 0 else 1.
Proof.
  intros Hs. unfold rank_unused.
  rewrite seqZ_app by lia.
  change (seqZ (0 + s) 1) with [Z.of_nat 0 + (0 + s)].
  replace (Z.of_nat 0 + (0 + s)) with s by lia.
  rewrite list.filter_app, length_app, filter_cons, filter_nil. destruct (decide (s ∈ U)) as [Hin|Hout].
  - rewrite decide_False by (intros H; apply H; assumption). simpl. lia.
  - rewrite decide_True by assumption. simpl. lia.
Qed.

(** The rank among the unused values, from the count of the used ones. *)
Lemma rank_unused_cnt U s : NoDup U -> 0 <= s ->
  rank_unused U s = s - cnt U 0 s.
Proof.
  intros Hnd Hs. revert s Hs. apply natlike_ind.
  - rewrite cnt_empty by lia. reflexivity.
  - intros s Hs IH. replace (Z.succ s) with (s + 1) by lia.
    rewrite rank_unused_succ, IH by lia.
    rewrite (cnt_split U 0 s (s + 1)) by lia.
    rewrite cnt_point by assumption. repeat case_decide; try lia; contradiction.
Qed.

Lemma rank_unused_mono U a b : NoDup U -> 0 <= a <= b ->
  rank_unused U a <= rank_unused U b.
Proof.
  intros Hnd H. rewrite !rank_unused_cnt by (assumption || lia).
  rewrite (cnt_split U 0 a b) by lia.
  pose proof (cnt_le_width U a b Hnd). lia.
Qed.

(** Two unused values of the same rank are equal. *)
Lemma rank_unused_inj U a b : NoDup U -> 0 <= a -> 0 <= b ->
  a ∉ U -> b ∉ U -> rank_unused U a = rank_unused U b -> a = b.
Proof.
  intros Hnd Ha Hb Hau Hbu Heq.
  destruct (Z.lt_trichotomy a b) as [Hlt|[?|Hlt]]; [|assumption|].
  - pose proof (rank_unused_mono U (a + 1) b Hnd ltac:(lia)) as Hm.
    rewrite rank_unused_succ in Hm by lia.
    rewrite decide_False in Hm by assumption. lia.
  - pose proof (rank_unused_mono U (b + 1) a Hnd ltac:(lia)) as Hm.
    rewrite rank_unused_succ in Hm by lia.
    rewrite decide_False in Hm by assumption. lia.
Qed.

End counting.

(** ** The Fenwick tree of [ComputeLehmerCode] *)

Section fenwick.
Import LehmerSpec Lehmer.

Lemma pow2_fuel_S (f : nat) : 2 ^ Z.of_nat (S f) = 2 * 2 ^ Z.of_nat f.
Proof. rewrite Nat2Z.inj_succ, Z.pow_succ_r by lia. reflexivity. Qed.

(** The query loop returns the number of used values below [i]. *)
Lemma sum_loop_spec n U temp :
  fen_inv n U temp -> n < 2 ^ 32 ->
  forall (f : nat) i acc,
    0 <= i <= n -> 0 <= acc -> acc + cnt U 0 i < 2 ^ 32 ->
    (i = 0 \/ n < lowbit i * 2 ^ Z.of_nat f) ->
    while_fuel f sum_cond (sum_body temp) (i, acc) = Some (0, acc + cnt U 0 i).
Proof.
  intros [Hlen Hinv] Hn. induction f as [|f IH]; intros i acc Hi Hacc Hsum Hfuel.
  - destruct (Z.eq_dec i 0) as [->|Hne].
    + simpl. rewrite cnt_empty by lia. f_equal. f_equal. lia.
    + pose proof (lowbit_bounds i ltac:(lia)). simpl in Hfuel. lia.
  - destruct (Z.eq_dec i 0) as [->|Hne].
    + simpl. rewrite cnt_empty by lia. f_equal. f_equal. lia.
    + pose proof (lowbit_bounds i ltac:(lia)) as Hlb.
      assert (cnt U 0 i = cnt U 0 (i - lowbit i) + cnt U (i - lowbit i) i) as Hsplit
        by (apply cnt_split; lia).
      pose proof (cnt_nonneg U 0 (i - lowbit i)).
      pose proof (cnt_nonneg U (i - lowbit i) i).
      cbn [while_fuel]. unfold sum_cond at 1. cbn [fst].
      replace (i =? 0) with false by (symmetry; apply Z.eqb_neq; lia).
      cbn [negb]. unfold sum_body at 1.
      rewrite zget_Some, Hinv by lia.
      rewrite clear_lowbit_u32 by lia. rewrite u32_small by lia.
      rewrite IH; [f_equal; f_equal; lia|lia|lia|lia|].
      destruct (Z.eq_dec (i - lowbit i) 0); [left; assumption|right].
      pose proof (lowbit_sub_step i ltac:(lia) ltac:(lia)).
      destruct Hfuel as [?|Hfuel]; [lia|].
      rewrite pow2_fuel_S in Hfuel.
      assert (0 < 2 ^ Z.of_nat f) by (apply Z.pow_pos_nonneg; lia). nia.
Qed.

(** Walking up the chain from [p] changes exactly the positions that
    account for [p]. *)
Lemma chain_loop_spec (N off d : Z) (idx upd wrap vl : Z -> Z)
    (cond : Z * list Z -> bool) (val : Z -> Z) (p : Z) :
  0 <= off <= 1 ->
  (forall i t, cond (i, t) = true <-> i <= N) ->
  (forall i, 1 <= i <= N -> idx i = i - off) ->
  (forall j, 1 <= j <= N -> covers j p -> upd (val j) = val j + d) ->
  (forall i, 1 <= i <= N -> wrap (i + vl i) = i + lowbit i) ->
  1 <= p ->
  forall (f : nat) i temp,
    1 <= i ->
    N < lowbit i * 2 ^ Z.of_nat f ->
    (forall j, 0 < j -> covers j i -> covers j p) ->
    Z.of_nat (length temp) = N + 1 - off ->
    (forall j, 1 <= j <= N ->
       temp !! Z.to_nat (j - off) =
       Some (val j + if decide (covers j p /\ ~ covers j i) then d else 0)) ->
    exists i' temp',
      while_fuel f cond (chain_body idx upd wrap vl) (i, temp) = Some (i', temp')
      /\ Z.of_nat (length temp') = N + 1 - off
      /\ forall j, 1 <= j <= N ->
           temp' !! Z.to_nat (j - off) =
           Some (val j + if decide (covers j p) then d else 0).
Proof.
  intros Hoff Hcond Hidx Hupd Hwrap Hp.
  induction f as [|f IH]; intros i temp Hi Hfuel Hsub Hlen Hinv.
  - assert (N < i) as Hgt.
    { pose proof (lowbit_bounds i ltac:(lia)). simpl in Hfuel. lia. }
    exists i, temp. simpl.
    destruct (cond (i, temp)) eqn:Hc; [apply Hcond in Hc; lia|].
    split; [reflexivity|]. split; [assumption|].
    intros j Hj. rewrite Hinv by lia. f_equal. f_equal.
    assert (~ covers j i) by (unfold covers; lia).
    repeat case_decide; tauto || lia.
  - destruct (Z_le_dec i N) as [Hle|Hgt].
    + pose proof (lowbit_bounds i ltac:(lia)) as Hlb.
      assert (covers i i) as Hii by (unfold covers; lia).
      cbn [while_fuel].
      destruct (cond (i, temp)) eqn:Hc.
      2:{ assert (cond (i, temp) = true) by (apply Hcond; lia). congruence. }
      pose proof (Hinv i ltac:(lia)) as Hval.
      rewrite decide_False in Hval by tauto. rewrite Z.add_0_r in Hval.
      pose proof (lookup_lt_Some _ _ _ Hval) as Hlt.
      unfold chain_body at 1. rewrite Hidx by lia.
      rewrite zget_Some by lia. rewrite Hval.
      rewrite zset_Some by lia.
      rewrite Hupd by (lia || (apply Hsub; [lia|assumption])).
      rewrite Hwrap by lia.
      apply IH.
      * lia.
      * pose proof (lowbit_add_step i ltac:(lia)).
        rewrite pow2_fuel_S in Hfuel.
        assert (0 < 2 ^ Z.of_nat f) by (apply Z.pow_pos_nonneg; lia). nia.
      * intros j Hj Hc'. apply Hsub; [assumption|].
        apply covers_chain; [lia|lia|]. right. assumption.
      * rewrite length_insert. assumption.
      * intros j Hj.
        destruct (Z.eq_dec j i) as [->|Hne].
        -- rewrite list_lookup_insert_eq by assumption.
           rewrite decide_True; [reflexivity|].
           split; [apply Hsub; [lia|assumption]|unfold covers; lia].
        -- rewrite list_lookup_insert_ne by lia.
           rewrite Hinv by lia. f_equal. f_equal.
           pose proof (covers_chain i ltac:(lia) j ltac:(lia)) as Hch.
           repeat case_decide; tauto || lia.
    + exists i, temp. cbn [while_fuel].
      destruct (cond (i, temp)) eqn:Hc; [apply Hcond in Hc; lia|].
      split; [reflexivity|]. split; [assumption|].
      intros j Hj. rewrite Hinv by lia. f_equal. f_equal.
      assert (~ covers j i) by (unfold covers; lia).
      repeat case_decide; tauto || lia.
Qed.

End fenwick.

(** ** [ComputeLehmerCode] computes the ranks among the unused values *)

Section compute.
Import LehmerSpec Lehmer.

Lemma for_range_fill {A} (f : Z -> A) :
  forall (k : nat) a (l : list A),
    0 <= a -> a + Z.of_nat k <= Z.of_nat (length l) ->
    exists l',
      for_range k a (fun i t => zset t i (f i)) l = Some l'
      /\ length l' = length l
      /\ forall i : nat,
           l' !! i = if decide (a <= Z.of_nat i < a + Z.of_nat k)
                     then Some (f (Z.of_nat i)) else l !! i.
Proof.
  induction k as [|k IH]; intros a l Ha Hk.
  - exists l. split; [reflexivity|]. split; [reflexivity|].
    intros i. rewrite decide_False by lia. reflexivity.
  - cbn [for_range]. rewrite zset_Some by lia.
    destruct (IH (a + 1) (<[Z.to_nat a := f a]> l)) as (l' & Hrun & Hlen & Hget).
    + lia.
    + rewrite length_insert. lia.
    + exists l'. split; [assumption|]. rewrite length_insert in Hlen.
      split; [assumption|]. intros i. rewrite Hget.
      destruct (decide (Z.of_nat i = a)) as [<-|Hne].
      * rewrite decide_False by lia. rewrite decide_True by lia.
        rewrite Nat2Z.id. apply list_lookup_insert_eq. lia.
      * rewrite list_lookup_insert_ne by lia.
        repeat case_decide; reflexivity || lia.
Qed.

Lemma zero_temp_spec n temp :
  0 <= n -> Z.of_nat (length temp) = n + 1 ->
  exists temp0, zero_temp n temp = Some temp0 /\ fen_inv n [] temp0.
Proof.
  intros Hn Hlen. unfold zero_temp.
  destruct (for_range_fill (fun _ => 0) (Z.to_nat (n + 1)) 0 temp)
    as (l' & Hrun & Hl & Hget); [lia|lia|].
  exists l'. split; [assumption|]. split; [lia|].
  intros i Hi. rewrite Hget. rewrite decide_True by lia. reflexivity.
Qed.

Lemma cnt_range_bound U lo hi : NoDup U -> lo <= hi -> 0 <= cnt U lo hi <= hi - lo.
Proof.
  intros Hnd H. split; [apply cnt_nonneg|apply cnt_le_width; assumption].
Qed.

Lemma add_body_chain : add_body = chain_body (fun i => i) (fun t => u32 (t + 1)) u32
                                    (ValueOfLowest1Bit u32).
Proof. reflexivity. Qed.

Lemma compute_step_spec n U temp code s :
  fen_inv n U temp -> NoDup U -> n < 2 ^ 31 ->
  0 <= s < n -> s ∉ U ->
  exists temp',
    compute_step n s (temp, code) = Some (temp', code ++ [rank_unused U s])
    /\ fen_inv n (U ++ [s]) temp'.
Proof.
  intros Hinv Hnd Hn Hs Hnotin. unfold compute_step.
  rewrite (u32_small (s + 1)) by lia.
  pose proof (cnt_range_bound U 0 (s + 1) Hnd ltac:(lia)) as Hb.
  rewrite (sum_loop_spec n U temp Hinv ltac:(lia) bit_fuel (s + 1) 0); [|lia|lia|lia|].
  2:{ right. pose proof (lowbit_bounds (s + 1) ltac:(lia)).
      change (2 ^ Z.of_nat bit_fuel) with (2 ^ 70). lia. }
  assert (cnt U 0 (s + 1) = cnt U 0 s) as Hpen.
  { rewrite (cnt_split U 0 s (s + 1)) by lia. rewrite cnt_point by assumption.
    rewrite decide_False by assumption. lia. }
  rewrite Z.add_0_l, Hpen.
  pose proof (cnt_range_bound U 0 s Hnd ltac:(lia)) as Hb'.
  rewrite decide_True by lia.
  destruct Hinv as [Hlen Hval].
  destruct (chain_loop_spec n 0 1 (fun i => i) (fun t => u32 (t + 1)) u32
              (ValueOfLowest1Bit u32) (add_cond n)
              (fun j => cnt U (j - lowbit j) j) (s + 1)) with
    (f := bit_fuel) (i := s + 1) (temp := temp) as (i' & temp' & Hrun & Hlen' & Hval').
  - lia.
  - intros i t. unfold add_cond. cbn [fst]. rewrite Z.ltb_lt. lia.
  - intros i Hi. lia.
  - intros j Hj _. pose proof (lowbit_bounds j ltac:(lia)).
    pose proof (cnt_range_bound U (j - lowbit j) j Hnd ltac:(lia)).
    apply u32_small. lia.
  - intros i Hi. rewrite vl1b_u32 by lia.
    pose proof (lowbit_bounds i ltac:(lia)). apply u32_small. lia.
  - lia.
  - lia.
  - pose proof (lowbit_bounds (s + 1) ltac:(lia)).
    change (2 ^ Z.of_nat bit_fuel) with (2 ^ 70). lia.
  - tauto.
  - lia.
  - intros j Hj. rewrite Z.sub_0_r, Hval by lia.
    rewrite decide_False by tauto. f_equal. lia.
  - rewrite add_body_chain, Hrun.
    exists temp'. split.
    + rewrite u32_small by lia. rewrite rank_unused_cnt by (assumption || lia).
      reflexivity.
    + split; [lia|]. intros j Hj. specialize (Hval' j Hj).
      rewrite Z.sub_0_r in Hval'. rewrite Hval'. f_equal.
      rewrite cnt_snoc. unfold covers.
      repeat case_decide; lia.
Qed.

Lemma compute_loop_spec n : n < 2 ^ 31 ->
  forall rest U temp code,
    fen_inv n U temp -> NoDup (U ++ rest) ->
    (forall v, v ∈ rest -> 0 <= v < n) ->
    exists temp',
      compute_loop n rest (temp, code) = Some (temp', code ++ codes_of U rest)
      /\ fen_inv n (U ++ rest) temp'.
Proof.
  intros Hn. induction rest as [|s rest IH]; intros U temp code Hinv Hnd Hrng.
  - exists temp. simpl. rewrite !app_nil_r. split; [reflexivity|assumption].
  - pose proof (proj1 (list.NoDup_app _ _) Hnd) as (HndU & Hdisj & _).
    destruct (compute_step_spec n U temp code s) as (temp1 & Hstep & Hinv1);
      try assumption.
    + apply Hrng. left.
    + intros Hin. apply (Hdisj s Hin). left.
    + cbn [compute_loop codes_of]. rewrite Hstep.
      destruct (IH (U ++ [s]) temp1 (code ++ [rank_unused U s])) as (temp' & Hrun & Hinv').
      * assumption.
      * rewrite <- app_assoc. exact Hnd.
      * intros v Hv. apply Hrng. right. assumption.
      * exists temp'. rewrite Hrun. rewrite <- !app_assoc in *.
        split; [reflexivity|assumption].
Qed.

Lemma ComputeLehmerCode_spec p temp :
  is_permutation p -> Z.of_nat (length p) < 2 ^ 31 ->
  Z.of_nat (length temp) = Z.of_nat (length p) + 1 ->
  ComputeLehmerCode p temp = Some (codes_of [] p).
Proof.
  intros [Hnd Hrng] Hn Hlen. unfold ComputeLehmerCode.
  destruct (zero_temp_spec (Z.of_nat (length p)) temp) as (temp0 & -> & Hinv);
    [lia|assumption|].
  destruct (compute_loop_spec _ Hn p [] temp0 [] Hinv) as (temp' & -> & _);
    [assumption|assumption|reflexivity].
Qed.

End compute.

(** ** The order-statistics tree of [DecodeLehmerCode] *)

Section decode.
Import LehmerSpec Lehmer.

Lemma free_split U lo mid hi :
  lo <= mid <= hi -> free U lo hi = free U lo mid + free U mid hi.
Proof. intros H. unfold free. rewrite (cnt_split U lo mid hi) by lia. lia. Qed.

Lemma free_nonneg U lo hi : NoDup U -> lo <= hi -> 0 <= free U lo hi.
Proof. intros Hnd H. unfold free. pose proof (cnt_le_width U lo hi Hnd H). lia. Qed.

Lemma free_point U v : NoDup U ->
  free U v (v + 1) = if decide (v ∈ U) then 0 else 1.
Proof.
  intros Hnd. unfold free. rewrite cnt_point by assumption. case_decide; lia.
Qed.

Lemma free_rank U v : NoDup U -> 0 <= v -> free U 0 v = rank_unused U v.
Proof. intros Hnd Hv. rewrite rank_unused_cnt by assumption. unfold free. lia. Qed.

Lemma cnt_all U lo hi :
  (forall u, u ∈ U -> lo <= u < hi) -> cnt U lo hi = Z.of_nat (length U).
Proof.
  induction U as [|u U IH]; intros H.
  - reflexivity.
  - change (u :: U) with ([u] ++ U). rewrite cnt_app, cnt_single, IH.
    + rewrite decide_True by (apply H; left). rewrite length_app. simpl. lia.
    + intros v Hv. apply H. right. assumption.
Qed.

Lemma lowbit_pow2_odd (m : nat) q :
  0 <= q -> lowbit ((2 * q + 1) * 2 ^ Z.of_nat m) = 2 ^ Z.of_nat m.
Proof.
  intros Hq. induction m as [|m IH].
  - simpl. rewrite Z.mul_1_r. apply lowbit_odd. assumption.
  - rewrite pow2_fuel_S.
    assert (0 < 2 ^ Z.of_nat m) by (apply Z.pow_pos_nonneg; lia).
    replace ((2 * q + 1) * (2 * 2 ^ Z.of_nat m))
      with (2 * ((2 * q + 1) * 2 ^ Z.of_nat m)) by lia.
    rewrite lowbit_even by nia. rewrite IH. reflexivity.
Qed.

Lemma lowbit_pow2 (m : nat) : lowbit (2 ^ Z.of_nat m) = 2 ^ Z.of_nat m.
Proof.
  pose proof (lowbit_pow2_odd m 0 ltac:(lia)) as H.
  replace ((2 * 0 + 1) * 2 ^ Z.of_nat m) with (2 ^ Z.of_nat m) in H by lia.
  exact H.
Qed.

Lemma shiftr_pow2_S (m : nat) : Z.shiftr (2 ^ Z.of_nat (S m)) 1 = 2 ^ Z.of_nat m.
Proof.
  rewrite Z.shiftr_div_pow2 by lia. rewrite pow2_fuel_S.
  change (2 ^ 1) with 2. rewrite Z.mul_comm. apply Z.div_mul. lia.
Qed.

Lemma init_tree_spec padded_n temp :
  1 <= padded_n < 2 ^ 31 -> Z.of_nat (length temp) = padded_n ->
  exists temp0, init_tree padded_n temp = Some temp0 /\ dec_inv padded_n [] temp0.
Proof.
  intros Hn Hlen. unfold init_tree.
  destruct (for_range_fill (fun i => u32 (ValueOfLowest1Bit s32 (s32 (i + 1))))
              (Z.to_nat padded_n) 0 temp) as (l' & Hrun & Hl & Hget); [lia|lia|].
  exists l'. split; [assumption|]. split; [lia|].
  intros i Hi. rewrite Hget. rewrite decide_True by lia.
  rewrite Z2Nat.id by lia. replace (i - 1 + 1) with i by lia.
  rewrite vl1b_s32 by lia. rewrite cnt_nil. f_equal. lia.
Qed.

(** The descent finds the value of the given rank among the unused ones. *)
Lemma descend_spec padded_n U temp rank0 :
  dec_inv padded_n U temp -> NoDup U -> padded_n < 2 ^ 31 -> rank0 < 2 ^ 32 ->
  forall (m : nat) next rank idx q,
    0 <= q -> next = q * 2 ^ Z.of_nat m ->
    next + 2 ^ Z.of_nat m <= padded_n ->
    rank = rank0 - free U 0 next ->
    free U 0 next < rank0 <= free U 0 (next + 2 ^ Z.of_nat m) ->
    exists bit' next' rank',
      for_range m idx (descend_body temp)
        (Z.shiftr (2 ^ Z.of_nat m) 1, next, rank) = Some (bit', next', rank')
      /\ next <= next' /\ next' + 1 <= next + 2 ^ Z.of_nat m
      /\ free U 0 next' < rank0 <= free U 0 (next' + 1).
Proof.
  intros [Hlen Hval] Hnd Hpn Hr0.
  induction m as [|m IH]; intros next rank idx q Hq Hnext Hfit Hrank Hbr.
  - exists (Z.shiftr (2 ^ Z.of_nat 0) 1), next, rank.
    split; [reflexivity|]. change (2 ^ Z.of_nat 0) with 1 in *. lia.
  - assert (0 < 2 ^ Z.of_nat m) as Hpos by (apply Z.pow_pos_nonneg; lia).
    rewrite pow2_fuel_S in Hnext, Hfit, Hbr.
    cbn [for_range]. rewrite shiftr_pow2_S. unfold descend_body at 1.
    set (cand := next + 2 ^ Z.of_nat m).
    assert (0 <= next) as Hn0 by nia.
    rewrite (u64_small cand) by (unfold cand; lia).
    rewrite decide_True by (unfold cand; lia).
    rewrite zget_Some by (unfold cand; lia).
    assert (lowbit cand = 2 ^ Z.of_nat m) as Hlb.
    { unfold cand. rewrite Hnext.
      replace (q * (2 * 2 ^ Z.of_nat m) + 2 ^ Z.of_nat m)
        with ((2 * q + 1) * 2 ^ Z.of_nat m) by lia.
      apply lowbit_pow2_odd. assumption. }
    rewrite Hval by (unfold cand; lia). rewrite Hlb.
    replace (cand - 2 ^ Z.of_nat m) with next by (unfold cand; lia).
    change (2 ^ Z.of_nat m - cnt U next cand) with
      (2 ^ Z.of_nat m - cnt U next (next + 2 ^ Z.of_nat m)).
    assert (2 ^ Z.of_nat m - cnt U next (next + 2 ^ Z.of_nat m) = free U next cand)
      as -> by (unfold free, cand; f_equal; lia).
    pose proof (free_split U 0 next cand ltac:(unfold cand; lia)) as Hs1.
    pose proof (free_nonneg U 0 next Hnd Hn0) as Hf0.
    pose proof (free_nonneg U next cand Hnd ltac:(unfold cand; lia)) as Hf1.
    destruct (decide (free U next cand < rank)) as [Hlt|Hge].
    + rewrite u32_small by lia.
      destruct (IH cand (rank - free U next cand) (idx + 1) (2 * q + 1))
        as (b' & n' & r' & Hrun & Hle1 & Hle2 & Hres).
      * lia.
      * unfold cand. lia.
      * unfold cand. lia.
      * lia.
      * replace (cand + 2 ^ Z.of_nat m) with (next + 2 * 2 ^ Z.of_nat m)
          by (unfold cand; lia). lia.
      * exists b', n', r'. split; [exact Hrun|].
        rewrite pow2_fuel_S. unfold cand in *. lia.
    + destruct (IH next rank (idx + 1) (2 * q))
        as (b' & n' & r' & Hrun & Hle1 & Hle2 & Hres).
      * lia.
      * lia.
      * lia.
      * lia.
      * fold cand. lia.
      * exists b', n', r'. split; [exact Hrun|]. rewrite pow2_fuel_S. lia.
Qed.

Lemma mark_body_chain :
  mark_body = chain_body (fun next => u64 (next - 1)) (fun t => u32 (t - 1)) u64
                (ValueOfLowest1Bit u64).
Proof. reflexivity. Qed.

Lemma decode_step_spec n (L : nat) padded_n U temp perm c :
  padded_n = 2 ^ Z.of_nat L -> n <= padded_n -> padded_n < 2 ^ 31 ->
  dec_inv padded_n U temp -> NoDup U -> (forall u, u ∈ U -> 0 <= u < n) ->
  0 <= c -> c + Z.of_nat (length U) < n ->
  exists v temp',
    decode_step n (Z.of_nat L) padded_n (Z.of_nat (length U)) c (temp, perm)
      = Some (temp', perm ++ [v])
    /\ 0 <= v < n /\ (v ∉ U) /\ rank_unused U v = c
    /\ dec_inv padded_n (U ++ [v]) temp'.
Proof.
  intros Hpad Hnp Hp31 Hinv Hnd Hrng Hc Hci.
  assert (0 < padded_n) as Hppos by (subst padded_n; apply Z.pow_pos_nonneg; lia).
  pose proof (cnt_all U 0 n Hrng) as Hall.
  assert (cnt U 0 padded_n = Z.of_nat (length U)) as Hallp.
  { apply cnt_all. intros u Hu. specialize (Hrng u Hu). lia. }
  unfold decode_step. rewrite decide_True by lia.
  rewrite (u32_small (c + 1)) by lia.
  replace (Z.to_nat (Z.of_nat L + 1)) with (S L) by lia.
  (* first iteration: the root of the tree *)
  cbn [for_range]. unfold descend_body at 1.
  rewrite Z.add_0_l. rewrite (u64_small padded_n) by lia.
  rewrite decide_True by lia. rewrite zget_Some by lia.
  destruct Hinv as [Hlen Hval].
  rewrite Hval by lia.
  assert (lowbit padded_n = padded_n) as Hlbp by (subst padded_n; apply lowbit_pow2).
  rewrite Hlbp. replace (padded_n - padded_n) with 0 by lia.
  rewrite Hallp. rewrite decide_False by lia.
  (* the remaining iterations *)
  assert (Z.shiftr padded_n 1 = Z.shiftr (2 ^ Z.of_nat L) 1) as -> by (subst; reflexivity).
  destruct (descend_spec padded_n U temp (c + 1) (conj Hlen Hval) Hnd Hp31 ltac:(lia)
              L 0 (c + 1) (0 + 1) 0) as (b' & v & r' & Hrun & Hv0 & Hv1 & Hres).
  - lia.
  - lia.
  - lia.
  - unfold free. rewrite cnt_empty by lia. lia.
  - unfold free at 1. rewrite cnt_empty by lia. unfold free.
    rewrite Z.add_0_l, <- Hpad, Hallp. lia.
  - rewrite Hrun. rewrite Z.add_0_l, <- Hpad in Hv1.
    (* the value found *)
    rewrite (free_split U 0 v (v + 1)) in Hres by lia.
    rewrite free_point in Hres by assumption.
    destruct (decide (v ∈ U)) as [Hin|Hnotin]; [lia|].
    assert (free U 0 v = c) as Hfv by lia.
    assert (v < n) as Hvn.
    { destruct (Z_lt_dec v n); [assumption|exfalso].
      rewrite (free_split U 0 n v) in Hfv by lia.
      pose proof (free_nonneg U n v Hnd ltac:(lia)).
      unfold free at 1 in Hfv. lia. }
    (* marking it used *)
    rewrite (u64_small (v + 1)) by lia.
    destruct (chain_loop_spec padded_n 1 (-1)
                (fun next => u64 (next - 1)) (fun t => u32 (t - 1)) u64
                (ValueOfLowest1Bit u64) (mark_cond padded_n)
                (fun j => lowbit j - cnt U (j - lowbit j) j) (v + 1)) with
      (f := bit_fuel) (i := v + 1) (temp := temp)
      as (i' & temp' & Hmark & Hlen' & Hval').
    + lia.
    + intros i t. unfold mark_cond. cbn [fst]. rewrite Z.leb_le. lia.
    + intros i Hi. apply u64_small. lia.
    + intros j Hj Hcov. unfold covers in Hcov.
      pose proof (lowbit_bounds j ltac:(lia)).
      assert (1 <= free U (j - lowbit j) j) as Hfree.
      { rewrite (free_split U (j - lowbit j) v j) by lia.
        rewrite (free_split U v (v + 1) j) by lia.
        rewrite free_point by assumption. rewrite decide_False by assumption.
        pose proof (free_nonneg U (j - lowbit j) v Hnd ltac:(lia)).
        pose proof (free_nonneg U (v + 1) j Hnd ltac:(lia)). lia. }
      pose proof (cnt_nonneg U (j - lowbit j) j).
      unfold free in Hfree. rewrite u32_small by lia. lia.
    + intros i Hi. rewrite vl1b_u64 by lia.
      pose proof (lowbit_bounds i ltac:(lia)). apply u64_small. lia.
    + lia.
    + lia.
    + pose proof (lowbit_bounds (v + 1) ltac:(lia)).
      change (2 ^ Z.of_nat bit_fuel) with (2 ^ 70). lia.
    + tauto.
    + lia.
    + intros j Hj. rewrite Hval by lia. rewrite decide_False by tauto.
      f_equal. lia.
    + rewrite mark_body_chain, Hmark. exists v, temp'.
      split; [reflexivity|]. split; [lia|]. split; [assumption|].
      split; [rewrite <- free_rank by (assumption || lia); assumption|].
      split; [lia|]. intros j Hj. rewrite Hval' by lia. f_equal.
      rewrite cnt_snoc. unfold covers. repeat case_decide; lia.
Qed.

End decode.

(** ** The two functions are inverse to each other *)

Section inverse.
Import LehmerSpec Lehmer.

Lemma NoDup_snoc_fresh (U : list Z) v : NoDup U -> v ∉ U -> NoDup (U ++ [v]).
Proof.
  intros Hnd Hv. apply list.NoDup_app. split; [assumption|]. split.
  - intros x Hx Hx'. apply list_elem_of_singleton in Hx'. subst. contradiction.
  - apply NoDup_singleton.
Qed.

Lemma in_snoc_range (U : list Z) v n :
  (forall u, u ∈ U -> 0 <= u < n) -> 0 <= v < n ->
  forall u, u ∈ U ++ [v] -> 0 <= u < n.
Proof.
  intros HU Hv u Hu. apply elem_of_app in Hu as [Hu|Hu].
  - apply HU. assumption.
  - apply list_elem_of_singleton in Hu. subst. assumption.
Qed.

(** Decoding a valid code yields distinct values in range whose code is the
    one given. *)
Lemma decode_loop_spec n (L : nat) padded_n :
  padded_n = 2 ^ Z.of_nat L -> n <= padded_n -> padded_n < 2 ^ 31 ->
  forall code U temp perm,
    dec_inv padded_n U temp -> NoDup U -> (forall u, u ∈ U -> 0 <= u < n) ->
    (forall (k : nat) c, code !! k = Some c ->
       0 <= c /\ c + Z.of_nat (length U) + Z.of_nat k < n) ->
    exists vs temp',
      decode_loop n (Z.of_nat L) padded_n (Z.of_nat (length U)) code (temp, perm)
        = Some (temp', perm ++ vs)
      /\ NoDup (U ++ vs) /\ (forall v, v ∈ vs -> 0 <= v < n)
      /\ codes_of U vs = code.
Proof.
  intros Hpad Hnp Hp31.
  induction code as [|c code IH]; intros U temp perm Hinv Hnd Hrng Hcode.
  - exists [], temp. simpl. rewrite !app_nil_r.
    split; [reflexivity|]. split; [assumption|]. split; [|reflexivity].
    intros v Hv. inversion Hv.
  - destruct (Hcode 0%nat c eq_refl) as [Hc0 Hc1].
    destruct (decode_step_spec n L padded_n U temp perm c Hpad Hnp Hp31 Hinv Hnd Hrng)
      as (v & temp1 & Hstep & Hv & Hfresh & Hrank & Hinv1); [lia|lia|].
    cbn [decode_loop]. rewrite Hstep.
    destruct (IH (U ++ [v]) temp1 (perm ++ [v])) as (vs & temp' & Hrun & Hnd' & Hrng' & Hcodes).
    + assumption.
    + apply NoDup_snoc_fresh; assumption.
    + apply in_snoc_range; assumption.
    + intros k c' Hk. specialize (Hcode (S k) c' Hk).
      rewrite length_app. simpl. lia.
    + exists (v :: vs), temp'.
      replace (Z.of_nat (length U) + 1) with (Z.of_nat (length (U ++ [v])))
        by (rewrite length_app; simpl; lia).
      rewrite Hrun. rewrite <- !app_assoc in *. simpl in *.
      split; [reflexivity|]. split; [assumption|]. split.
      * intros x Hx. apply elem_of_cons in Hx as [->|Hx]; [assumption|].
        apply Hrng'. assumption.
      * rewrite Hrank, Hcodes. reflexivity.
Qed.

(** Decoding the code of distinct values in range yields these values. *)
Lemma decode_loop_codes_of n (L : nat) padded_n :
  padded_n = 2 ^ Z.of_nat L -> n <= padded_n -> padded_n < 2 ^ 31 ->
  forall rest U temp perm,
    dec_inv padded_n U temp -> NoDup (U ++ rest) ->
    (forall u, u ∈ U ++ rest -> 0 <= u < n) ->
    exists temp',
      decode_loop n (Z.of_nat L) padded_n (Z.of_nat (length U)) (codes_of U rest)
        (temp, perm) = Some (temp', perm ++ rest).
Proof.
  intros Hpad Hnp Hp31.
  induction rest as [|s rest IH]; intros U temp perm Hinv Hnd Hrng.
  - exists temp. simpl. rewrite app_nil_r. reflexivity.
  - pose proof (proj1 (list.NoDup_app _ _) Hnd) as (HndU & Hdisj & _).
    assert (forall u, u ∈ U -> 0 <= u < n) as HrngU.
    { intros u Hu. apply Hrng, elem_of_app. left. assumption. }
    assert (0 <= s < n) as Hs.
    { apply Hrng, elem_of_app. right. left. }
    assert (s ∉ U) as HsU.
    { intros Hin. apply (Hdisj s Hin). left. }
    assert (rank_unused U s + Z.of_nat (length U) < n) as Hdassert.
    { rewrite rank_unused_cnt by (assumption || lia).
      rewrite <- (cnt_all U 0 n HrngU).
      rewrite (cnt_split U 0 s n) by lia. rewrite (cnt_split U s (s + 1) n) by lia.
      rewrite cnt_point by assumption. rewrite decide_False by assumption.
      pose proof (cnt_le_width U (s + 1) n HndU ltac:(lia)). lia. }
    assert (0 <= rank_unused U s) as Hr0 by (unfold rank_unused; lia).
    destruct (decode_step_spec n L padded_n U temp perm (rank_unused U s)
                Hpad Hnp Hp31 Hinv HndU HrngU Hr0 Hdassert)
      as (v & temp1 & Hstep & Hv & Hfresh & Hrank & Hinv1).
    assert (v = s) as ->.
    { apply (rank_unused_inj U); try assumption; lia. }
    cbn [codes_of decode_loop]. rewrite Hstep.
    destruct (IH (U ++ [s]) temp1 (perm ++ [s])) as (temp' & Hrun).
    + assumption.
    + rewrite <- app_assoc. exact Hnd.
    + intros u Hu. apply Hrng. rewrite <- app_assoc in Hu. exact Hu.
    + exists temp'.
      replace (Z.of_nat (length U) + 1) with (Z.of_nat (length (U ++ [s])))
        by (rewrite length_app; simpl; lia).
      rewrite Hrun, <- app_assoc. reflexivity.
Qed.

Lemma codes_of_length U rest : length (codes_of U rest) = length rest.
Proof.
  revert U. induction rest as [|s rest IH]; intros U; simpl; [|rewrite IH]; reflexivity.
Qed.

Lemma padded_size n :
  0 < n <= 2 ^ 30 ->
  exists L : nat,
    CeilLog2Nonzero n = Z.of_nat L
    /\ Z.shiftl 1 (CeilLog2Nonzero n) = 2 ^ Z.of_nat L
    /\ n <= 2 ^ Z.of_nat L /\ 2 ^ Z.of_nat L < 2 ^ 31.
Proof.
  intros Hn. unfold CeilLog2Nonzero.
  pose proof (Z.log2_up_nonneg n) as H0.
  exists (Z.to_nat (Z.log2_up n)). rewrite Z2Nat.id by assumption.
  split; [reflexivity|]. rewrite Z.shiftl_1_l. split; [reflexivity|].
  assert (Z.log2_up n <= 30) as H30.
  { change 30 with (Z.log2_up (2 ^ 30)). apply Z.log2_up_le_mono. lia. }
  split.
  - destruct (Z.eq_dec n 1) as [->|Hne]; [simpl; lia|].
    apply Z.log2_up_spec. lia.
  - apply Z.pow_lt_mono_r; lia.
Qed.

Lemma DecodeLehmerCode_codes_of p temp :
  is_permutation p -> 0 < Z.of_nat (length p) <= 2 ^ 30 ->
  Z.of_nat (length temp) = 2 ^ CeilLog2Nonzero (Z.of_nat (length p)) ->
  DecodeLehmerCode (codes_of [] p) temp = Some p.
Proof.
  intros [Hnd Hrng] Hn Hlen. unfold DecodeLehmerCode.
  rewrite codes_of_length. rewrite decide_True by lia.
  destruct (padded_size _ Hn) as (L & HL & Hshift & Hle & Hlt).
  rewrite Hshift, HL. rewrite HL in Hlen.
  assert (0 < 2 ^ Z.of_nat L) by (apply Z.pow_pos_nonneg; lia).
  destruct (init_tree_spec (2 ^ Z.of_nat L) temp) as (temp0 & -> & Hinv); [lia|lia|].
  destruct (decode_loop_codes_of (Z.of_nat (length p)) L _ eq_refl Hle Hlt
              p [] temp0 [] Hinv) as (temp' & Hrun); [assumption|assumption|].
  change (Z.of_nat (length (A:=Z) [])) with 0 in Hrun. rewrite Hrun. reflexivity.
Qed.

Lemma DecodeLehmerCode_spec c temp :
  is_lehmer_code c -> 0 < Z.of_nat (length c) <= 2 ^ 30 ->
  Z.of_nat (length temp) = 2 ^ CeilLog2Nonzero (Z.of_nat (length c)) ->
  exists p, DecodeLehmerCode c temp = Some p
            /\ is_permutation p /\ codes_of [] p = c.
Proof.
  intros Hcode Hn Hlen. unfold DecodeLehmerCode.
  rewrite decide_True by lia.
  destruct (padded_size _ Hn) as (L & HL & Hshift & Hle & Hlt).
  rewrite Hshift, HL. rewrite HL in Hlen.
  assert (0 < 2 ^ Z.of_nat L) by (apply Z.pow_pos_nonneg; lia).
  destruct (init_tree_spec (2 ^ Z.of_nat L) temp) as (temp0 & -> & Hinv); [lia|lia|].
  destruct (decode_loop_spec (Z.of_nat (length c)) L _ eq_refl Hle Hlt
              c [] temp0 [] Hinv) as (vs & temp' & Hrun & Hnd & Hrng & Hcodes).
  - apply NoDup_nil_2.
  - intros u Hu. inversion Hu.
  - intros k v Hk. specialize (Hcode k v Hk). simpl. lia.
  - change (Z.of_nat (length (A:=Z) [])) with 0 in Hrun. rewrite Hrun.
    exists vs. split; [reflexivity|]. split; [|assumption].
    split; [assumption|]. intros v Hv.
    rewrite <- Hcodes, codes_of_length in Hrng. apply Hrng. assumption.
Qed.

End inverse.

Section lehmer_claims.
Import LehmerSpec Lehmer.

Lemma codes_of_lookup rest :
  forall U (i : nat) s,
    rest !! i = Some s ->
    codes_of U rest !! i = Some (rank_unused (U ++ take i rest) s).
Proof.
  induction rest as [|r rest IH]; intros U i s Hi.
  - rewrite lookup_nil in Hi. discriminate.
  - destruct i as [|i].
    + simpl in Hi. injection Hi as ->. simpl. rewrite app_nil_r. reflexivity.
    + simpl in Hi. cbn [codes_of]. simpl. rewrite (IH (U ++ [r]) i s Hi).
      rewrite <- app_assoc. reflexivity.
Qed.

Lemma codes_of_valid n rest :
  forall U,
    NoDup (U ++ rest) -> (forall u, u ∈ U ++ rest -> 0 <= u < n) ->
    forall (k : nat) c,
      codes_of U rest !! k = Some c ->
      0 <= c /\ c + Z.of_nat (length U) + Z.of_nat k < n.
Proof.
  induction rest as [|s rest IH]; intros U Hnd Hrng k c Hk.
  - simpl in Hk. rewrite lookup_nil in Hk. discriminate.
  - pose proof (proj1 (list.NoDup_app _ _) Hnd) as (HndU & Hdisj & _).
    assert (forall u, u ∈ U -> 0 <= u < n) as HrngU.
    { intros u Hu. apply Hrng, elem_of_app. left. assumption. }
    assert (0 <= s < n) as Hs.
    { apply Hrng, elem_of_app. right. left. }
    assert (s ∉ U) as HsU.
    { intros Hin. apply (Hdisj s Hin). left. }
    destruct k as [|k].
    + simpl in Hk. injection Hk as <-.
      split; [unfold rank_unused; lia|].
      rewrite rank_unused_cnt by (assumption || lia).
      rewrite <- (cnt_all U 0 n HrngU).
      rewrite (cnt_split U 0 s n) by lia. rewrite (cnt_split U s (s + 1) n) by lia.
      rewrite cnt_point by assumption. rewrite decide_False by assumption.
      pose proof (cnt_le_width U (s + 1) n HndU ltac:(lia)). lia.
    + simpl in Hk. apply (IH (U ++ [s])) in Hk.
      * rewrite length_app in Hk. simpl in Hk. lia.
      * rewrite <- app_assoc. exact Hnd.
      * intros u Hu. apply Hrng. rewrite <- app_assoc in Hu. exact Hu.
Qed.

Lemma codes_of_is_lehmer_code p : is_permutation p -> is_lehmer_code (codes_of [] p).
Proof.
  intros [Hnd Hrng] i v Hi. rewrite codes_of_length.
  pose proof (codes_of_valid (Z.of_nat (length p)) p [] Hnd Hrng i v Hi) as H.
  simpl in H. lia.
Qed.

Example CeilLog2Nonzero_test :
  map CeilLog2Nonzero [1; 2; 3; 4; 5; 6; 7] = [0; 1; 2; 2; 3; 3; 3]
  /\ CeilLog2Nonzero 0x80000000 = 31
  /\ CeilLog2Nonzero 0x80000001 = 32
  /\ CeilLog2Nonzero 0xFFFFFFFF = 32.
Proof. repeat split; reflexivity. Qed.

Example example_is_permutation : is_permutation [3; 1; 4; 0; 5; 2; 7; 6].
Proof.
  split.
  - refine (bool_decide_unpack _ _). vm_compute. exact I.
  - intros v Hv. apply list_elem_of_In in Hv. simpl in Hv.
    repeat (destruct Hv as [<-|Hv]; [simpl; lia|]). contradiction.
Qed.

Example example_is_lehmer_code : is_lehmer_code [3; 1; 2; 0; 1; 0; 1; 0].
Proof.
  intros i v Hi.
  do 8 (destruct i as [|i]; [injection Hi as <-; simpl; lia|]).
  simpl in Hi. rewrite lookup_nil in Hi. discriminate.
Qed.

(** C5, as stated, fails for the empty permutation: its code is computed,
    but [DecodeLehmerCode] requires [n != 0]. *)
Lemma lehmer_empty_permutation_not_decoded :
  is_permutation [] /\ is_lehmer_code []
  /\ ComputeLehmerCode [] [0] = Some []
  /\ DecodeLehmerCode [] [0] = None.
Proof.
  split; [|split; [|split; reflexivity]].
  - split; [apply NoDup_nil_2|]. intros v Hv. inversion Hv.
  - intros i v Hi. rewrite lookup_nil in Hi. discriminate.
Qed.

(** C5 (amended): for every [n] with [1 <= n <= 2^30], scratch arrays
    having the documented sizes, [DecodeLehmerCode (ComputeLehmerCode p) = p]
    for every permutation [p] of [[0..n)], the code computed being a valid
    Lehmer code; and [ComputeLehmerCode (DecodeLehmerCode c) = c] for every
    valid Lehmer code [c] of length [n], the decoded list being a
    permutation of [[0..n)]. *)
Theorem lehmer_code_inverse :
  (forall p t1 t2,
     is_permutation p ->
     1 <= Z.of_nat (length p) <= 2 ^ 30 ->
     Z.of_nat (length t1) = Z.of_nat (length p) + 1 ->
     Z.of_nat (length t2) = 2 ^ CeilLog2Nonzero (Z.of_nat (length p)) ->
     exists c, ComputeLehmerCode p t1 = Some c
               /\ is_lehmer_code c /\ length c = length p
               /\ DecodeLehmerCode c t2 = Some p)
  /\
  (forall c t1 t2,
     is_lehmer_code c ->
     1 <= Z.of_nat (length c) <= 2 ^ 30 ->
     Z.of_nat (length t1) = Z.of_nat (length c) + 1 ->
     Z.of_nat (length t2) = 2 ^ CeilLog2Nonzero (Z.of_nat (length c)) ->
     exists p, DecodeLehmerCode c t2 = Some p
               /\ is_permutation p /\ length p = length c
               /\ ComputeLehmerCode p t1 = Some c).
Proof.
  split.
  - intros p t1 t2 Hp Hn H1 H2. exists (codes_of [] p).
    split; [apply ComputeLehmerCode_spec; [assumption|lia|assumption]|].
    split; [apply codes_of_is_lehmer_code; assumption|].
    split; [apply codes_of_length|].
    apply DecodeLehmerCode_codes_of; [assumption|lia|assumption].
  - intros c t1 t2 Hc Hn H1 H2.
    destruct (DecodeLehmerCode_spec c t2 Hc ltac:(lia) H2) as (p & Hdec & Hp & Hcodes).
    assert (length p = length c) as Hlen.
    { rewrite <- Hcodes, codes_of_length. reflexivity. }
    exists p. split; [assumption|]. split; [assumption|]. split; [assumption|].
    rewrite <- Hcodes at 1. apply ComputeLehmerCode_spec; [assumption|lia|lia].
Qed.

Lemma lehmer_code_inverse_witness :
  (exists c, ComputeLehmerCode [3; 1; 4; 0; 5; 2; 7; 6] (replicate 9 7) = Some c
             /\ is_lehmer_code c /\ length c = 8%nat
             /\ DecodeLehmerCode c (replicate 8 7) = Some [3; 1; 4; 0; 5; 2; 7; 6])
  /\
  (exists p, DecodeLehmerCode [3; 1; 2; 0; 1; 0; 1; 0] (replicate 8 7) = Some p
             /\ is_permutation p /\ length p = 8%nat
             /\ ComputeLehmerCode p (replicate 9 7) = Some [3; 1; 2; 0; 1; 0; 1; 0]).
Proof.
  split.
  - apply (proj1 lehmer_code_inverse [3; 1; 4; 0; 5; 2; 7; 6]).
    + exact example_is_permutation.
    + simpl. lia.
    + reflexivity.
    + reflexivity.
  - apply (proj2 lehmer_code_inverse [3; 1; 2; 0; 1; 0; 1; 0]).
    + exact example_is_lehmer_code.
    + simpl. lia.
    + reflexivity.
    + reflexivity.
Defined.

(** C6, as stated, fails at the example: the code of
    [[3,1,4,0,5,2,7,6]] is [[3,1,2,0,1,0,1,0]], which differs from
    [[3,1,3,0,2,3,1,0]] at the indices 2, 4 and 5; the latter is not a
    Lehmer code and is not decoded. *)
Lemma lehmer_example_code_differs :
  ComputeLehmerCode [3; 1; 4; 0; 5; 2; 7; 6] (replicate 9 0)
    = Some [3; 1; 2; 0; 1; 0; 1; 0]
  /\ ComputeLehmerCode [3; 1; 4; 0; 5; 2; 7; 6] (replicate 9 0)
    <> Some [3; 1; 3; 0; 2; 3; 1; 0]
  /\ DecodeLehmerCode [3; 1; 3; 0; 2; 3; 1; 0] (replicate 8 0) = None.
Proof.
  split; [vm_compute; reflexivity|].
  split; [vm_compute; discriminate|vm_compute; reflexivity].
Qed.

(** C6 (amended): [ComputeLehmerCode] computes, for each position [i], the
    rank of [permutation[i]] among the values not used by
    [permutation[0..i)]; for [p = [3,1,4,0,5,2,7,6]] the code is
    [[3,1,2,0,1,0,1,0]], and [DecodeLehmerCode] applied to that code
    recovers [p]. *)
Theorem ComputeLehmerCode_rank :
  (forall p temp,
     is_permutation p ->
     Z.of_nat (length p) < 2 ^ 31 ->
     Z.of_nat (length temp) = Z.of_nat (length p) + 1 ->
     exists code,
       ComputeLehmerCode p temp = Some code
       /\ length code = length p
       /\ forall (i : nat) s,
            p !! i = Some s -> code !! i = Some (rank_unused (take i p) s))
  /\
  (forall t1 t2,
     length t1 = 9%nat -> length t2 = 8%nat ->
     ComputeLehmerCode [3; 1; 4; 0; 5; 2; 7; 6] t1 = Some [3; 1; 2; 0; 1; 0; 1; 0]
     /\ DecodeLehmerCode [3; 1; 2; 0; 1; 0; 1; 0] t2 = Some [3; 1; 4; 0; 5; 2; 7; 6]).
Proof.
  split.
  - intros p temp Hp Hn Hlen. exists (codes_of [] p).
    split; [apply ComputeLehmerCode_spec; assumption|].
    split; [apply codes_of_length|].
    intros i s Hi. apply (codes_of_lookup p [] i s Hi).
  - intros t1 t2 H1 H2.
    assert (codes_of [] [3; 1; 4; 0; 5; 2; 7; 6] = [3; 1; 2; 0; 1; 0; 1; 0]) as Hc
      by (vm_compute; reflexivity).
    rewrite <- Hc. split.
    + apply ComputeLehmerCode_spec.
      * exact example_is_permutation.
      * simpl. lia.
      * rewrite H1. reflexivity.
    + apply DecodeLehmerCode_codes_of.
      * exact example_is_permutation.
      * simpl. lia.
      * rewrite H2. reflexivity.
Qed.

Lemma ComputeLehmerCode_rank_witness :
  (exists code,
     ComputeLehmerCode [2; 0; 1] [9; 9; 9; 9] = Some code
     /\ length code = 3%nat
     /\ forall (i : nat) s,
          [2; 0; 1] !! i = Some s -> code !! i = Some (rank_unused (take i [2; 0; 1]) s))
  /\ ComputeLehmerCode [3; 1; 4; 0; 5; 2; 7; 6] (replicate 9 1)
     = Some [3; 1; 2; 0; 1; 0; 1; 0]
  /\ DecodeLehmerCode [3; 1; 2; 0; 1; 0; 1; 0] (replicate 8 1)
     = Some [3; 1; 4; 0; 5; 2; 7; 6].
Proof.
  split.
  - apply (proj1 ComputeLehmerCode_rank [2; 0; 1] [9; 9; 9; 9]).
    + split.
      * refine (bool_decide_unpack _ _). vm_compute. exact I.
      * intros v Hv. apply list_elem_of_In in Hv. simpl in Hv.
        repeat (destruct Hv as [<-|Hv]; [simpl; lia|]). contradiction.
    + simpl. lia.
    + reflexivity.
  - apply (proj2 ComputeLehmerCode_rank (replicate 9 1) (replicate 8 1));
      reflexivity.
Defined.

End lehmer_claims.

(** ** [DecodeVarInt] *)

Section varint.
Import ICC ICCSpec.

Lemma byte_at_lookup (l : list Z) i b :
  0 <= i -> l !! Z.to_nat i = Some b -> byte_at l i = b.
Proof. intros Hi Hl. unfold byte_at. apply nth_lookup_Some with (d := 0) in Hl. exact Hl. Qed.

Lemma lor_shift_add ret i x :
  0 <= i <= 9 -> 0 <= ret < 2 ^ (7 * i) -> 0 <= x ->
  Z.lor ret (u64 (Z.shiftl x (7 * i))) = (ret + 2 ^ (7 * i) * x) mod 2 ^ 64.
Proof.
  intros Hi Hret Hx. unfold u64.
  rewrite Z.shiftl_mul_pow2 by lia.
  set (P := 2 ^ (7 * i)) in *. set (Q := 2 ^ (64 - 7 * i)).
  assert (0 < P) as HP by (apply Z.pow_pos_nonneg; lia).
  assert (0 < Q) as HQ by (apply Z.pow_pos_nonneg; lia).
  assert (2 ^ 64 = P * Q) as HM.
  { unfold P, Q. rewrite <- Z.pow_add_r by lia. f_equal. lia. }
  rewrite HM.
  assert ((x * P) mod (P * Q) = (x mod Q) * P) as Hmod.
  { rewrite (Z.mul_comm x P). rewrite Z.mul_mod_distr_l by lia. lia. }
  rewrite Hmod.
  pose proof (Z.mod_pos_bound x Q HQ) as Hb.
  assert (Z.land ret ((x mod Q) * P) = 0) as Hland.
  { apply Z.bits_inj'; intros n Hn. rewrite Z.land_spec, Z.bits_0.
    destruct (Z_lt_dec n (7 * i)).
    - unfold P. rewrite Z.mul_pow2_bits_low by lia. apply andb_false_r.
    - rewrite (testbit_small ret (7 * i) n) by (fold P; lia). reflexivity. }
  rewrite <- Z.lxor_lor by exact Hland.
  rewrite <- Z.add_nocarry_lxor by exact Hland.
  rewrite <- (Z.mod_small (ret + x mod Q * P) (P * Q)) by nia.
  rewrite <- Hmod. rewrite Zplus_mod_idemp_r. f_equal. lia.
Qed.

Lemma leb128_value_bound bs :
  0 <= leb128_value bs < 2 ^ (7 * Z.of_nat (length bs)).
Proof.
  induction bs as [|b r IH].
  - simpl. lia.
  - cbn [leb128_value length]. rewrite Nat2Z.inj_succ.
    replace (7 * Z.succ (Z.of_nat (length r))) with (7 + 7 * Z.of_nat (length r)) by lia.
    rewrite Z.pow_add_r by lia. change (2 ^ 7) with 128.
    assert (0 <= Z.land b 127 < 128).
    { split; [apply Z.land_nonneg; lia|].
      change 127 with (Z.ones 7). rewrite Z.land_ones by lia.
      apply Z.mod_pos_bound. lia. }
    lia.
Qed.

(** The loop on the bytes of a well-formed number. *)
Lemma DecodeVarInt_loop_wf bs :
  forall (count : nat) input pos i ret,
    0 <= pos -> 0 <= i ->
    leb128_wf bs ->
    (length bs <= count)%nat -> i + Z.of_nat (length bs) <= 10 ->
    (forall (j : nat), (j < length bs)%nat ->
       input !! Z.to_nat (pos + i + Z.of_nat j) = bs !! j) ->
    0 <= ret < 2 ^ (7 * i) ->
    DecodeVarInt_loop count input pos i ret
    = (i + Z.of_nat (length bs) - 1,
       (ret + 2 ^ (7 * i) * leb128_value bs) mod 2 ^ 64).
Proof.
  induction bs as [|b r IH]; intros count input pos i ret Hpos Hi Hwf Hcount Hlen Hin Hret.
  - destruct Hwf.
  - destruct count as [|count]; [simpl in Hcount; lia|].
    pose proof (Hin 0%nat ltac:(simpl; lia)) as H0. simpl in H0.
    rewrite Z.add_0_r in H0.
    pose proof (lookup_lt_Some _ _ _ H0) as Hlt.
    cbn [DecodeVarInt_loop].
    replace (pos + i <? Z.of_nat (length input)) with true
      by (symmetry; apply Z.ltb_lt; lia).
    rewrite (byte_at_lookup input (pos + i) b) by (lia || assumption).
    assert (0 <= Z.land b 127 < 128) as Hx.
    { split; [apply Z.land_nonneg; lia|].
      change 127 with (Z.ones 7). rewrite Z.land_ones by lia.
      apply Z.mod_pos_bound. lia. }
    cbn [length] in Hlen. rewrite Nat2Z.inj_succ in Hlen.
    rewrite lor_shift_add by lia.
    destruct r as [|b2 r2].
    + simpl in Hwf. rewrite Hwf. simpl. f_equal; [lia|].
      f_equal. lia.
    + destruct Hwf as [Hflag Hwf].
      replace (Z.land b 128 =? 0) with false by (symmetry; apply Z.eqb_neq; assumption).
      assert (0 < 2 ^ (7 * i)) as HP by (apply Z.pow_pos_nonneg; lia).
      assert (2 ^ (7 * (i + 1)) = 2 ^ (7 * i) * 128) as Hnext.
      { replace (7 * (i + 1)) with (7 * i + 7) by lia.
        rewrite Z.pow_add_r by lia. reflexivity. }
      assert (2 ^ (7 * (i + 1)) <= 2 ^ 64) as Hle.
      { apply Z.pow_le_mono_r; [lia|]. cbn [length] in Hlen. lia. }
      rewrite (Z.mod_small (ret + 2 ^ (7 * i) * Z.land b 127)) by nia.
      cbn [length] in Hlen, Hcount, Hin.
      rewrite (IH count input pos (i + 1) (ret + 2 ^ (7 * i) * Z.land b 127)
                 Hpos ltac:(lia) Hwf ltac:(cbn [length]; lia)
                 ltac:(cbn [length]; lia)).
      * f_equal; [cbn [length]; lia|]. f_equal.
        cbn [leb128_value]. rewrite Hnext. lia.
      * intros j Hj. specialize (Hin (S j) ltac:(cbn [length] in *; lia)).
        simpl in Hin. rewrite <- Hin. f_equal. lia.
      * nia.
Qed.

(** The result depends on the ten entries of the input at [pos] only. *)
Lemma DecodeVarInt_loop_ext input input' pos :
  0 <= pos ->
  (forall j, 0 <= j < 10 ->
     input !! Z.to_nat (pos + j) = input' !! Z.to_nat (pos + j)) ->
  forall (count : nat) i ret,
    0 <= i -> i + Z.of_nat count <= 10 ->
    DecodeVarInt_loop count input pos i ret
    = DecodeVarInt_loop count input' pos i ret.
Proof.
  intros Hpos Hext. induction count as [|count IH]; intros i ret Hi Hc.
  - reflexivity.
  - cbn [DecodeVarInt_loop].
    pose proof (Hext i ltac:(lia)) as Hexti.
    destruct (Z_lt_dec (pos + i) (Z.of_nat (length input))) as [Hlt|Hge].
    + destruct (lookup_lt_is_Some_2 input (Z.to_nat (pos + i)) ltac:(lia)) as [b Hb].
      rewrite Hb in Hexti. symmetry in Hexti.
      pose proof (lookup_lt_Some _ _ _ Hexti) as Hlt'.
      replace (pos + i <? Z.of_nat (length input)) with true
        by (symmetry; apply Z.ltb_lt; lia).
      replace (pos + i <? Z.of_nat (length input')) with true
        by (symmetry; apply Z.ltb_lt; lia).
      rewrite (byte_at_lookup input (pos + i) b) by (lia || assumption).
      rewrite (byte_at_lookup input' (pos + i) b) by (lia || assumption).
      destruct (Z.land b 128 =? 0); [reflexivity|].
      apply IH; lia.
    + assert (input !! Z.to_nat (pos + i) = None) as Hn
        by (apply lookup_ge_None; lia).
      rewrite Hn in Hexti. symmetry in Hexti. apply lookup_ge_None in Hexti.
      replace (pos + i <? Z.of_nat (length input)) with false
        by (symmetry; apply Z.ltb_ge; lia).
      replace (pos + i <? Z.of_nat (length input')) with false
        by (symmetry; apply Z.ltb_ge; lia).
      reflexivity.
Qed.

End varint.

Section varint_claim.
Import ICC ICCSpec.

Lemma DecodeVarInt_loop_range :
  forall (count : nat) input pos i ret,
    0 <= i -> 0 <= ret < 2 ^ 64 ->
    i <= (DecodeVarInt_loop count input pos i ret).1 <= i + Z.of_nat count
    /\ 0 <= (DecodeVarInt_loop count input pos i ret).2 < 2 ^ 64.
Proof.
  induction count as [|count IH]; intros input pos i ret Hi Hret.
  - simpl. lia.
  - cbn [DecodeVarInt_loop].
    assert (0 <= Z.lor ret (u64 (Z.shiftl (Z.land (byte_at input (pos + i)) 127) (7 * i)))
            < 2 ^ 64) as Hlor.
    { pose proof (Z.mod_pos_bound
        (Z.shiftl (Z.land (byte_at input (pos + i)) 127) (7 * i)) (2 ^ 64) ltac:(lia)) as Hm.
      fold (u64 (Z.shiftl (Z.land (byte_at input (pos + i)) 127) (7 * i))) in Hm.
      set (y := u64 _) in *. split.
      - apply Z.lor_nonneg. lia.
      - destruct (Z.eq_dec (Z.lor ret y) 0) as [->|Hne]; [lia|].
        apply Z.log2_lt_cancel. rewrite Z.log2_lor by lia.
        change (Z.log2 (2 ^ 64)) with 64.
        assert (forall z, 0 <= z < 2 ^ 64 -> Z.log2 z < 64) as Hlog.
        { intros z Hz. destruct (Z.eq_dec z 0) as [->|?]; [simpl; lia|].
          apply Z.log2_lt_pow2; lia. }
        pose proof (Hlog ret Hret). pose proof (Hlog y Hm). lia. }
    destruct (pos + i <? Z.of_nat (length input)); [|simpl; lia].
    destruct (Z.land (byte_at input (pos + i)) 128 =? 0); [simpl; lia|].
    specialize (IH input pos (i + 1) _ ltac:(lia) Hlor). lia.
Qed.

Lemma DecodeVarInt_range input pos :
  0 <= (DecodeVarInt input pos).1 < 2 ^ 64
  /\ pos + 1 <= (DecodeVarInt input pos).2 <= pos + 11.
Proof.
  unfold DecodeVarInt.
  pose proof (DecodeVarInt_loop_range 10 input pos 0 0 ltac:(lia) ltac:(lia)) as H.
  destruct (DecodeVarInt_loop 10 input pos 0 0) as [i ret]. simpl in *. lia.
Qed.

(** C8 (amended): [DecodeVarInt] decodes an unsigned LEB128 integer of at
    most 10 bytes modulo [2^64]: on the [k <= 10] bytes of a well-formed
    number it returns their LEB128 value reduced modulo [2^64], which is the
    value itself when it fits 64 bits (as it always does for [k <= 9]), and
    advances the cursor by exactly [k]; in general its result depends on no
    other part of the input than the ten bytes at the cursor. *)
Theorem DecodeVarInt_leb128 :
  (forall pre bs post,
     leb128_wf bs -> (length bs <= 10)%nat ->
     DecodeVarInt (pre ++ bs ++ post) (Z.of_nat (length pre))
     = (leb128_value bs mod 2 ^ 64, Z.of_nat (length pre) + Z.of_nat (length bs))
     /\ (leb128_value bs < 2 ^ 64 ->
         DecodeVarInt (pre ++ bs ++ post) (Z.of_nat (length pre))
         = (leb128_value bs, Z.of_nat (length pre) + Z.of_nat (length bs)))
     /\ ((length bs <= 9)%nat -> leb128_value bs < 2 ^ 64))
  /\
  (forall input input' pos,
     0 <= pos ->
     (forall j, 0 <= j < 10 ->
        input !! Z.to_nat (pos + j) = input' !! Z.to_nat (pos + j)) ->
     DecodeVarInt input pos = DecodeVarInt input' pos).
Proof.
  split.
  - intros pre bs post Hwf Hlen.
    assert (DecodeVarInt (pre ++ bs ++ post) (Z.of_nat (length pre))
            = (leb128_value bs mod 2 ^ 64,
               Z.of_nat (length pre) + Z.of_nat (length bs))) as Hmain.
    { unfold DecodeVarInt.
      rewrite (DecodeVarInt_loop_wf bs 10 (pre ++ bs ++ post)
                 (Z.of_nat (length pre)) 0 0); try lia; try assumption.
      - f_equal; [f_equal; lia|lia].
      - intros j Hj. rewrite Z.add_0_r, <- Nat2Z.inj_add, Nat2Z.id.
        rewrite lookup_app_r by lia.
        replace (length pre + j - length pre)%nat with j by lia.
        rewrite lookup_app_l by lia. reflexivity. }
    split; [exact Hmain|]. split.
    + intros Hfit. rewrite Hmain. f_equal.
      apply Z.mod_small. pose proof (leb128_value_bound bs). lia.
    + intros H9. pose proof (leb128_value_bound bs) as Hb.
      assert (2 ^ (7 * Z.of_nat (length bs)) <= 2 ^ 63)
        by (apply Z.pow_le_mono_r; lia).
      lia.
  - intros input input' pos Hpos Hext. unfold DecodeVarInt.
    rewrite (DecodeVarInt_loop_ext input input' pos Hpos Hext 10 0 0); [reflexivity|lia|lia].
Qed.

Lemma DecodeVarInt_leb128_witness :
  DecodeVarInt ([7] ++ [172; 2] ++ [99]) 1 = (300 mod 2 ^ 64, 1 + 2)
  /\ DecodeVarInt [7; 172; 2; 99; 1; 1; 1; 1; 1; 1; 1; 1] 1
     = DecodeVarInt [8; 172; 2; 99; 1; 1; 1; 1; 1; 1; 1; 9; 9] 1.
Proof.
  split.
  - refine (proj1 (proj1 DecodeVarInt_leb128 [7] [172; 2] [99] _ _)).
    + simpl. split; [discriminate|reflexivity].
    + simpl. lia.
  - apply (proj2 DecodeVarInt_leb128); [lia|].
    intros j Hj.
    assert (j = 0 \/ j = 1 \/ j = 2 \/ j = 3 \/ j = 4 \/ j = 5 \/ j = 6
            \/ j = 7 \/ j = 8 \/ j = 9) as Hc by lia.
    repeat (destruct Hc as [->|Hc]; [reflexivity|]). subst. reflexivity.
Defined.

End varint_claim.

(** C8, as stated, fails: the ten bytes [128] (nine times) and [2] are a
    well-formed LEB128 number of value [2^64]; [DecodeVarInt] reads the ten
    bytes and returns 0, the payload of the tenth byte above its lowest bit
    being shifted out of the 64-bit result. *)
Lemma DecodeVarInt_tenth_byte_shifted_out :
  let bs := [128; 128; 128; 128; 128; 128; 128; 128; 128; 2] in
  ICCSpec.leb128_wf bs /\ length bs = 10%nat
  /\ ICCSpec.leb128_value bs = 2 ^ 64
  /\ ICC.DecodeVarInt bs 0 = (0, 10)
  /\ (ICC.DecodeVarInt bs 0).1 <> ICCSpec.leb128_value bs.
Proof.
  cbv zeta. split; [|split; [reflexivity|split; [reflexivity|split]]].
  - cbn. repeat split; discriminate.
  - vm_compute. reflexivity.
  - vm_compute. discriminate.
Qed.

(** ** [CheckPreamble] *)

Section preamble.
Import ICC.
Context `{ICCCommon}.



End preamble.



Example CheckPreamble_boundary :
  ICC.CheckPreamble (H := Sample.common) [100; 2; 0; 0] (100 + 65536) = OK
  /\ ICC.CheckPreamble (H := Sample.common) [100; 2; 0; 0] (100 + 65537)
     = Failure "Malformed ICC".
Proof. split; reflexivity. Qed.

(** ** [UnpredictICC] *)

Section unpredict.
Import ICC.
Context `{ICCCommon}.

(** C10: with a non-empty result buffer [UnpredictICC] returns an error at
    once, whatever the input, and leaves the buffer as it is. *)
Theorem UnpredictICC_result_must_be_empty enc result0 :
  result0 <> [] ->
  UnpredictICC_run enc result0
  = Some (Failure "result must be empty initially", mk_ustate result0 0 0).
Proof.
  intros Hne. unfold UnpredictICC_run.
  rewrite bool_decide_eq_false_2 by assumption. reflexivity.
Qed.

End unpredict.

Lemma UnpredictICC_result_must_be_empty_witness :
  ICC.UnpredictICC_run (H := Sample.common) [1; 2; 3] [9]
  = Some (Failure "result must be empty initially", ICC.mk_ustate [9] 0 0).
Proof.
  apply (UnpredictICC_result_must_be_empty (H := Sample.common) [1; 2; 3] [9]).
  discriminate.
Defined.

Section unpredict_loops.
Import ICC.
Context `{ICCCommon}.

Lemma forever_exit {S} (body : S -> step S) :
  forall (fuel : nat) s e,
    forever fuel body s = Some e ->
    exists s', match e with
               | Broke u => body s' = Break u
               | Returned st u => body s' = Return st u
               end.
Proof.
  induction fuel as [|fuel IH]; intros s e Hrun.
  - discriminate.
  - cbn [forever] in Hrun. destruct (body s) as [s1|u|st u] eqn:Hb.
    + apply (IH s1 e Hrun).
    + injection Hrun as <-. exists s. exact Hb.
    + injection Hrun as <-. exists s. exact Hb.
Qed.

(** A loop whose continuing iterations decrease a measure has enough fuel. *)
Lemma forever_total {S} (body : S -> step S) (m : S -> Z) :
  (forall s s', body s = Continue s' -> 0 < m s /\ m s' < m s) ->
  forall (fuel : nat) s,
    m s < Z.of_nat fuel -> (0 < fuel)%nat ->
    exists e, forever fuel body s = Some e.
Proof.
  intros Hdec. induction fuel as [|fuel IH]; intros s Hm Hpos.
  - lia.
  - cbn [forever]. destruct (body s) as [s1|u|st u] eqn:Hb.
    + destruct (Hdec s s1 Hb) as [H0 H1]. apply IH; lia.
    + eexists. reflexivity.
    + eexists. reflexivity.
Qed.


Lemma DecodeVarInt_advances enc p v q :
  DecodeVarInt enc p = (v, q) -> p < q.
Proof.
  intros E. pose proof (DecodeVarInt_range enc p) as R. rewrite E in R.
  simpl in R. lia.
Qed.

Lemma predict_data_spec enc ce s cp stride width order r :
  predict_data enc ce s cp stride width order = r ->
  match r with
  | Continue s' => cp < cpos s'
  | Break _ => False
  | Return st _ => st <> OK
  end.
Proof.
  unfold predict_data. intros <-.
  destruct (ce <=? cp); [discriminate|].
  destruct (DecodeVarInt enc cp) as [num cp'] eqn:E.
  apply DecodeVarInt_advances in E.
  destruct (CheckOutOfBounds (pos s) num (Z.of_nat (length enc)));
    simpl; (assumption || discriminate).
Qed.

Lemma predict_command_spec enc ce s r :
  predict_command enc ce s = r ->
  match r with
  | Continue s' => cpos s < cpos s'
  | Break _ => False
  | Return st _ => st <> OK
  end.
Proof.
  unfold predict_command. intros <-.
  destruct (CheckOutOfBounds (cpos s) 2 ce); [|discriminate..].
  destruct (Z.land (byte_at enc (cpos s)) 3 + 1 =? 3); [discriminate|].
  destruct (Z.shiftr (Z.land (byte_at enc (cpos s)) 12) 2 =? 3); [discriminate|].
  cbn [cpos].
  destruct (negb (Z.land (byte_at enc (cpos s)) 16 =? 0)).
  - destruct (ce <=? cpos s + 1); [discriminate|].
    destruct (DecodeVarInt enc (cpos s + 1)) as [stride cp] eqn:E.
    apply DecodeVarInt_advances in E.
    destruct (stride <? Z.land (byte_at enc (cpos s)) 3 + 1); [discriminate|].
    destruct ((Z.of_nat (length (result s)) =? 0)
              || (Z.shiftr (Z.of_nat (length (result s)) - 1) 2 <? stride));
      [discriminate|].
    pose proof (predict_data_spec enc ce s cp stride
                  (Z.land (byte_at enc (cpos s)) 3 + 1)
                  (Z.shiftr (Z.land (byte_at enc (cpos s)) 12) 2) _ eq_refl) as P.
    destruct (predict_data _ _ _ _ _ _ _); [lia|assumption|assumption].
  - destruct ((Z.of_nat (length (result s)) =? 0)
              || (Z.shiftr (Z.of_nat (length (result s)) - 1) 2
                  <? Z.land (byte_at enc (cpos s)) 3 + 1));
      [discriminate|].
    pose proof (predict_data_spec enc ce s (cpos s + 1)
                  (Z.land (byte_at enc (cpos s)) 3 + 1)
                  (Z.land (byte_at enc (cpos s)) 3 + 1)
                  (Z.shiftr (Z.land (byte_at enc (cpos s)) 12) 2) _ eq_refl) as P.
    destruct (predict_data _ _ _ _ _ _ _); [lia|assumption|assumption].
Qed.

(** What an iteration of the main loop can do: continue further in the
    commands, leave the loop at the end of the commands, or fail. *)
Lemma main_body_spec enc osize ce s r :
  main_body enc osize ce s = r ->
  match r with
  | Continue s' => cpos s < ce /\ cpos s < cpos s'
  | Break u => u = s /\ cpos s = ce
  | Return st _ => st <> OK
  end.
Proof.
  unfold main_body. intros <-.
  destruct (osize <? Z.of_nat (length (result s))); [discriminate|].
  destruct (ce <? cpos s) eqn:E1; [discriminate|]. apply Z.ltb_ge in E1.
  destruct (cpos s =? ce) eqn:E2; [apply Z.eqb_eq in E2; split; [reflexivity|assumption]|].
  apply Z.eqb_neq in E2. cbn [cpos pos result].
  destruct (byte_at enc (cpos s) =? kCommandInsert).
  { destruct (ce <=? cpos s + 1); [discriminate|].
    destruct (DecodeVarInt enc (cpos s + 1)) as [num cp] eqn:E.
    apply DecodeVarInt_advances in E.
    destruct (CheckOutOfBounds (pos s) num (Z.of_nat (length enc)));
      simpl; (discriminate || lia). }
  destruct ((byte_at enc (cpos s) =? kCommandShuffle2)
            || (byte_at enc (cpos s) =? kCommandShuffle4)).
  { destruct (ce <=? cpos s + 1); [discriminate|].
    destruct (DecodeVarInt enc (cpos s + 1)) as [num cp] eqn:E.
    apply DecodeVarInt_advances in E.
    destruct (CheckOutOfBounds (pos s) num (Z.of_nat (length enc)));
      simpl; (discriminate || lia). }
  destruct (byte_at enc (cpos s) =? kCommandPredict).
  { pose proof (predict_command_spec enc ce
                  (mk_ustate (result s) (cpos s + 1) (pos s)) _ eq_refl) as P.
    destruct (predict_command _ _ _); cbn [cpos] in P; [lia|contradiction|assumption]. }
  destruct (byte_at enc (cpos s) =? kCommandXYZ).
  { destruct (CheckOutOfBounds (pos s) 12 (Z.of_nat (length enc)));
      simpl; (discriminate || lia). }
  destruct ((kCommandTypeStartFirst <=? byte_at enc (cpos s))
            && (byte_at enc (cpos s) <? kCommandTypeStartFirst + kNumTypeStrings)).
  { simpl. lia. }
  discriminate.
Qed.

Lemma tag_entry_spec enc ce command tagcode tag t r :
  tag_entry enc ce command tagcode tag t = r ->
  match r with
  | Continue t' => cpos (ts t) <= cpos (ts t')
  | Break _ => False
  | Return st _ => st <> OK
  end.
Proof.
  unfold tag_entry. intros <-.
  destruct (negb (Z.land command kFlagBitOffset =? 0)).
  - destruct (ce <=? cpos (ts t)); [discriminate|].
    destruct (DecodeVarInt enc (cpos (ts t))) as [tagstart cp1] eqn:E1.
    apply DecodeVarInt_advances in E1.
    destruct (CheckIs32Bit tagstart); [|discriminate..].
    destruct (negb (Z.land command kFlagBitSize =? 0)).
    + destruct (ce <=? cp1); [discriminate|].
      destruct (DecodeVarInt enc cp1) as [tagsize cp2] eqn:E2.
      apply DecodeVarInt_advances in E2.
      destruct (CheckIs32Bit tagsize); [|discriminate..].
      destruct (tagcode =? kCommandTagXYZ); [|simpl; lia].
      destruct (CheckIs32Bit _); simpl; (discriminate || lia).
    + destruct (CheckIs32Bit _); [|discriminate..].
      destruct (tagcode =? kCommandTagXYZ); [|simpl; lia].
      destruct (CheckIs32Bit _); simpl; (discriminate || lia).
  - destruct (CheckIs32Bit (prevtagstart t)); [|discriminate..].
    destruct (CheckIs32Bit _); [|discriminate..].
    destruct (negb (Z.land command kFlagBitSize =? 0)).
    + destruct (ce <=? cpos (ts t)); [discriminate|].
      destruct (DecodeVarInt enc (cpos (ts t))) as [tagsize cp2] eqn:E2.
      apply DecodeVarInt_advances in E2.
      destruct (CheckIs32Bit tagsize); [|discriminate..].
      destruct (tagcode =? kCommandTagXYZ); [|simpl; lia].
      destruct (CheckIs32Bit _); simpl; (discriminate || lia).
    + destruct (CheckIs32Bit _); [|discriminate..].
      destruct (tagcode =? kCommandTagXYZ); [|simpl; lia].
      destruct (CheckIs32Bit _); simpl; (discriminate || lia).
Qed.

Lemma tag_body_spec enc osize ce t r :
  tag_body enc osize ce t = r ->
  match r with
  | Continue t' => cpos (ts t) < ce /\ cpos (ts t) < cpos (ts t')
  | Break u => True
  | Return st _ => st <> OK
  end.
Proof.
  unfold tag_body. intros <-.
  destruct (osize <? Z.of_nat (length (result (ts t)))); [discriminate|].
  destruct (ce <? cpos (ts t)) eqn:E1; [discriminate|]. apply Z.ltb_ge in E1.
  destruct (cpos (ts t) =? ce) eqn:E2; [exact I|].
  apply Z.eqb_neq in E2. cbn [cpos pos result].
  destruct (Z.land (byte_at enc (cpos (ts t))) 63 =? 0); [exact I|].
  assert (forall tag t0 r0,
            cpos (ts t0) = cpos (ts t) + 1 ->
            tag_entry enc ce (byte_at enc (cpos (ts t)))
              (Z.land (byte_at enc (cpos (ts t))) 63) tag t0 = r0 ->
            match r0 with
            | Continue t' => cpos (ts t) < ce /\ cpos (ts t) < cpos (ts t')
            | Break _ => True
            | Return st _ => st <> OK
            end) as Hentry.
  { intros tag t0 r0 Hcp Hr. apply tag_entry_spec in Hr.
    destruct r0; [lia|exact I|assumption]. }
  destruct (Z.land (byte_at enc (cpos (ts t))) 63 =? kCommandTagUnknown).
  { destruct (CheckOutOfBounds (pos (ts t)) 4 (Z.of_nat (length enc)));
      [|discriminate..].
    eapply Hentry; [|reflexivity]. reflexivity. }
  destruct (Z.land (byte_at enc (cpos (ts t))) 63 =? kCommandTagTRC).
  { eapply Hentry; [|reflexivity]. reflexivity. }
  destruct (Z.land (byte_at enc (cpos (ts t))) 63 =? kCommandTagXYZ).
  { eapply Hentry; [|reflexivity]. reflexivity. }
  destruct (kNumTagStrings <=? _); [discriminate|].
  eapply Hentry; [|reflexivity]. reflexivity.
Qed.

Lemma header_loop_spec enc osize ce :
  forall (count : nat) i header s r,
    header_loop count enc osize ce i header s = r ->
    match r with
    | Continue _ => False
    | Break u => True
    | Return st u =>
        st = OK ->
        Z.of_nat (length (result u)) = osize /\ cpos u = ce
        /\ pos u = Z.of_nat (length enc)
    end.
Proof.
  induction count as [|count IH]; intros i header s r <-.
  - exact I.
  - cbn [header_loop].
    destruct (Z.of_nat (length (result s)) =? osize) eqn:E1.
    + apply Z.eqb_eq in E1.
      destruct (cpos s =? ce) eqn:E2; cbn [negb]; [|discriminate].
      apply Z.eqb_eq in E2.
      destruct (pos s =? Z.of_nat (length enc)) eqn:E3; cbn [negb]; [|discriminate].
      apply Z.eqb_eq in E3. intros _. repeat split; assumption.
    + destruct (i =? kICCHeaderSize); [exact I|].
      destruct (Z.of_nat (length enc) <=? pos s); [discriminate|].
      apply (IH _ _ _ _ eq_refl).
Qed.

(** C2: [UnpredictICC] returns, and it returns success only if, at that
    point, the size of the reconstructed output is the declared output size
    (the first VarInt), the commands cursor is at the end of the commands
    (their start plus the declared commands size) and the data cursor is at
    the end of the input; otherwise the status returned is an error. *)
Theorem UnpredictICC_success_only_if enc result0 osize pos1 csize pos2 :
  DecodeVarInt enc 0 = (osize, pos1) ->
  DecodeVarInt enc pos1 = (csize, pos2) ->
  exists st s,
    UnpredictICC_run enc result0 = Some (st, s)
    /\ (st = OK ->
        Z.of_nat (length (result s)) = osize
        /\ cpos s = pos2 + csize
        /\ pos s = Z.of_nat (length enc)).
Proof.
  intros Ho Hc. unfold UnpredictICC_run.
  destruct (negb (bool_decide (result0 = []))).
  { eexists _, _. split; [reflexivity|discriminate]. }
  destruct (Z.of_nat (length enc) <=? 0).
  { eexists _, _. split; [reflexivity|discriminate]. }
  rewrite Ho.
  destruct (CheckIs32Bit osize);
    [|eexists _, _; (split; [reflexivity|discriminate])..].
  destruct (Z.of_nat (length enc) <=? pos1).
  { eexists _, _. split; [reflexivity|discriminate]. }
  rewrite Hc.
  destruct (CheckIs32Bit csize);
    [|eexists _, _; (split; [reflexivity|discriminate])..].
  destruct (CheckOutOfBounds pos2 csize (Z.of_nat (length enc)));
    [|eexists _, _; (split; [reflexivity|discriminate])..].
  set (ce := pos2 + csize).
  (* Header *)
  pose proof (header_loop_spec enc osize ce (Z.to_nat (kICCHeaderSize + 1)) 0
                (ICCInitialHeaderPrediction (u32 osize))
                (mk_ustate result0 pos2 ce) _ eq_refl) as Hh.
  destruct (header_loop _ _ _ _ _ _ _) as [?|s4|st s]; [contradiction| |].
  2:{ eexists _, _. split; [reflexivity|exact Hh]. }
  clear Hh.
  destruct (ce <=? cpos s4) eqn:E4.
  { eexists _, _. split; [reflexivity|discriminate]. }
  apply Z.leb_gt in E4.
  (* Tag list *)
  assert (exists e, tag_list (loop_fuel ce (cpos s4)) enc osize ce s4 = Some e
                    /\ match e with
                       | Broke _ => True
                       | Returned st _ => st <> OK
                       end) as (e & -> & He).
  { unfold tag_list.
    destruct (DecodeVarInt enc (cpos s4)) as [numtags cp] eqn:En.
    apply DecodeVarInt_advances in En.
    destruct (negb (numtags =? 0)).
    2:{ eexists. split; [reflexivity|exact I]. }
    destruct (CheckIs32Bit (numtags - 1));
      [|eexists; (split; [reflexivity|discriminate])..].
    set (t0 := mk_tag_state _ _ _).
    destruct (forever_total (tag_body enc osize ce) (fun t => ce - cpos (ts t)))
      with (fuel := loop_fuel ce (cpos s4)) (s := t0) as [e He].
    - intros t t' Hb. apply tag_body_spec in Hb. lia.
    - unfold loop_fuel, t0. simpl. lia.
    - unfold loop_fuel. lia.
    - exists e. split; [exact He|].
      apply forever_exit in He as [t' Ht'].
      destruct e as [u|st u]; [exact I|].
      apply tag_body_spec in Ht'. exact Ht'. }
  destruct e as [s5|st s].
  2:{ eexists _, _. split; [reflexivity|]. intros ->. contradiction. }
  (* Main Content *)
  destruct (forever_total (main_body enc osize ce) (fun s => ce - cpos s))
    with (fuel := loop_fuel ce (cpos s5)) (s := s5) as [e Hm].
  { intros s s' Hb. apply main_body_spec in Hb. lia. }
  { unfold loop_fuel. lia. }
  { unfold loop_fuel. lia. }
  rewrite Hm. apply forever_exit in Hm as [s' Hs'].
  destruct e as [s6|st s].
  - apply main_body_spec in Hs' as [Heq Hce]. subst s'.
    destruct (pos s6 =? Z.of_nat (length enc)) eqn:E5; cbn [negb].
    2:{ eexists _, _. split; [reflexivity|discriminate]. }
    apply Z.eqb_eq in E5.
    destruct (Z.of_nat (length (result s6)) =? osize) eqn:E6; cbn [negb].
    2:{ eexists _, _. split; [reflexivity|discriminate]. }
    apply Z.eqb_eq in E6.
    eexists _, _. split; [reflexivity|]. intros _. repeat split; assumption.
  - apply main_body_spec in Hs'.
    eexists _, _. split; [reflexivity|]. intros ->. contradiction.
Qed.

End unpredict_loops.

Lemma UnpredictICC_success_only_if_witness :
  exists st s,
    ICC.UnpredictICC_run (H := Sample.common) [0; 0] [] = Some (st, s)
    /\ (st = OK ->
        Z.of_nat (length (ICC.result s)) = 0
        /\ ICC.cpos s = 2 + 0
        /\ ICC.pos s = Z.of_nat (length [0; 0])).
Proof.
  apply (UnpredictICC_success_only_if (H := Sample.common) [0; 0] [] 0 1 0 2);
    reflexivity.
Defined.

Example UnpredictICC_empty_profile :
  ICC.UnpredictICC_run (H := Sample.common) [0; 0] []
  = Some (OK, ICC.mk_ustate [] 2 2).
Proof. vm_compute. reflexivity. Qed.

Example UnpredictICC_one_byte_profile :
  ICC.UnpredictICC_run (H := Sample.common) [1; 0; 7] []
  = Some (OK, ICC.mk_ustate [7] 2 3).
Proof. vm_compute. reflexivity. Qed.

Example UnpredictICC_data_left_over :
  ICC.UnpredictICC_run (H := Sample.common) [1; 0; 7; 8] []
  = Some (Failure "Not all data used", ICC.mk_ustate [7] 2 3).
Proof. vm_compute. reflexivity. Qed.

Section stride.
Import ICC.
Context `{ICCCommon}.

Lemma stride_check_fails rsize stride :
  0 <= rsize -> 0 <= stride ->
  (rsize =? 0) || (Z.shiftr (rsize - 1) 2 <? stride) = true <-> rsize <= 4 * stride.
Proof.
  intros Hr Hs. rewrite orb_true_iff, Z.eqb_eq, Z.ltb_lt.
  rewrite Z.shiftr_div_pow2 by lia. change (2 ^ 2) with 4.
  destruct (Z.eq_dec rsize 0) as [->|Hne]; [lia|].
  pose proof (Z.div_mod (rsize - 1) 4 ltac:(lia)).
  pose proof (Z.mod_pos_bound (rsize - 1) 4 ltac:(lia)). lia.
Qed.

(** C7 (amended): an iteration of the main loop at a PREDICT command with
    valid width and order.  With an explicit stride: it fails with
    "Invalid stride" when the stride is below the width or when four times
    the stride is not less than the number of bytes reconstructed so far,
    in particular when four times the stride is not less than the declared
    output size; it passes the stride check, going on with the number of
    bytes to predict, when the stride is at least the width and four times
    the stride is less than the number of bytes reconstructed so far.  With
    the implicit stride, which is the width, likewise. *)
Theorem predict_stride_check enc osize ce s flags width order :
  Z.of_nat (length (result s)) <= osize ->
  cpos s < ce ->
  byte_at enc (cpos s) = kCommandPredict ->
  kCommandPredict <> kCommandInsert ->
  kCommandPredict <> kCommandShuffle2 ->
  kCommandPredict <> kCommandShuffle4 ->
  CheckOutOfBounds (cpos s + 1) 2 ce = OK ->
  flags = byte_at enc (cpos s + 1) ->
  width = Z.land flags 3 + 1 -> width <> 3 ->
  order = Z.shiftr (Z.land flags 12) 2 -> order <> 3 ->
  let rsize := Z.of_nat (length (result s)) in
  let s1 := mk_ustate (result s) (cpos s + 1) (pos s) in
  (Z.land flags 16 <> 0 -> cpos s + 2 < ce ->
   forall stride cp,
     DecodeVarInt enc (cpos s + 2) = (stride, cp) ->
     (stride < width \/ rsize <= 4 * stride ->
      main_body enc osize ce s
      = Return (Failure "Invalid stride") (mk_ustate (result s) cp (pos s)))
     /\ (osize <= 4 * stride ->
         main_body enc osize ce s
         = Return (Failure "Invalid stride") (mk_ustate (result s) cp (pos s)))
     /\ (width <= stride -> 4 * stride < rsize ->
         main_body enc osize ce s
         = predict_data enc ce s1 cp stride width order))
  /\
  (Z.land flags 16 = 0 ->
   (rsize <= 4 * width ->
    main_body enc osize ce s
    = Return (Failure "Invalid stride")
        (mk_ustate (result s) (cpos s + 2) (pos s)))
   /\ (4 * width < rsize ->
       main_body enc osize ce s
       = predict_data enc ce s1 (cpos s + 2) width width order)).
Proof.
  intros Hsize Hcp Hcmd Hn1 Hn2 Hn3 Hoob Hflags Hwidth Hw3 Horder Ho3 rsize s1.
  assert (main_body enc osize ce s = predict_command enc ce s1) as Hmain.
  { unfold main_body.
    replace (osize <? Z.of_nat (length (result s))) with false
      by (symmetry; apply Z.ltb_ge; lia).
    replace (ce <? cpos s) with false by (symmetry; apply Z.ltb_ge; lia).
    replace (cpos s =? ce) with false by (symmetry; apply Z.eqb_neq; lia).
    rewrite Hcmd.
    replace (kCommandPredict =? kCommandInsert) with false
      by (symmetry; apply Z.eqb_neq; assumption).
    replace (kCommandPredict =? kCommandShuffle2) with false
      by (symmetry; apply Z.eqb_neq; assumption).
    replace (kCommandPredict =? kCommandShuffle4) with false
      by (symmetry; apply Z.eqb_neq; assumption).
    rewrite Z.eqb_refl. reflexivity. }
  rewrite Hmain. unfold predict_command. cbn [cpos pos result s1].
  rewrite Hoob, <- Hflags, <- Hwidth, <- Horder.
  replace (width =? 3) with false by (symmetry; apply Z.eqb_neq; assumption).
  replace (order =? 3) with false by (symmetry; apply Z.eqb_neq; assumption).
  replace (cpos s + 1 + 1) with (cpos s + 2) by lia.
  assert (0 <= rsize) as Hr0 by (unfold rsize; lia).
  assert (0 < width) as Hw0.
  { subst width. pose proof (Z.land_nonneg flags 3). lia. }
  split.
  - intros H16 Hce stride cp Hdec.
    replace (Z.land flags 16 =? 0) with false
      by (symmetry; apply Z.eqb_neq; assumption).
    cbn [negb].
    replace (ce <=? cpos s + 2) with false by (symmetry; apply Z.leb_gt; lia).
    rewrite Hdec.
    pose proof (DecodeVarInt_range enc (cpos s + 2)) as Hrange.
    rewrite Hdec in Hrange. cbn [fst snd] in Hrange.
    pose proof (stride_check_fails rsize stride Hr0 ltac:(lia)) as Hchk.
    fold rsize.
    assert (stride < width \/ rsize <= 4 * stride ->
            (let '(st, stride0, cp0) :=
               if stride <? width then (Failure "Invalid stride", stride, cp)
               else (OK, stride, cp) in
             match st with
             | OK =>
                 if (rsize =? 0) || (Z.shiftr (rsize - 1) 2 <? stride0)
                 then Return (Failure "Invalid stride")
                        (mk_ustate (result s) cp0 (pos s))
                 else predict_data enc ce s1 cp0 stride0 width order
             | _ => Return st (mk_ustate (result s) cp0 (pos s))
             end)
            = Return (Failure "Invalid stride") (mk_ustate (result s) cp (pos s)))
      as Hfail.
    { intros Hbad. destruct (stride <? width) eqn:Elt; [reflexivity|].
      apply Z.ltb_ge in Elt. destruct Hbad as [?|Hbad]; [lia|].
      apply Hchk in Hbad. rewrite Hbad. reflexivity. }
    split; [exact Hfail|]. split.
    + intros Hos. apply Hfail. right. lia.
    + intros Hge Hlt.
      replace (stride <? width) with false by (symmetry; apply Z.ltb_ge; lia).
      assert ((rsize =? 0) || (Z.shiftr (rsize - 1) 2 <? stride) = false) as ->
        by (apply not_true_is_false; intros E; apply Hchk in E; lia).
      reflexivity.
  - intros H16. rewrite H16. cbn [negb Z.eqb].
    pose proof (stride_check_fails rsize width Hr0 ltac:(lia)) as Hchk.
    fold rsize. split.
    + intros Hbad. apply Hchk in Hbad. rewrite Hbad. reflexivity.
    + intros Hlt.
      assert ((rsize =? 0) || (Z.shiftr (rsize - 1) 2 <? width) = false) as ->
        by (apply not_true_is_false; intros E; apply Hchk in E; lia).
      reflexivity.
Qed.

End stride.

(** C7, as stated, fails: declared size 1000, PREDICT with width 1, order 0
    and stride 40; the stride is below 1000/4, but four times the stride is
    not less than the 128 bytes reconstructed so far, and the decoder fails
    with "Invalid stride". *)
Lemma predict_stride_below_declared_bound_rejected :
  (ICC.DecodeVarInt Sample.stride_example 0).1 = 1000
  /\ (ICC.DecodeVarInt Sample.stride_example 6).1 = 40
  /\ 40 < 1000 / 4
  /\ fst <$> ICC.UnpredictICC_run (H := Sample.common) Sample.stride_example []
     = Some (Failure "Invalid stride").
Proof. repeat split; vm_compute; reflexivity. Qed.

Lemma predict_stride_check_witness :
  let s := ICC.mk_ustate (replicate 128 0) 4 135 in
  (Z.land 16 16 <> 0 -> 4 + 2 < 7 ->
   forall stride cp,
     ICC.DecodeVarInt Sample.stride_example (4 + 2) = (stride, cp) ->
     (stride < 1 \/ 128 <= 4 * stride ->
      ICC.main_body (H := Sample.common) Sample.stride_example 1000 7 s
      = ICC.Return (Failure "Invalid stride") (ICC.mk_ustate (replicate 128 0) cp 135))
     /\ (1000 <= 4 * stride ->
         ICC.main_body (H := Sample.common) Sample.stride_example 1000 7 s
         = ICC.Return (Failure "Invalid stride") (ICC.mk_ustate (replicate 128 0) cp 135))
     /\ (1 <= stride -> 4 * stride < 128 ->
         ICC.main_body (H := Sample.common) Sample.stride_example 1000 7 s
         = ICC.predict_data Sample.stride_example 7
             (ICC.mk_ustate (replicate 128 0) (4 + 1) 135) cp stride 1 0))
  /\
  (Z.land 16 16 = 0 ->
   (128 <= 4 * 1 ->
    ICC.main_body (H := Sample.common) Sample.stride_example 1000 7 s
    = ICC.Return (Failure "Invalid stride")
        (ICC.mk_ustate (replicate 128 0) (4 + 2) 135))
   /\ (4 * 1 < 128 ->
       ICC.main_body (H := Sample.common) Sample.stride_example 1000 7 s
       = ICC.predict_data Sample.stride_example 7
           (ICC.mk_ustate (replicate 128 0) (4 + 1) 135) (4 + 2) 1 1 0)).
Proof.
  intros s.
  apply (predict_stride_check (H := Sample.common) Sample.stride_example 1000 7 s 16 1 0);
    try reflexivity; try discriminate; simpl; lia.
Defined.

(** ** [ICCReader::Process]: the expansion bound *)

Section float.
Import Reader.

Lemma float_of_Z_small z : z < 2 ^ 24 -> float_of_Z z = z.
Proof.
  intros Hz. unfold float_of_Z.
  replace (z <? 2 ^ 24) with true by (symmetry; apply Z.ltb_lt; lia).
  reflexivity.
Qed.

Lemma float_of_Z_exact i :
  0 <= i <= 2 ^ 28 -> i mod 65536 = 0 -> float_of_Z i = i.
Proof.
  intros Hi Hmod. unfold float_of_Z.
  destruct (i <? 2 ^ 24) eqn:E; [reflexivity|]. apply Z.ltb_ge in E.
  assert (24 <= Z.log2 i <= 28) as Hlog.
  { split.
    - change 24 with (Z.log2 (2 ^ 24)). apply Z.log2_le_mono. lia.
    - change 28 with (Z.log2 (2 ^ 28)). apply Z.log2_le_mono. lia. }
  set (e := Z.log2 i - 23) in *.
  assert (0 < 2 ^ e) as Hpe by (apply Z.pow_pos_nonneg; lia).
  assert (0 < 2 ^ (e - 1)) as Hph by (apply Z.pow_pos_nonneg; lia).
  assert (i mod 2 ^ e = 0) as Hr.
  { apply Z.mod_divide; [lia|].
    apply Z.divide_trans with 65536.
    - exists (2 ^ (16 - e)). rewrite <- Z.pow_add_r by lia.
      replace (16 - e + e) with 16 by lia. reflexivity.
    - apply Z.mod_divide; [lia|assumption]. }
  rewrite Hr.
  replace (0 <? 2 ^ (e - 1)) with true by (symmetry; apply Z.ltb_lt; lia).
  pose proof (Z.div_mod i (2 ^ e) ltac:(lia)). lia.
Qed.

Lemma float_of_Z_large z : 2 ^ 24 <= z -> 2 ^ 24 <= float_of_Z z.
Proof.
  intros Hz. unfold float_of_Z.
  replace (z <? 2 ^ 24) with false by (symmetry; apply Z.ltb_ge; lia).
  assert (24 <= Z.log2 z) as Hlog.
  { change 24 with (Z.log2 (2 ^ 24)). apply Z.log2_le_mono. lia. }
  set (e := Z.log2 z - 23) in *.
  assert (2 <= 2 ^ e) as Hpe.
  { change 2 with (2 ^ 1) at 1. apply Z.pow_le_mono_r; lia. }
  assert (2 ^ 23 <= z / 2 ^ e) as Hq.
  { apply Z.div_le_lower_bound; [lia|].
    rewrite <- Z.pow_add_r by lia. replace (e + 23) with (Z.log2 z) by lia.
    apply Z.log2_spec. lia. }
  repeat match goal with |- context [if ?b then _ else _] => destruct b end; nia.
Qed.

Lemma expansion_exceeded_exact i bits :
  0 <= bits -> 0 < i <= 2 ^ 28 -> Z.land i 0xFFFF = 0 ->
  expansion_exceeded i bits = (256 * bits <? 8 * i).
Proof.
  intros Hb Hi Hland. unfold expansion_exceeded.
  change 0xFFFF with (Z.ones 16) in Hland. rewrite Z.land_ones in Hland by lia.
  rewrite (float_of_Z_exact i) by (lia || exact Hland).
  destruct (Z_lt_dec bits (2 ^ 24)) as [Hs|Hl].
  - rewrite float_of_Z_small by assumption.
    destruct (32 * bits <? i) eqn:E1; destruct (256 * bits <? 8 * i) eqn:E2;
      try reflexivity; rewrite ?Z.ltb_lt, ?Z.ltb_ge in *; lia.
  - pose proof (float_of_Z_large bits ltac:(lia)).
    destruct (32 * float_of_Z bits <? i) eqn:E1;
      destruct (256 * bits <? 8 * i) eqn:E2;
      try reflexivity; rewrite ?Z.ltb_lt, ?Z.ltb_ge in *; lia.
Qed.

End float.

Section expansion.
Import BitIO ICC Reader.
Context `{ICCCommon} `{ANSDecoder}.

Lemma check_and_restore_OK st r cp st' :
  check_and_restore st r cp = (OK, st') ->
  st' = st /\ AllReadsWithinBounds r = true.
Proof.
  unfold check_and_restore, CheckEOI.
  destruct (AllReadsWithinBounds r); [|discriminate].
  intros [= <-]. split; reflexivity.
Qed.

Lemma check_and_restore_fail st r cp e st' :
  check_and_restore st r cp = (e, st') -> e <> OK ->
  e = NotEnoughBytes "Not enough bytes for reading ICC profile"
  /\ AllReadsWithinBounds r = false
  /\ st' = mk_ICCReader (enc_size_ st) (cp_i cp) (bits_to_skip_ st)
             (used_bits_base_ st) (decompressed_ st) (code_ st) (cp_ans cp).
Proof.
  unfold check_and_restore, CheckEOI.
  destruct (AllReadsWithinBounds r); [intros [= <- <-]; contradiction|].
  intros [= <- <-] _. repeat split.
Qed.

(** The outcomes of the checkpoint block. *)
Lemma checkpoint_block_cases garbage st r cp :
  let chk := (i_ st mod kMaxCheckpointInterval =? 0) && (0 <? i_ st) in
  let st1 := (save st r).1 in
  let cp1 := (save st r).2 in
  let bits := u64 (TotalBitsConsumed r - used_bits_base_ st) in
  checkpoint_block garbage st r cp =
    if chk then
      if AllReadsWithinBounds r then
        if (0 <? i_ st) && (Z.land (i_ st) 0xFFFF =? 0) && expansion_exceeded (i_ st) bits
        then Exit (Failure "Corrupted stream") st1 r cp1
        else Next (set_decompressed st1
                     (resize garbage (Z.min (i_ st + 0x400) (enc_size_ st))
                        (decompressed_ st))) r cp1
      else Exit (NotEnoughBytes "Not enough bytes for reading ICC profile")
             (mk_ICCReader (enc_size_ st) (cp_i cp) (bits_to_skip_ st)
                (used_bits_base_ st) (decompressed_ st) (code_ st) (cp_ans cp))
             r cp
    else Next st r cp.
Proof.
  unfold checkpoint_block, check_and_restore, CheckEOI.
  destruct ((i_ st mod kMaxCheckpointInterval =? 0) && (0 <? i_ st)); [|reflexivity].
  destruct (AllReadsWithinBounds r); reflexivity.
Qed.

Lemma read_symbol_fields st r b1 b2 st' r' :
  read_symbol st r b1 b2 = Some (st', r') ->
  i_ st' = i_ st /\ enc_size_ st' = enc_size_ st
  /\ used_bits_base_ st' = used_bits_base_ st
  /\ bits_to_skip_ st' = bits_to_skip_ st /\ code_ st' = code_ st.
Proof.
  unfold read_symbol.
  destruct (run _ r) as [[v ans'] r1].
  destruct (zset _ _ _); [|discriminate].
  intros [= <- <-]. repeat split.
Qed.

Lemma process_body_Next garbage st r cp st' r' cp' :
  process_body garbage st r cp = Some (Next st' r' cp') ->
  i_ st' = i_ st /\ enc_size_ st' = enc_size_ st
  /\ used_bits_base_ st' = used_bits_base_ st /\ code_ st' = code_ st.
Proof.
  unfold process_body, symbol_step. rewrite checkpoint_block_cases.
  destruct ((i_ st mod kMaxCheckpointInterval =? 0) && (0 <? i_ st)).
  - destruct (AllReadsWithinBounds r); [|discriminate].
    destruct ((0 <? i_ st) && (Z.land (i_ st) 65535 =? 0) && _); [discriminate|].
    cbn [i_ set_decompressed save fst set_bits_to_skip].
    destruct (i_ st <? 2); [discriminate|].
    destruct (read_symbol _ _ _ _) as [[st2 r2]|] eqn:E; [|discriminate].
    intros [= <- <- <-]. apply read_symbol_fields in E. simpl in E. tauto.
  - destruct (i_ st <? 2); [discriminate|].
    destruct (read_symbol _ _ _ _) as [[st2 r2]|] eqn:E; [|discriminate].
    intros [= <- <- <-]. apply read_symbol_fields in E. tauto.
Qed.

Lemma process_body_corrupted garbage st r cp st' r' cp' :
  process_body garbage st r cp = Some (Exit (Failure "Corrupted stream") st' r' cp') ->
  i_ st' = i_ st /\ used_bits_base_ st' = used_bits_base_ st /\ r' = r
  /\ 0 < i_ st /\ i_ st mod kMaxCheckpointInterval = 0
  /\ Z.land (i_ st) 0xFFFF = 0 /\ AllReadsWithinBounds r = true
  /\ expansion_exceeded (i_ st) (u64 (TotalBitsConsumed r - used_bits_base_ st)) = true.
Proof.
  unfold process_body, symbol_step. rewrite checkpoint_block_cases.
  destruct ((i_ st mod kMaxCheckpointInterval =? 0) && (0 <? i_ st)) eqn:Echk.
  - apply andb_true_iff in Echk as [E1 E2].
    apply Z.eqb_eq in E1. apply Z.ltb_lt in E2.
    destruct (AllReadsWithinBounds r); [|discriminate].
    destruct ((0 <? i_ st) && (Z.land (i_ st) 65535 =? 0) && _) eqn:Eexp.
    + intros [= <- <- <-].
      apply andb_true_iff in Eexp as [Eexp E5].
      apply andb_true_iff in Eexp as [E3 E4]. apply Z.eqb_eq in E4.
      repeat split; assumption.
    + destruct (i_ _ <? 2); [discriminate|].
      destruct (read_symbol _ _ _ _) as [[st2 r2]|]; discriminate.
  - destruct (i_ st <? 2); [discriminate|].
    destruct (read_symbol _ _ _ _) as [[st2 r2]|]; discriminate.
Qed.

(** C9: the expansion bound of [ICCReader::Process].  At an iteration whose
    index is a positive multiple of 65536 and of the checkpoint interval,
    the reader being within bounds: if the number of bytes decompressed so
    far exceeds 256 times the number of bytes consumed ([bits / 8]), the
    loop exits with "Corrupted stream"; otherwise the check passes and the
    iteration goes on.  Conversely the loop exits with "Corrupted stream"
    only at such an iteration where the bound is exceeded.  Indices are at
    most [2^28], the limit that [Init] puts on the encoded size. *)
Theorem expansion_bound garbage :
  (forall (count : nat) st r cp,
     0 < i_ st <= 2 ^ 28 ->
     i_ st mod kMaxCheckpointInterval = 0 ->
     Z.land (i_ st) 0xFFFF = 0 ->
     AllReadsWithinBounds r = true ->
     let bits := u64 (TotalBitsConsumed r - used_bits_base_ st) in
     (256 * bits < 8 * i_ st ->
      process_loop garbage (S count) st r cp
      = Some (Exit (Failure "Corrupted stream") (save st r).1 r (save st r).2))
     /\ (8 * i_ st <= 256 * bits ->
         checkpoint_block garbage st r cp
         = Next (set_decompressed (save st r).1
                   (resize garbage (Z.min (i_ st + 0x400) (enc_size_ st))
                      (decompressed_ st)))
             r (save st r).2))
  /\
  (forall (count : nat) st r cp st' r' cp',
     i_ st + Z.of_nat count <= 2 ^ 28 ->
     process_loop garbage count st r cp
     = Some (Exit (Failure "Corrupted stream") st' r' cp') ->
     0 < i_ st' /\ i_ st' mod kMaxCheckpointInterval = 0
     /\ Z.land (i_ st') 0xFFFF = 0
     /\ AllReadsWithinBounds r' = true
     /\ 256 * u64 (TotalBitsConsumed r' - used_bits_base_ st') < 8 * i_ st').
Proof.
  split.
  - intros count st r cp Hi Hmod Hland Hin bits.
    assert (0 <= bits) as Hb by (unfold bits, u64; apply Z.mod_pos_bound; lia).
    pose proof (expansion_exceeded_exact (i_ st) bits Hb Hi Hland) as Hex.
    pose proof (checkpoint_block_cases garbage st r cp) as Hblk.
    cbv zeta in Hblk. fold bits in Hblk.
    rewrite Hmod, Hin, Hland, Hex in Hblk.
    replace (0 <? i_ st) with true in Hblk by (symmetry; apply Z.ltb_lt; lia).
    cbn [Z.eqb andb] in Hblk.
    split.
    + intros Hlt.
      replace (256 * bits <? 8 * i_ st) with true in Hblk
        by (symmetry; apply Z.ltb_lt; lia).
      cbn [process_loop]. unfold process_body. rewrite Hblk. reflexivity.
    + intros Hge.
      replace (256 * bits <? 8 * i_ st) with false in Hblk
        by (symmetry; apply Z.ltb_ge; lia).
      exact Hblk.
  - induction count as [|count IH]; intros st r cp st' r' cp' Hbound Hrun.
    + discriminate.
    + cbn [process_loop] in Hrun.
      destruct (process_body garbage st r cp) as [[st1 r1 cp1|e st1 r1 cp1]|] eqn:Hb;
        [| |discriminate].
      * apply process_body_Next in Hb as (Hi1 & _).
        apply IH in Hrun; [exact Hrun|]. cbn [i_ set_i]. lia.
      * injection Hrun as -> -> -> ->.
        apply process_body_corrupted in Hb
          as (Hi' & Hbase & -> & Hpos & Hmod & Hland & Hin & Hex).
        rewrite Hi', Hbase. repeat split; try assumption.
        rewrite expansion_exceeded_exact in Hex.
        -- apply Z.ltb_lt in Hex. exact Hex.
        -- unfold u64. apply Z.mod_pos_bound. lia.
        -- lia.
        -- assumption.
Qed.

End expansion.

Lemma expansion_bound_witness :
  let st := Sample.expansion_example in
  let r := BitIO.mk_reader [] 0 in
  let r2 := BitIO.mk_reader (replicate 256 0) 2048 in
  let cp := Reader.mk_checkpoint 0 0 in
  Reader.process_loop Sample.zero_fill 1 st r cp
  = Some (Reader.Exit (Failure "Corrupted stream")
            (Reader.save st r).1 r (Reader.save st r).2)
  /\ Reader.checkpoint_block Sample.zero_fill st r2 cp
     = Reader.Next
         (Reader.set_decompressed (Reader.save st r2).1
            (Reader.resize Sample.zero_fill (Z.min (65536 + 0x400) 70000) []))
         r2 (Reader.save st r2).2
  /\ (0 < 65536 /\ 65536 mod 512 = 0 /\ Z.land 65536 0xFFFF = 0
      /\ BitIO.AllReadsWithinBounds r = true
      /\ 256 * u64 (0 - 0) < 8 * 65536).
Proof.
  intros st r r2 cp.
  destruct (expansion_bound (H0 := Sample.raw_bytes) Sample.zero_fill)
    as [Hmust Honly].
  assert (Reader.process_loop Sample.zero_fill 1 st r cp
          = Some (Reader.Exit (Failure "Corrupted stream")
                    (Reader.save st r).1 r (Reader.save st r).2)) as Hexit.
  { apply (Hmust 0%nat st r cp); [simpl; lia|reflexivity|reflexivity|reflexivity|].
    vm_compute. reflexivity. }
  split; [exact Hexit|]. split.
  - apply (Hmust 0%nat st r2 cp); [simpl; lia|reflexivity|reflexivity|reflexivity|].
    vm_compute. discriminate.
  - apply (Honly 1%nat st r cp (Reader.save st r).1 r (Reader.save st r).2);
      [simpl; lia|exact Hexit].
Defined.

(** ** The bit reader *)

Section bitio.
Import BitIO.

Lemma bit_at_app pre rest p :
  0 <= p < 8 * Z.of_nat (length pre) ->
  bit_at (pre ++ rest) p = bit_at pre p.
Proof.
  intros Hp. unfold bit_at. rewrite length_app.
  replace (p <? 8 * Z.of_nat (length pre + length rest)) with true
    by (symmetry; apply Z.ltb_lt; lia).
  replace (p <? 8 * Z.of_nat (length pre)) with true
    by (symmetry; apply Z.ltb_lt; lia).
  rewrite app_nth1; [reflexivity|].
  assert (p / 8 < Z.of_nat (length pre)) by (apply Z.div_lt_upper_bound; lia).
  assert (0 <= p / 8) by (apply Z.div_pos; lia). lia.
Qed.

Lemma peek_bits_app pre rest :
  forall (n : nat) p,
    0 <= p -> p + Z.of_nat n <= 8 * Z.of_nat (length pre) ->
    peek_bits n (pre ++ rest) p = peek_bits n pre p.
Proof.
  induction n as [|n IH]; intros p Hp Hfit.
  - reflexivity.
  - cbn [peek_bits]. rewrite bit_at_app by lia. rewrite IH by lia. reflexivity.
Qed.

Lemma run_pos {A} (prog : rd A) :
  forall r, br_pos r <= br_pos (run prog r).2
            /\ br_bytes (run prog r).2 = br_bytes r.
Proof.
  induction prog as [a|n k IH]; intros r.
  - simpl. split; [lia|reflexivity].
  - cbn [run ReadBits].
    specialize (IH (peek_bits n (br_bytes r) (br_pos r))
                  (mk_reader (br_bytes r) (br_pos r + Z.of_nat n))).
    simpl in IH. split; [lia|tauto].
Qed.

(** Reads that stay within the bounds of an input see nothing of what
    follows it. *)
Lemma run_extend {A} (prog : rd A) rest :
  forall r,
    0 <= br_pos r ->
    AllReadsWithinBounds (run prog r).2 = true ->
    run prog (extend rest r) = ((run prog r).1, extend rest (run prog r).2).
Proof.
  induction prog as [a|n k IH]; intros r Hpos Hin.
  - reflexivity.
  - cbn [run ReadBits] in *. cbn [extend br_bytes br_pos].
    set (v := peek_bits n (br_bytes r) (br_pos r)) in *.
    set (r1 := mk_reader (br_bytes r) (br_pos r + Z.of_nat n)) in *.
    pose proof (run_pos (k v) r1) as [Hmono Hbytes].
    unfold AllReadsWithinBounds in Hin. apply Z.leb_le in Hin.
    rewrite Hbytes in Hin. simpl in Hmono, Hin.
    rewrite peek_bits_app by lia. fold v.
    change (mk_reader (br_bytes r ++ rest) (br_pos r + Z.of_nat n))
      with (extend rest r1).
    apply IH.
    + simpl. lia.
    + unfold AllReadsWithinBounds. apply Z.leb_le. rewrite Hbytes. simpl. lia.
Qed.

Lemma extend_nil r : extend [] r = r.
Proof. destruct r. unfold extend. simpl. rewrite app_nil_r. reflexivity. Qed.

Lemma extend_in_bounds rest r :
  AllReadsWithinBounds r = true -> AllReadsWithinBounds (extend rest r) = true.
Proof.
  unfold AllReadsWithinBounds, extend. simpl. rewrite !Z.leb_le, length_app. lia.
Qed.

End bitio.

(** ** States that differ in the unread part of [decompressed_] *)

Section sim.
Import BitIO ICC Reader.
Context `{ICCCommon} `{ANSDecoder}.

Lemma resize_length g n l : length (resize g n l) = Z.to_nat n.
Proof.
  unfold resize. rewrite length_app, length_take, length_map, length_seqZ. lia.
Qed.

Lemma resize_id g n (l : list Z) : Z.of_nat (length l) = n -> resize g n l = l.
Proof.
  intros <-. unfold resize. rewrite Nat2Z.id, firstn_all, Z.sub_diag.
  simpl. apply app_nil_r.
Qed.

Lemma resize_take g g' n (l l' : list Z) (i : nat) :
  length l = length l' -> take i l = take i l' -> (i <= length l)%nat ->
  take i (resize g n l) = take i (resize g' n l').
Proof.
  intros Hlen Htake Hi. unfold resize.
  destruct (le_lt_dec i (Z.to_nat n)) as [Hle|Hgt].
  - rewrite !take_app_le by (rewrite length_take; lia).
    rewrite !take_take. replace (i `min` Z.to_nat n)%nat with i by lia.
    exact Htake.
  - replace (n - Z.of_nat (length l)) with (- (Z.of_nat (length l) - n)) by lia.
    replace (n - Z.of_nat (length l')) with (- (Z.of_nat (length l') - n)) by lia.
    assert (forall m z, 0 <= z -> seqZ m (- z) = []) as Hnil.
    { intros m z Hz. unfold seqZ. replace (Z.to_nat (- z)) with 0%nat by lia.
      reflexivity. }
    rewrite !Hnil by lia. simpl. rewrite !app_nil_r.
    f_equal.
    assert (take (Z.to_nat n) (take i l) = take (Z.to_nat n) (take i l')) as X
      by (rewrite Htake; reflexivity).
    rewrite !take_take in X.
    replace (Z.to_nat n `min` i)%nat with (Z.to_nat n) in X by lia. exact X.
Qed.

Lemma take_nth_eq (l l' : list Z) (i j : nat) :
  take i l = take i l' -> (j < i)%nat -> nth j l 0 = nth j l' 0.
Proof.
  intros Htake Hj.
  rewrite <- (firstn_skipn i l), <- (firstn_skipn i l').
  assert (length (take i l) = length (take i l')) as Hlen by (rewrite Htake; reflexivity).
  destruct (le_lt_dec (length (take i l)) j) as [Hle|Hlt].
  - (* both lists are shorter than i, hence equal to their prefixes *)
    rewrite length_take in Hle.
    assert (length l <= j)%nat as Hl by lia.
    assert (length l' <= j)%nat as Hl'.
    { rewrite !length_take in Hlen. lia. }
    rewrite !firstn_skipn. rewrite !nth_overflow by lia. reflexivity.
  - rewrite !app_nth1 by (rewrite <- ?Hlen; assumption).
    rewrite Htake. reflexivity.
Qed.

Lemma sim_refl a : sim a a.
Proof. unfold sim. tauto. Qed.

Lemma sim_sym a b : sim a b -> sim b a.
Proof.
  unfold sim. intros (E1 & E2 & E3 & E4 & E5 & E6 & E7).
  rewrite <- E2. repeat split; congruence.
Qed.

Lemma sim_trans a b c : sim a b -> sim b c -> sim a c.
Proof.
  unfold sim. intros (E1 & E2 & E3 & E4 & E5 & E6 & E7)
    (F1 & F2 & F3 & F4 & F5 & F6 & F7).
  rewrite <- E2 in F7. repeat split; congruence.
Qed.

End sim.

Section steps.
Import BitIO ICC Reader.
Context `{ICCCommon} `{ANSDecoder}.

Lemma take_S_insert (l : list Z) :
  forall (i : nat) x,
    (i < length l)%nat -> take (S i) (<[i := x]> l) = take i l ++ [x].
Proof.
  induction l as [|y l IH]; intros i x Hi.
  - simpl in Hi. lia.
  - destruct i as [|i].
    + reflexivity.
    + cbn [length] in Hi. change (<[S i := x]> (y :: l)) with (y :: <[i := x]> l).
      change (take (S (S i)) (y :: <[i := x]> l))
        with (y :: take (S i) (<[i := x]> l)).
      change (take (S i) (y :: l)) with (y :: take i l).
      cbn [app]. f_equal. apply IH. lia.
Qed.

(** The checkpoint block on two similar states, the readers being at the
    same position and agreeing on being within bounds. *)
Lemma block_sim ga gb a b r rb cpa cpb :
  sim a b -> wf_state a -> i_ a < enc_size_ a ->
  TotalBitsConsumed rb = TotalBitsConsumed r ->
  AllReadsWithinBounds rb = AllReadsWithinBounds r ->
  match checkpoint_block ga a r cpa with
  | Next a1 r1 cpa1 =>
      r1 = r
      /\ exists b1 cpb1,
           checkpoint_block gb b rb cpb = Next b1 rb cpb1
           /\ sim a1 b1 /\ wf_state a1 /\ i_ a1 = i_ a
           /\ enc_size_ a1 = enc_size_ a
  | Exit e a1 r1 cpa1 =>
      exists b1 cpb1, checkpoint_block gb b rb cpb = Exit e b1 rb cpb1
  end.
Proof.
  intros Hsim Hwf Hlt Hpos Hbnd.
  pose proof Hsim as (E1 & E2 & E3 & E4 & E5 & E6 & E7).
  destruct Hwf as [[Hi0 Hil] Hle].
  rewrite (checkpoint_block_cases ga a r cpa).
  rewrite (checkpoint_block_cases gb b rb cpb).
  cbv zeta. rewrite <- E1, <- E2, <- E3, Hpos, Hbnd.
  destruct ((i_ a mod kMaxCheckpointInterval =? 0) && (0 <? i_ a)).
  - destruct (AllReadsWithinBounds r).
    + destruct ((0 <? i_ a) && (Z.land (i_ a) 65535 =? 0) && _).
      * eexists _, _. reflexivity.
      * split; [reflexivity|]. eexists _, _. split; [reflexivity|].
        unfold sim, wf_state.
        cbn -[resize Z.min Z.to_nat take Z.add Z.sub].
        rewrite !resize_length.
        repeat split; try assumption; try lia.
        apply resize_take; [assumption|assumption|lia].
    + eexists _, _. reflexivity.
  - split; [reflexivity|]. eexists _, _. split; [reflexivity|].
    repeat split; assumption.
Qed.

(** The symbol step on two similar states; [f] relates the two readers. *)
Lemma symbol_sim (f : BitReader -> BitReader) (okr : BitReader -> Prop)
    a b r cpa cpb :
  (forall A (prog : rd A),
     okr (run prog r).2 -> run prog (f r) = ((run prog r).1, f (run prog r).2)) ->
  sim a b -> wf_state a ->
  match symbol_step a r cpa with
  | None => symbol_step b (f r) cpb = None
  | Some (Exit e _ _ _) =>
      exists b1, symbol_step b (f r) cpb = Some (Exit e b1 (f r) cpb)
  | Some (Next a1 r1 cpa1) =>
      okr r1 ->
      exists b1,
        symbol_step b (f r) cpb = Some (Next b1 (f r1) cpb)
        /\ sim (set_i a1 (i_ a1 + 1)) (set_i b1 (i_ b1 + 1))
        /\ wf_state (set_i a1 (i_ a1 + 1))
        /\ i_ a1 = i_ a /\ enc_size_ a1 = enc_size_ a
        /\ length (decompressed_ a1) = length (decompressed_ a)
        /\ take (Z.to_nat (i_ a)) (decompressed_ a1)
           = take (Z.to_nat (i_ a)) (decompressed_ a)
        /\ used_bits_base_ a1 = used_bits_base_ a
        /\ bits_to_skip_ a1 = bits_to_skip_ a
        /\ code_ a1 = code_ a /\ cpa1 = cpa
  end.
Proof.
  intros Hrun Hsim Hwf.
  pose proof Hsim as (E1 & E2 & E3 & E4 & E5 & E6 & E7).
  destruct Hwf as [[Hi0 Hil] Hle].
  unfold symbol_step. rewrite <- E2.
  destruct (i_ a <? 2) eqn:Ei.
  { eexists. reflexivity. }
  apply Z.ltb_ge in Ei.
  assert (byte_at (decompressed_ b) (i_ a - 1) = byte_at (decompressed_ a) (i_ a - 1)) as ->.
  { unfold byte_at. symmetry. apply (take_nth_eq _ _ (Z.to_nat (i_ a))); [assumption|lia]. }
  assert (byte_at (decompressed_ b) (i_ a - 2) = byte_at (decompressed_ a) (i_ a - 2)) as ->.
  { unfold byte_at. symmetry. apply (take_nth_eq _ _ (Z.to_nat (i_ a))); [assumption|lia]. }
  unfold read_symbol. rewrite <- E1, <- E2, <- E3, <- E4, <- E5.
  set (prog := ReadHybridUint (code_ a) (ans_reader_ a)
                 (ICCANSContext (i_ a) (byte_at (decompressed_ a) (i_ a - 1))
                    (byte_at (decompressed_ a) (i_ a - 2)))) in *.
  specialize (Hrun _ prog).
  destruct (run prog r) as [[v ans'] r1] eqn:Er. cbn [fst snd] in Hrun.
  unfold zset. rewrite <- E6.
  destruct (decide (0 <= i_ a < Z.of_nat (length (decompressed_ a)))) as [Hin|Hout].
  - intros Hok. rewrite (Hrun Hok).
    eexists. split; [reflexivity|].
    unfold sim, wf_state.
    cbn -[Z.to_nat take Z.add Z.sub].
    rewrite !length_insert.
    replace (Z.to_nat (i_ a + 1)) with (S (Z.to_nat (i_ a))) by lia.
    rewrite !take_S_insert by lia.
    repeat split; try assumption; try lia; try congruence.
    apply take_insert_ge; lia.
  - destruct (run prog (f r)) as [[v' ans''] r1']. reflexivity.
Qed.

(** One iteration on two similar states. *)
Lemma body_sim (f : BitReader -> BitReader) (okr : BitReader -> Prop)
    ga gb a b r cpa cpb :
  (forall A (prog : rd A),
     okr (run prog r).2 -> run prog (f r) = ((run prog r).1, f (run prog r).2)) ->
  TotalBitsConsumed (f r) = TotalBitsConsumed r ->
  AllReadsWithinBounds (f r) = AllReadsWithinBounds r ->
  sim a b -> wf_state a -> i_ a < enc_size_ a ->
  match process_body ga a r cpa with
  | None => process_body gb b (f r) cpb = None
  | Some (Exit e _ _ _) =>
      exists b1 cpb1, process_body gb b (f r) cpb = Some (Exit e b1 (f r) cpb1)
  | Some (Next a1 r1 cpa1) =>
      okr r1 ->
      exists b1 cpb1,
        process_body gb b (f r) cpb = Some (Next b1 (f r1) cpb1)
        /\ sim (set_i a1 (i_ a1 + 1)) (set_i b1 (i_ b1 + 1))
        /\ wf_state (set_i a1 (i_ a1 + 1))
        /\ i_ a1 = i_ a /\ enc_size_ a1 = enc_size_ a
  end.
Proof.
  intros Hrun Hpos Hbnd Hsim Hwf Hlt.
  pose proof (block_sim ga gb a b r (f r) cpa cpb Hsim Hwf Hlt Hpos Hbnd) as Hblk.
  unfold process_body.
  destruct (checkpoint_block ga a r cpa) as [a1 r1 cpa1|e a1 r1 cpa1].
  - destruct Hblk as (-> & b1 & cpb1 & -> & Hsim1 & Hwf1 & Hi1 & He1).
    pose proof (symbol_sim f okr a1 b1 r cpa1 cpb1 Hrun Hsim1 Hwf1) as Hsym.
    destruct (symbol_step a1 r cpa1) as [[a2 r2 cpa2|e a2 r2 cpa2]|].
    + intros Hok. destruct (Hsym Hok) as (b2 & -> & Hsim2 & Hwf2 & Hi2 & He2 & _).
      exists b2, cpb1. split; [reflexivity|]. split; [exact Hsim2|].
      split; [exact Hwf2|]. split; congruence.
    + destruct Hsym as (b2 & ->). eexists _, _. reflexivity.
    + exact Hsym.
  - destruct Hblk as (b1 & cpb1 & ->). eexists _, _. reflexivity.
Qed.

(** Similar states give the same outcome, whatever the checkpoint
    variables and the contents of uninitialised bytes. *)
Lemma sim_from ga gb icc :
  forall (count : nat) a b r cpa cpb,
    sim a b -> wf_state a ->
    count = Z.to_nat (enc_size_ a - i_ a) ->
    outcome (process_from ga count a r cpa icc)
    = outcome (process_from gb count b r cpb icc).
Proof.
  induction count as [|count IH]; intros a b r cpa cpb Hsim Hwf Hcount.
  - unfold process_from. cbn [process_loop]. unfold process_tail.
    pose proof Hsim as (E1 & E2 & E3 & E4 & E5 & E6 & E7).
    destruct Hwf as [[Hi0 Hil] Hle].
    unfold check_and_restore, CheckEOI.
    destruct (AllReadsWithinBounds r); [|reflexivity].
    cbn [set_bits_to_skip ans_reader_ decompressed_]. rewrite <- E5.
    destruct (negb (CheckANSFinalState (ans_reader_ a))); [reflexivity|].
    assert (decompressed_ a = decompressed_ b) as <-.
    { rewrite <- (take_ge (decompressed_ a) (Z.to_nat (i_ a))) by lia.
      rewrite <- (take_ge (decompressed_ b) (Z.to_nat (i_ a))) by lia.
      exact E7. }
    destruct (UnpredictICC_run (decompressed_ a) []) as [[st u]|]; reflexivity.
  - pose proof (body_sim (fun x => x) (fun _ => True) ga gb a b r cpa cpb
                  ltac:(intros A prog _; destruct (run prog r); reflexivity)
                  eq_refl eq_refl Hsim Hwf ltac:(lia)) as Hbody.
    unfold process_from. cbn [process_loop].
    destruct (process_body ga a r cpa) as [[a1 r1 cpa1|e a1 r1 cpa1]|].
    + destruct (Hbody I) as (b1 & cpb1 & -> & Hsim1 & Hwf1 & Hi1 & He1).
      apply (IH _ _ r1 cpa1 cpb1 Hsim1 Hwf1).
      cbn [set_i enc_size_ i_]. lia.
    + destruct Hbody as (b1 & cpb1 & ->). reflexivity.
    + rewrite Hbody. reflexivity.
Qed.

Lemma process_from_S g (c : nat) st r cp icc :
  process_from g (S c) st r cp icc =
  match process_body g st r cp with
  | Some (Next st' r' cp') => process_from g c (set_i st' (i_ st' + 1)) r' cp' icc
  | Some (Exit e st' r' _) => Some (e, st', r', icc)
  | None => None
  end.
Proof.
  unfold process_from. cbn [process_loop].
  destruct (process_body g st r cp) as [[st' r' cp'|e st' r' cp']|]; reflexivity.
Qed.

(** The checkpoint block changes nothing when it is run a second time. *)
Lemma block_idem ga gb S r cp S1 r1 cp1 cp' :
  checkpoint_block ga S r cp = Next S1 r1 cp1 ->
  wf_state S -> i_ S < enc_size_ S ->
  r1 = r /\ wf_state S1 /\ i_ S1 = i_ S /\ enc_size_ S1 = enc_size_ S
  /\ exists S1' cp1',
       checkpoint_block gb S1 r cp' = Next S1' r cp1' /\ sim S1 S1'.
Proof.
  intros Hblk [[Hi0 Hil] Hle] Hlt.
  rewrite checkpoint_block_cases in Hblk.
  rewrite (checkpoint_block_cases gb S1 r cp').
  cbv zeta in *.
  destruct ((i_ S mod kMaxCheckpointInterval =? 0) && (0 <? i_ S)) eqn:Echk.
  - destruct (AllReadsWithinBounds r) eqn:Ein; [|discriminate].
    destruct ((0 <? i_ S) && (Z.land (i_ S) 65535 =? 0) && _) eqn:Eexp;
      [discriminate|].
    injection Hblk as <- <- <-.
    cbn -[resize Z.min Z.to_nat take Z.add Z.sub u64].
    rewrite Echk, Eexp.
    split; [reflexivity|]. split; [|split; [reflexivity|split; [reflexivity|]]].
    + unfold wf_state. cbn -[resize Z.min Z.to_nat take Z.add Z.sub u64].
      rewrite resize_length. lia.
    + eexists _, _. split; [reflexivity|].
      rewrite (resize_id gb) by (rewrite resize_length; lia).
      unfold sim. cbn -[resize Z.min Z.to_nat take Z.add Z.sub u64]. tauto.
  - injection Hblk as <- <- <-. rewrite Echk.
    split; [reflexivity|]. split; [unfold wf_state; lia|].
    split; [reflexivity|]. split; [reflexivity|].
    eexists _, _. split; [reflexivity|apply sim_refl].
Qed.

(** Running the loop from the state that the checkpoint block produces
    gives the outcome of running it from the state before the block. *)
Lemma from_block_idem ga gb (c : nat) S r cp S1 r1 cp1 cp' icc :
  checkpoint_block ga S r cp = Next S1 r1 cp1 ->
  wf_state S -> Datatypes.S c = Z.to_nat (enc_size_ S - i_ S) ->
  outcome (process_from gb (Datatypes.S c) S1 r cp' icc)
  = outcome (process_from ga (Datatypes.S c) S r cp icc).
Proof.
  intros Hblk Hwf Hc.
  destruct (block_idem ga gb S r cp S1 r1 cp1 cp' Hblk Hwf ltac:(lia))
    as (-> & Hwf1 & Hi1 & He1 & S1' & cp1' & Hblk' & Hsim).
  rewrite !process_from_S. unfold process_body. rewrite Hblk, Hblk'.
  pose proof (symbol_sim (fun x => x) (fun _ => True) S1 S1' r cp1 cp1'
                ltac:(intros A prog _; destruct (run prog r); reflexivity)
                Hsim Hwf1) as Hsym.
  destruct (symbol_step S1 r cp1) as [[a2 r2 cpa2|e a2 r2 cpa2]|].
  - destruct (Hsym I) as (b2 & -> & Hsim2 & Hwf2 & Hi2 & He2 & _).
    symmetry. apply sim_from; [assumption|assumption|].
    cbn [set_i enc_size_ i_]. lia.
  - destruct Hsym as (b2 & ->). reflexivity.
  - rewrite Hsym. reflexivity.
Qed.

End steps.

(** ** Resuming [Process] after a truncated input *)

Section resume.
Import BitIO ICC Reader ResumeSpec.
Context `{ICCCommon} `{ANSDecoder}.
Variables (pre rest : list Z) (base : Z) (g1 g2 g3 : Z -> Z) (icc' : list Z).
Variable O : option (Status * list Z).
Hypothesis Hfit : 8 * Z.of_nat (length (pre ++ rest)) < 2 ^ 64.
Hypothesis Hbase : 0 <= base.

Let good_cp := ResumeSpec.good_cp pre rest base g3 icc' O.
Let in_sync := ResumeSpec.in_sync rest g3 icc' O.
Let resume_ok := ResumeSpec.resume_ok pre rest base g2 icc' O.
Let resume_inv := ResumeSpec.resume_inv pre rest base g3 icc' O.

Lemma sim_wf a b : sim a b -> wf_state a -> wf_state b.
Proof.
  unfold sim, wf_state. intros (E1 & E2 & E3 & E4 & E5 & E6 & E7) [[? ?] ?].
  rewrite <- E1, <- E2, <- E6. tauto.
Qed.

Lemma good_cp_resume st cp :
  good_cp st cp -> used_bits_base_ st = base -> resume_ok (restore st cp).
Proof.
  intros (Hcp0 & Hbits & Hin & S & cpS & Hsim & Hwf & Hout) Hb.
  assert (8 * Z.of_nat (length pre) <= 8 * Z.of_nat (length (pre ++ rest)))
    by (rewrite length_app; lia).
  unfold resume_ok, ResumeSpec.resume_ok, Init, CheckEOI, AllReadsWithinBounds.
  cbn [br_pos br_bytes].
  replace (base <=? 8 * Z.of_nat (length (pre ++ rest))) with true
    by (symmetry; apply Z.leb_le; lia).
  cbn [restore bits_to_skip_].
  replace (bits_to_skip_ st =? 0) with false by (symmetry; apply Z.eqb_neq; lia).
  eexists _, _. split; [reflexivity|].
  unfold Process, save, SkipBits, TotalBitsConsumed.
  cbn -[Z.to_nat Z.sub Z.add u64].
  rewrite <- Hout.
  pose proof Hsim as (E1 & E2 & E3 & E4 & E5 & E6 & E7).
  cbn [restore enc_size_ i_] in E1, E2.
  rewrite <- E1, <- E2.
  symmetry. apply sim_from; [|assumption|reflexivity].
  eapply sim_trans; [exact Hsim|].
  unfold sim, restore, set_bits_to_skip. cbn -[Z.to_nat]. rewrite Hb.
  repeat split; (reflexivity || congruence).
Qed.

Lemma in_bounds_pos r :
  br_bytes r = pre -> AllReadsWithinBounds r = true ->
  br_pos r <= 8 * Z.of_nat (length pre).
Proof.
  intros Hb Hin. unfold AllReadsWithinBounds in Hin. apply Z.leb_le in Hin.
  rewrite Hb in Hin. exact Hin.
Qed.

Lemma extend_as_reader r :
  br_bytes r = pre -> extend rest r = mk_reader (pre ++ rest) (br_pos r).
Proof. intros Hb. unfold extend. rewrite Hb. reflexivity. Qed.

(** The uninterrupted decoding follows the checkpoint block. *)
Lemma sync_block (c : nat) st r cp st1 r1 cp1 :
  in_sync st r (S c) -> wf_state st ->
  S c = Z.to_nat (enc_size_ st - i_ st) ->
  checkpoint_block g1 st r cp = Next st1 r1 cp1 ->
  AllReadsWithinBounds r = true ->
  exists S1 cpS1,
    sim S1 st1 /\ wf_state S1
    /\ outcome (process_from g3 (S c) S1 (extend rest r) cpS1 icc') = O
    /\ outcome
         match symbol_step S1 (extend rest r) cpS1 with
         | Some (Next s' r' cp') =>
             process_from g3 c (set_i s' (i_ s' + 1)) r' cp' icc'
         | Some (Exit e s' r' _) => Some (e, s', r', icc')
         | None => None
         end = O.
Proof.
  intros Hsync Hwf Hc Hblk Hin.
  destruct (Hsync Hin) as (S0 & cpS & Hsim & HwfS & Hout).
  pose proof Hsim as (E1 & E2 & _).
  pose proof (block_sim g1 g3 st S0 r (extend rest r) cp cpS
                (sim_sym _ _ Hsim) Hwf ltac:(lia) eq_refl
                ltac:(rewrite Hin; apply extend_in_bounds; exact Hin)) as Hb.
  rewrite Hblk in Hb.
  destruct Hb as (-> & b1 & cpb1 & Hblk3 & Hsim1 & Hwf1 & Hi1 & He1).
  exists b1, cpb1.
  split; [apply sim_sym; exact Hsim1|].
  split; [apply (sim_wf _ _ Hsim1 Hwf1)|].
  split.
  - rewrite <- Hout.
    apply (from_block_idem g3 g3 c S0 (extend rest r) cpS b1 (extend rest r) cpb1);
      [exact Hblk3|exact HwfS|lia].
  - rewrite <- Hout. rewrite process_from_S. unfold process_body.
    rewrite Hblk3. reflexivity.
Qed.

(** The symbol step keeps the invariant. *)
Lemma inv_symbol (c : nat) st1 r cp1 x :
  used_bits_base_ st1 = base -> br_bytes r = pre -> base < br_pos r ->
  S c = Z.to_nat (enc_size_ st1 - i_ st1) ->
  cp_i cp1 <= i_ st1 -> wf_state st1 -> good_cp st1 cp1 ->
  (AllReadsWithinBounds r = true ->
   exists S1 cpS1,
     sim S1 st1 /\ wf_state S1
     /\ outcome
          match symbol_step S1 (extend rest r) cpS1 with
          | Some (Next s' r' cp') =>
              process_from g3 c (set_i s' (i_ s' + 1)) r' cp' icc'
          | Some (Exit e s' r' _) => Some (e, s', r', icc')
          | None => None
          end = O) ->
  symbol_step st1 r cp1 = Some x ->
  match x with
  | Next st' r' cp' => resume_inv (set_i st' (i_ st' + 1)) r' cp' c
  | Exit e st' r' cp' => (exists msg, e = NotEnoughBytes msg) -> resume_ok st'
  end.
Proof.
  intros Hb Hbytes Hpos Hc Hcpi Hwf Hgood Hmid Hsym.
  (* the reader after the step *)
  assert (match x with
          | Next _ r' _ => br_pos r <= br_pos r' /\ br_bytes r' = br_bytes r
          | Exit e _ _ _ => forall msg, e <> NotEnoughBytes msg
          end) as Hreader.
  { unfold symbol_step, read_symbol in Hsym.
    destruct (i_ st1 <? 2); [injection Hsym as <-; discriminate|].
    match type of Hsym with
    | context [run ?p r] =>
        pose proof (run_pos p r) as Hrp; destruct (run p r) as [[v ans'] r1]
    end.
    destruct (zset _ _ _); [|discriminate].
    injection Hsym as <-. exact Hrp. }
  pose proof (symbol_sim (fun y => y) (fun _ => True) st1 st1 r cp1 cp1
                ltac:(intros A prog _; destruct (run prog r); reflexivity)
                (sim_refl st1) Hwf) as Hself.
  rewrite Hsym in Hself.
  destruct x as [st' r' cp'|e st' r' cp'].
  2:{ intros [msg ->]. exfalso. apply (Hreader msg). reflexivity. }
  destruct Hreader as [Hmono Hbytes'].
  destruct (Hself I) as (b1 & _ & _ & Hwf' & Hi' & He' & Hlen' & Htake' & Hb' & Hbits'
                         & Hcode' & ->).
  unfold resume_inv, ResumeSpec.resume_inv.
  cbn [set_i used_bits_base_ enc_size_ i_].
  split; [congruence|]. split; [congruence|]. split; [lia|].
  split; [lia|]. split; [lia|]. split; [exact Hwf'|]. split.
  - (* the checkpoint is still good *)
    destruct Hgood as (Hcp0 & Hbits & Hin & S0 & cpS & Hsim & HwfS & Hout).
    unfold good_cp, ResumeSpec.good_cp. cbn [set_i bits_to_skip_].
    rewrite Hbits'.
    split; [assumption|]. split; [assumption|]. split; [assumption|].
    exists S0, cpS. split; [|split; assumption].
    eapply sim_trans; [exact Hsim|].
    unfold sim, restore. cbn -[Z.to_nat take].
    repeat split; try congruence.
    assert (take (Z.to_nat (cp_i cp1)) (take (Z.to_nat (i_ st1)) (decompressed_ st'))
            = take (Z.to_nat (cp_i cp1)) (take (Z.to_nat (i_ st1)) (decompressed_ st1)))
      as X by (rewrite Htake'; reflexivity).
    rewrite !take_take in X.
    replace (Z.to_nat (cp_i cp1) `min` Z.to_nat (i_ st1))%nat
      with (Z.to_nat (cp_i cp1)) in X by lia.
    symmetry. exact X.
  - (* the uninterrupted decoding follows *)
    intros Hin'.
    assert (AllReadsWithinBounds r = true) as Hin.
    { unfold AllReadsWithinBounds in *. apply Z.leb_le in Hin'. apply Z.leb_le.
      rewrite Hbytes' in Hin'. lia. }
    destruct (Hmid Hin) as (S1 & cpS1 & Hsim1 & HwfS1 & Hout).
    pose proof (symbol_sim (extend rest) (fun r1 => AllReadsWithinBounds r1 = true)
                  st1 S1 r cp1 cpS1
                  ltac:(intros A prog Hok; apply run_extend; [lia|exact Hok])
                  (sim_sym _ _ Hsim1) Hwf) as Hext.
    rewrite Hsym in Hext.
    destruct (Hext Hin') as (b2 & Hstep & Hsim2 & Hwf2 & _).
    rewrite Hstep in Hout.
    exists (set_i b2 (i_ b2 + 1)), cpS1.
    split; [apply sim_sym; exact Hsim2|].
    split; [apply (sim_wf _ _ Hsim2 Hwf2)|exact Hout].
Qed.

(** An iteration of the loop keeps the invariant; when it stops for lack
    of input, the state it leaves can be resumed. *)
Lemma inv_step (c : nat) st r cp x :
  resume_inv st r cp (S c) ->
  process_body g1 st r cp = Some x ->
  match x with
  | Next st' r' cp' => resume_inv (set_i st' (i_ st' + 1)) r' cp' c
  | Exit e st' r' cp' => (exists msg, e = NotEnoughBytes msg) -> resume_ok st'
  end.
Proof.
  intros (Hb & Hbytes & Hpos & Hc & Hcpi & Hwf & Hgood & Hsync) Hbody.
  unfold process_body in Hbody.
  assert (8 * Z.of_nat (length pre) <= 8 * Z.of_nat (length (pre ++ rest)))
    by (rewrite length_app; lia).
  destruct (checkpoint_block g1 st r cp) as [st1 r1 cp1|e st1 r1 cp1] eqn:Hblk.
  - pose proof (sync_block c st r cp st1 r1 cp1 Hsync Hwf Hc Hblk) as Hmid.
    pose proof (block_sim g1 g1 st st r r cp cp (sim_refl st) Hwf
                  ltac:(lia) eq_refl eq_refl) as Hself.
    rewrite Hblk in Hself.
    destruct Hself as (Hr1 & _ & _ & _ & _ & Hwf1 & Hi1 & He1).
    assert (used_bits_base_ st1 = base /\ cp_i cp1 <= i_ st1 /\ good_cp st1 cp1)
      as (Hb1 & Hcpi1 & Hgood1).
    { pose proof Hblk as Hblk2.
      rewrite checkpoint_block_cases in Hblk2. cbv zeta in Hblk2.
      destruct ((i_ st mod kMaxCheckpointInterval =? 0) && (0 <? i_ st)).
      - destruct (AllReadsWithinBounds r) eqn:Hin; [|discriminate].
        destruct ((0 <? i_ st) && (Z.land (i_ st) 65535 =? 0) && _);
          [discriminate|].
        destruct (Hmid eq_refl) as (S1 & cpS1 & Hsim1 & HwfS1 & Hout1 & _).
        pose proof (in_bounds_pos r Hbytes Hin) as Hle.
        assert (u64 (TotalBitsConsumed r - used_bits_base_ st) = br_pos r - base)
          as Hbits.
        { unfold u64, TotalBitsConsumed. rewrite Hb. apply Z.mod_small. lia. }
        pose proof Hsim1 as (E1 & E2 & _).
        injection Hblk2 as <- _ <-.
        cbn -[resize Z.min Z.to_nat take Z.add Z.sub u64] in *.
        split; [exact Hb|]. split; [lia|].
        unfold good_cp, ResumeSpec.good_cp.
        cbn -[resize Z.min Z.to_nat take Z.add Z.sub u64].
        rewrite Hbits.
        split; [apply Hwf|]. split; [lia|]. split; [lia|].
        exists S1, cpS1. split; [|split; [exact HwfS1|]].
        + eapply sim_trans; [exact Hsim1|].
          unfold sim, ResumeSpec.restore.
          cbn -[resize Z.min Z.to_nat take Z.add Z.sub u64].
          repeat split; reflexivity.
        + rewrite E1, E2, <- Hc.
          replace (base + (br_pos r - base)) with (br_pos r) by lia.
          rewrite <- (extend_as_reader r Hbytes). exact Hout1.
      - injection Hblk2 as <- _ <-. tauto. }
    subst r1.
    apply (inv_symbol c st1 r cp1 x); try assumption; [lia|].
    intros Hin. destruct (Hmid Hin) as (S1 & cpS1 & ? & ? & _ & ?).
    exists S1, cpS1. tauto.
  - injection Hbody as <-. intros [msg ->].
    rewrite checkpoint_block_cases in Hblk. cbv zeta in Hblk.
    destruct ((i_ st mod kMaxCheckpointInterval =? 0) && (0 <? i_ st));
      [|discriminate].
    destruct (AllReadsWithinBounds r).
    + destruct ((0 <? i_ st) && (Z.land (i_ st) 65535 =? 0) && _); discriminate.
    + injection Hblk as _ <- _ _.
      apply (good_cp_resume st cp Hgood Hb).
Qed.

(** The loop of [Process] on the truncated input: when it returns for lack
    of input, the state it leaves can be resumed and [*icc] is untouched. *)
Lemma inv_loop (count : nat) : forall st r cp st' r' icc icc1 msg,
  resume_inv st r cp count ->
  process_from g1 count st r cp icc = Some (NotEnoughBytes msg, st', r', icc1) ->
  AllReadsWithinBounds r' = false ->
  resume_ok st' /\ icc1 = icc.
Proof.
  induction count as [|c IH]; intros st r cp st' r' icc icc1 msg Hinv Hrun Hout.
  - destruct Hinv as (Hb & _ & _ & _ & _ & _ & Hgood & _).
    unfold process_from in Hrun. cbn [process_loop] in Hrun.
    unfold process_tail, check_and_restore, CheckEOI in Hrun.
    destruct (AllReadsWithinBounds r) eqn:Hin.
    + exfalso.
      destruct (negb _); [discriminate|].
      destruct (UnpredictICC_run _ _) as [[status u]|]; [|discriminate].
      injection Hrun as _ _ <- _. congruence.
    + injection Hrun as _ <- _ <-.
      split; [|reflexivity]. apply (good_cp_resume st cp Hgood Hb).
  - rewrite process_from_S in Hrun.
    pose proof (inv_step c st r cp) as Hstep.
    destruct (process_body g1 st r cp) as [[st2 r2 cp2|e st2 r2 cp2]|];
      [| |discriminate].
    + specialize (Hstep _ Hinv eq_refl).
      apply (IH _ _ _ _ _ _ _ _ Hstep Hrun Hout).
    + specialize (Hstep _ Hinv eq_refl).
      injection Hrun as -> <- _ <-.
      split; [|reflexivity]. apply Hstep. exists msg. reflexivity.
Qed.

End resume.

Section resume_theorem.
Import BitIO ICC Reader.
Context `{ICCCommon} `{ANSDecoder}.

(** X5: resumption of [ICCReader::Process].  [Process] is called on a bit
    reader that is within the bounds of the truncated input [pre], at a
    position [p0] after the position [base] where [Init] started; it returns
    for lack of input.  Then [*icc] is untouched, and with [rest] appended
    to the input a call of [Init] (which skips [bits_to_skip_] bits)
    followed by [Process] has the outcome, status and bytes, of a single
    uninterrupted call of [Process] on the whole input.  The contents of
    uninitialised bytes ([g1], [g2], [g3]) do not matter. *)
Theorem Process_resume (pre rest : list Z) (base p0 : Z) (g1 g2 g3 : Z -> Z)
    (st0 st1 : ICCReader) (r1 : BitReader) (icc icc1 icc' : list Z)
    (msg : string) :
  8 * Z.of_nat (length (pre ++ rest)) < 2 ^ 64 ->
  0 <= base < p0 -> p0 <= 8 * Z.of_nat (length pre) ->
  wf_state st0 -> used_bits_base_ st0 = base ->
  Process g1 st0 (mk_reader pre p0) icc
    = Some (NotEnoughBytes msg, st1, r1, icc1) ->
  AllReadsWithinBounds r1 = false ->
  icc1 = icc
  /\ exists st2 r2,
       Init g2 st1 (mk_reader (pre ++ rest) base) = Some (OK, st2, r2)
       /\ outcome (Process g2 st2 r2 icc')
          = outcome (Process g3 st0 (mk_reader (pre ++ rest) p0) icc').
Proof.
  intros Hfit Hbase Hp0 Hwf Hb Hrun Hout.
  assert (u64 (p0 - base) = p0 - base) as Hbits.
  { unfold u64. apply Z.mod_small. rewrite length_app in Hfit. lia. }
  unfold Process, save, TotalBitsConsumed in *.
  cbn -[Z.to_nat Z.sub u64] in *.
  rewrite Hb, Hbits in *.
  match type of Hrun with
  | process_from _ ?count ?sA ?r0 ?cpA _ = _ =>
      destruct (inv_loop pre rest base g1 g2 g3 icc'
                  (outcome (process_from g3 count sA (mk_reader (pre ++ rest) p0)
                              cpA icc'))
                  Hfit ltac:(lia) count sA r0 cpA st1 r1 icc icc1 msg)
        as [Hok ->]; [|exact Hrun|exact Hout|]
  end.
  - unfold ResumeSpec.resume_inv, ResumeSpec.good_cp, ResumeSpec.in_sync.
    cbn -[Z.to_nat Z.sub].
    split; [exact Hb|]. split; [reflexivity|]. split; [lia|].
    split; [reflexivity|]. split; [lia|]. split; [exact Hwf|]. split.
    + split; [apply Hwf|]. split; [lia|]. split; [lia|].
      eexists _, _. split; [apply sim_refl|].
      split; [exact Hwf|].
      cbn -[Z.to_nat Z.sub].
      replace (base + (p0 - base)) with p0 by lia. reflexivity.
    + intros _. eexists _, _. split; [apply sim_refl|].
      split; [exact Hwf|]. reflexivity.
  - split; [reflexivity|]. exact Hok.
Qed.

End resume_theorem.

(** ** What [Init] hands to [Process] *)

Section init_bounds.
Import BitIO ICC Reader.
Context `{ICCCommon} `{ANSDecoder}.

Lemma init_symbols_enc_size (count : nat) : forall st r st' r',
  init_symbols count st r = Some (st', r') -> enc_size_ st' = enc_size_ st.
Proof.
  induction count as [|c IH]; intros st r st' r' Hrun; cbn [init_symbols] in Hrun.
  - injection Hrun as <- _. reflexivity.
  - cbv zeta in Hrun.
    destruct (read_symbol st r _ _) as [[s1 r1]|] eqn:E; [|discriminate].
    apply IH in Hrun. apply read_symbol_fields in E as (_ & E & _).
    cbn [set_i enc_size_] in Hrun. congruence.
Qed.

(** A first call of [Init] that accepts an encoded profile of more than
    [kPreambleSize] bytes leaves the bit reader within bounds: it has
    checked the end of input after the preamble. *)
Lemma Init_long_within_bounds g st r st' r' :
  bits_to_skip_ st = 0 ->
  Init g st r = Some (OK, st', r') ->
  kPreambleSize < enc_size_ st' ->
  AllReadsWithinBounds r' = true.
Proof.
  intros Hb Hinit Hlong. unfold Init in Hinit.
  destruct (CheckEOI r); try discriminate.
  cbn [bits_to_skip_] in Hinit. rewrite Hb in Hinit. cbn [Z.eqb] in Hinit.
  destruct (run U64Coder_Read r) as [enc_size ra].
  destruct (268435456 <? enc_size); [discriminate|].
  destruct (run (DecodeHistograms _) ra) as [[hst code] rb].
  destruct hst; try discriminate.
  destruct (run (ANSSymbolReader_Create code) rb) as [[cst ans] rc].
  destruct cst; try discriminate.
  destruct (init_symbols _ _ rc) as [[s1 r1]|] eqn:E1; [|discriminate].
  destruct (kPreambleSize <? enc_size) eqn:Elong.
  - destruct (init_symbols _ s1 r1) as [[s2 r2]|] eqn:E2; [|discriminate].
    unfold CheckEOI in Hinit.
    destruct (AllReadsWithinBounds r2) eqn:Hin; [|discriminate].
    destruct (CheckPreamble _ _); try discriminate.
    injection Hinit as _ <-. exact Hin.
  - injection Hinit as <- <-.
    apply init_symbols_enc_size in E1.
    cbn [set_bits_to_skip enc_size_] in Hlong, E1.
    apply Z.ltb_ge in Elong. lia.
Qed.

End init_bounds.

(** ** The examples of resumption *)

(** The stream truncated before its last symbol: [Init] reads the size and
    two symbols within bounds, [Process] stops for lack of input, and the
    resumed decoding has the outcome of the uninterrupted one. *)
Lemma Process_resume_witness :
  exists st0 st1 r1,
    Reader.Init Sample.zero_fill Reader.ICCReader_new
      (BitIO.mk_reader Sample.short_stream_two_symbols 0)
    = Some (OK, st0, BitIO.mk_reader Sample.short_stream_two_symbols 48)
    /\ Reader.Process Sample.zero_fill st0
         (BitIO.mk_reader Sample.short_stream_two_symbols 48) []
       = Some (NotEnoughBytes "Not enough bytes for reading ICC profile",
               st1, r1, [])
    /\ ([] = ([] : list Z)
        /\ exists st2 r2,
             Reader.Init Sample.zero_fill st1
               (BitIO.mk_reader (Sample.short_stream_two_symbols ++ [7]) 0)
             = Some (OK, st2, r2)
             /\ Reader.outcome (Reader.Process Sample.zero_fill st2 r2 [])
                = Reader.outcome
                    (Reader.Process Sample.zero_fill st0
                       (BitIO.mk_reader (Sample.short_stream_two_symbols ++ [7]) 48)
                       [])).
Proof.
  eexists _, _, _.
  split; [vm_compute; reflexivity|].
  split; [vm_compute; reflexivity|].
  eapply (Process_resume (H := Sample.common) (H0 := Sample.raw_bytes)
           Sample.short_stream_two_symbols [7] 0 48
           Sample.zero_fill Sample.zero_fill Sample.zero_fill _ _ _ [] [] []
           "Not enough bytes for reading ICC profile").
  - vm_compute. reflexivity.
  - lia.
  - vm_compute. discriminate.
  - vm_compute. split; [split|]; discriminate.
  - reflexivity.
  - vm_compute. reflexivity.
  - vm_compute. reflexivity.
Defined.

Example Process_resume_example_outcome :
  exists st0 r0,
    Reader.Init Sample.zero_fill Reader.ICCReader_new
      (BitIO.mk_reader Sample.short_stream 0) = Some (OK, st0, r0)
    /\ Reader.outcome (Reader.Process Sample.zero_fill st0 r0 [])
       = Some (OK, [7]).
Proof.
  eexists _, _. split; [vm_compute; reflexivity|].
  vm_compute. reflexivity.
Qed.

(** C4: resumption fails for a short stream that is truncated before
    [Init] has read its first two symbols.  The encoded size 3 is not
    above [kPreambleSize], so [Init] does not check the end of input: it
    returns [OK] with two symbols read past the end (zeros).  [Process]
    takes its first checkpoint there and returns [NotEnoughBytes].  On the
    whole stream, [Init] skips [bits_to_skip_] bits and [Process] goes on
    from the checkpoint: it ends with a failure, where the uninterrupted
    decoding of the same stream returns the profile [[7]]. *)
Theorem ICCReader_resume_short_stream_diverges :
  exists st0 r0 st1 r1 st2 r2 st3 r3,
    (* the truncated input *)
    Reader.Init Sample.zero_fill Reader.ICCReader_new
      (BitIO.mk_reader Sample.short_stream_size_only 0) = Some (OK, st0, r0)
    /\ BitIO.AllReadsWithinBounds r0 = false
    /\ Reader.Process Sample.zero_fill st0 r0 []
       = Some (NotEnoughBytes "Not enough bytes for reading ICC profile",
               st1, r1, [])
    (* the whole input, resumed *)
    /\ Reader.Init Sample.zero_fill st1 (BitIO.mk_reader Sample.short_stream 0)
       = Some (OK, st2, r2)
    /\ Reader.outcome (Reader.Process Sample.zero_fill st2 r2 [])
       = Some (Failure "Not all data used", [])
    (* the whole input, uninterrupted *)
    /\ Reader.Init Sample.zero_fill Reader.ICCReader_new
         (BitIO.mk_reader Sample.short_stream 0) = Some (OK, st3, r3)
    /\ Reader.outcome (Reader.Process Sample.zero_fill st3 r3 [])
       = Some (OK, [7]).
Proof.
  eexists _, _, _, _, _, _, _, _.
  do 6 (split; [vm_compute; reflexivity|]).
  vm_compute. reflexivity.
Qed.

(** * Further properties of the decoder *)

(** ** [Shuffle] *)

Section shuffle.
Import ICC ShuffleSpec.

Lemma Shuffle_loop_indices data size height :
  forall (count : nat) s j acc,
    Shuffle_loop count data size height s j acc
    = acc ++ (byte_at data <$> Shuffle_indices count size height s j).
Proof.
  induction count as [|c IH]; intros s j acc; cbn [Shuffle_loop Shuffle_indices].
  - rewrite app_nil_r. reflexivity.
  - cbv zeta. rewrite fmap_cons.
    destruct (size <=? j + height); rewrite IH, <- app_assoc; reflexivity.
Qed.

Lemma byte_at_seqZ (data : list Z) :
  byte_at data <$> seqZ 0 (Z.of_nat (length data)) = data.
Proof.
  apply list_eq. intros i. rewrite list_lookup_fmap.
  destruct (data !! i) as [x|] eqn:Hx.
  - pose proof (lookup_lt_Some _ _ _ Hx).
    rewrite lookup_seqZ_lt by lia. cbn [fmap option_fmap option_map].
    unfold byte_at. rewrite Z.add_0_l, Nat2Z.id.
    f_equal. apply nth_lookup_Some with (d := 0) in Hx. exact Hx.
  - apply lookup_ge_None in Hx. rewrite lookup_seqZ_ge by lia. reflexivity.
Qed.

Lemma ceil_div_lt h a k : 0 < h -> k < (a + h - 1) / h <-> k * h < a.
Proof.
  intros Hh.
  pose proof (Z.div_mod (a + h - 1) h ltac:(lia)).
  pose proof (Z.mod_pos_bound (a + h - 1) h Hh).
  split; intros; nia.
Qed.

Lemma elem_of_column size h s x :
  0 < h ->
  x ∈ column size h s <-> exists k, 0 <= k /\ x = s + k * h /\ x < size.
Proof.
  intros Hh. unfold column. rewrite list_elem_of_fmap. split.
  - intros (k & -> & Hk). apply elem_of_seqZ in Hk. exists k.
    split; [lia|]. split; [reflexivity|].
    destruct Hk as [Hk0 Hk]. rewrite Z.add_0_l in Hk.
    apply ceil_div_lt in Hk; lia.
  - intros (k & Hk0 & -> & Hlt). exists k. split; [reflexivity|].
    apply elem_of_seqZ. split; [lia|]. rewrite Z.add_0_l.
    apply ceil_div_lt; lia.
Qed.

Lemma NoDup_column size h s : 0 < h -> NoDup (column size h s).
Proof.
  intros Hh. unfold column. apply NoDup_fmap_2_strong; [|apply NoDup_seqZ].
  intros a b _ _ Hab. nia.
Qed.

(** The columns [0 .. height) hold every index below [size] exactly once. *)
Lemma columns_Permutation size h :
  0 < h -> 0 <= size -> columns size h 0 h ≡ₚ seqZ 0 size.
Proof.
  intros Hh Hsize. apply NoDup_Permutation.
  - unfold columns. apply NoDup_bind; [| |apply NoDup_seqZ].
    + intros s1 s2 x H1 H2 Hx1 Hx2.
      apply elem_of_seqZ in H1, H2.
      apply elem_of_column in Hx1 as (k1 & ? & E1 & _); [|assumption].
      apply elem_of_column in Hx2 as (k2 & ? & E2 & _); [|assumption].
      assert (k1 = k2) by nia. nia.
    + intros s _. apply NoDup_column. assumption.
  - apply NoDup_seqZ.
  - intros x. unfold columns. rewrite list_elem_of_bind, elem_of_seqZ. split.
    + intros (s & Hx & Hs). apply elem_of_seqZ in Hs.
      apply elem_of_column in Hx as (k & ? & -> & ?); [|assumption]. nia.
    + intros [Hx0 Hx]. exists (x mod h).
      pose proof (Z.mod_pos_bound x h Hh).
      pose proof (Z.div_mod x h ltac:(lia)).
      split; [|apply elem_of_seqZ; lia].
      apply elem_of_column; [assumption|]. exists (x / h).
      split; [apply Z.div_pos; lia|]. split; [lia|lia].
Qed.

Lemma remaining_cons size h s k :
  0 < h -> 0 <= k -> s + k * h < size ->
  remaining size h s k
  = (s + k * h)
      :: (if size <=? s + k * h + h
          then columns size h (s + 1) (h - s - 1)
          else remaining size h s (k + 1)).
Proof.
  intros Hh Hk Hlt. unfold remaining.
  assert (k < (size - s + h - 1) / h) as Hcnt by (apply ceil_div_lt; lia).
  rewrite seqZ_cons by lia. rewrite fmap_cons. cbn [app]. f_equal.
  replace (Z.pred ((size - s + h - 1) / h - k))
    with ((size - s + h - 1) / h - (k + 1)) by lia.
  replace (Z.succ k) with (k + 1) by lia.
  destruct (size <=? s + k * h + h) eqn:Ewrap; [|reflexivity].
  apply Z.leb_le in Ewrap.
  assert (~ k + 1 < (size - s + h - 1) / h) as Hlast
    by (rewrite ceil_div_lt by lia; lia).
  rewrite seqZ_nil by lia. reflexivity.
Qed.

(** What remains to be visited at column [s], row [k]. *)
Lemma indices_remaining size h :
  0 < h <= size ->
  forall (count : nat) s k,
    0 <= s < h -> 0 <= k -> s + k * h < size ->
    Z.of_nat count <= Z.of_nat (length (remaining size h s k)) ->
    Shuffle_indices count size h s (s + k * h)
    = take count (remaining size h s k).
Proof.
  intros Hh. induction count as [|c IH]; intros s k Hs Hk Hlt Hlen.
  - reflexivity.
  - cbn [Shuffle_indices].
    rewrite remaining_cons in Hlen |- * by lia.
    cbn [take]. cbn [length] in Hlen. f_equal.
    destruct (size <=? s + k * h + h) eqn:Ewrap.
    + destruct c as [|c']; [reflexivity|].
      destruct (Z_le_gt_dec (h - s - 1) 0) as [Hend|Hmore].
      { exfalso. unfold columns in Hlen. rewrite seqZ_nil in Hlen by lia.
        cbn in Hlen. lia. }
      assert (columns size h (s + 1) (h - s - 1) = remaining size h (s + 1) 0)
        as Hcols.
      { unfold remaining, columns. rewrite (seqZ_cons (s + 1)) by lia.
        cbn [mbind list_bind]. unfold column at 1. rewrite Z.sub_0_r.
        replace (Z.succ (s + 1)) with (s + 1 + 1) by lia.
        replace (Z.pred (h - s - 1)) with (h - (s + 1) - 1) by lia.
        reflexivity. }
      rewrite Hcols in Hlen |- *.
      replace (s + 1) with (s + 1 + 0 * h) at 2 by lia.
      apply IH; lia.
    + replace (s + k * h + h) with (s + (k + 1) * h) by lia.
      apply Z.leb_gt in Ewrap. apply IH; lia.
Qed.

Lemma height_bounds size width :
  0 < width -> 0 < size -> 0 < (size + width - 1) / width <= size.
Proof.
  intros Hw Hsize.
  pose proof (Z.div_mod (size + width - 1) width ltac:(lia)).
  pose proof (Z.mod_pos_bound (size + width - 1) width Hw). split; nia.
Qed.

(** The loop visits the indices column after column. *)
Lemma Shuffle_indices_all size h (n : nat) :
  0 < h <= size -> Z.of_nat n = size ->
  Shuffle_indices n size h 0 0 = columns size h 0 h.
Proof.
  intros Hh Hn.
  pose proof (columns_Permutation size h ltac:(lia) ltac:(lia)) as Hperm.
  assert (length (columns size h 0 h) = n) as Hlen
    by (rewrite Hperm, length_seqZ; lia).
  assert (columns size h 0 h = remaining size h 0 0) as Hcols.
  { unfold remaining, columns. rewrite (seqZ_cons 0) by lia.
    cbn [mbind list_bind]. unfold column at 1. rewrite !Z.sub_0_r.
    replace (Z.pred h) with (h - 1) by lia. reflexivity. }
  rewrite <- (take_ge (columns size h 0 h) n) by lia.
  rewrite Hcols. rewrite Hcols in Hlen.
  replace 0 with (0 + 0 * h) at 2 by lia.
  apply (indices_remaining size h Hh); lia.
Qed.

Lemma Shuffle_indices_length :
  forall (count : nat) size h s j,
    length (Shuffle_indices count size h s j) = count.
Proof.
  induction count as [|c IH]; intros size h s j; cbn [Shuffle_indices length].
  - reflexivity.
  - destruct (size <=? j + h); rewrite IH; reflexivity.
Qed.

Lemma Shuffle_length data w : length (Shuffle data w) = length data.
Proof.
  unfold Shuffle. rewrite Shuffle_loop_indices. cbn [app].
  rewrite length_fmap. apply Shuffle_indices_length.
Qed.

(** X15: what [Shuffle] does for every size.  For a size and a width
    below [2^63], where none of the function's [size_t] additions wraps,
    and with [height = ceil(size / width)], the output lists the input
    bytes whose index is a multiple of [height], in order, then those whose
    index is 1 modulo [height], and so on up to [height - 1]; when the size
    is not a multiple of the width, the last of these groups are one byte
    shorter. *)
Theorem Shuffle_by_columns data width :
  0 < width < 2 ^ 63 ->
  Z.of_nat (length data) < 2 ^ 63 ->
  let size := Z.of_nat (length data) in
  let height := (size + width - 1) / width in
  Shuffle data width = byte_at data <$> columns size height 0 height.
Proof.
  intros [Hw _] _ size height. unfold Shuffle. fold size. fold height.
  rewrite Shuffle_loop_indices. cbn [app].
  destruct (Z.eq_dec size 0) as [Hempty|Hne].
  - assert (height = 0) as ->
      by (unfold height; rewrite Hempty; apply Z.div_small; lia).
    replace (length data) with 0%nat by (unfold size in Hempty; lia).
    reflexivity.
  - rewrite (Shuffle_indices_all size height (length data)); [reflexivity| |].
    + apply height_bounds; [exact Hw|unfold size in *; lia].
    + reflexivity.
Qed.

Lemma Shuffle_by_columns_witness :
  Shuffle [10; 11; 12; 13; 14; 15] 4
  = byte_at [10; 11; 12; 13; 14; 15] <$> columns 6 2 0 2
  /\ columns 6 2 0 2 = [0; 2; 4; 1; 3; 5]
  /\ Shuffle [10; 11; 12; 13; 14; 15] 4 = [10; 12; 14; 11; 13; 15].
Proof.
  split; [|split; reflexivity].
  apply (Shuffle_by_columns [10; 11; 12; 13; 14; 15] 4); [lia|simpl; lia].
Defined.

(** X1: [Shuffle] only reorders.  For a size and a width below [2^63],
    where none of the function's [size_t] additions wraps, and a width of
    at least 1, the result is a permutation of the input bytes, whether the
    size is divisible by the width or not (so it has the same length, and
    every read is within the input). *)
Theorem Shuffle_Permutation data width :
  0 < width < 2 ^ 63 ->
  Z.of_nat (length data) < 2 ^ 63 ->
  Shuffle data width ≡ₚ data.
Proof.
  intros [Hw _] _.
  destruct data as [|x data'] eqn:Hd; [reflexivity|]. rewrite <- Hd.
  set (size := Z.of_nat (length data)).
  assert (0 < size) as Hsize by (unfold size; rewrite Hd; simpl; lia).
  pose proof (height_bounds size width Hw Hsize) as Hh.
  unfold Shuffle. fold size. rewrite Shuffle_loop_indices. cbn [app].
  rewrite (Shuffle_indices_all size _ (length data) Hh eq_refl).
  rewrite (columns_Permutation size _) by lia.
  unfold size. rewrite byte_at_seqZ. reflexivity.
Qed.

Lemma Shuffle_Permutation_witness :
  Shuffle [65; 66; 67; 97; 98] 2 ≡ₚ [65; 66; 67; 97; 98]
  /\ Shuffle [65; 66; 67; 97; 98] 2 = [65; 97; 66; 98; 67].
Proof.
  split; [apply Shuffle_Permutation; [lia|simpl; lia]|reflexivity].
Defined.

(** The loop on a full matrix: at output index [t] the state is
    [s = t / width], [j = transposed width height t]. *)
Lemma indices_transposed w h :
  0 < w -> 0 < h ->
  forall (count : nat) t,
    0 <= t -> t + Z.of_nat count <= w * h ->
    Shuffle_indices count (w * h) h (t / w) (transposed w h t)
    = transposed w h <$> seqZ t (Z.of_nat count).
Proof.
  intros Hw Hh. induction count as [|c IH]; intros t Ht Hend.
  - reflexivity.
  - cbn [Shuffle_indices]. rewrite seqZ_cons by lia. rewrite fmap_cons.
    f_equal.
    replace (Z.pred (Z.of_nat (S c))) with (Z.of_nat c) by lia.
    pose proof (Z.div_mod t w ltac:(lia)) as Ht_eq.
    pose proof (Z.mod_pos_bound t w Hw) as Hmod.
    assert (0 <= t / w < h) as Hdiv.
    { split; [apply Z.div_pos; lia|]. apply Z.div_lt_upper_bound; lia. }
    destruct (Z.eq_dec (t mod w) (w - 1)) as [Elast|Enot].
    + assert (Z.succ t / w = t / w + 1 /\ Z.succ t mod w = 0) as [Ed Em].
      { assert (Z.succ t = (t / w + 1) * w + 0) as E by nia.
        split; [symmetry; apply (Z.div_unique_pos _ _ _ 0); lia|].
        symmetry. apply (Z.mod_unique_pos _ _ (t / w + 1)); lia. }
      replace (w * h <=? transposed w h t + h) with true
        by (symmetry; apply Z.leb_le; unfold transposed; nia).
      replace (t / w + 1) with (transposed w h (Z.succ t)) at 2
        by (unfold transposed; rewrite Ed, Em; lia).
      rewrite <- Ed. apply IH; lia.
    + assert (Z.succ t / w = t / w /\ Z.succ t mod w = t mod w + 1) as [Ed Em].
      { assert (Z.succ t = t / w * w + (t mod w + 1)) as E by nia.
        split; [symmetry; apply (Z.div_unique_pos _ _ _ (t mod w + 1)); lia|].
        symmetry. apply (Z.mod_unique_pos _ _ (t / w)); lia. }
      replace (w * h <=? transposed w h t + h) with false
        by (symmetry; apply Z.leb_gt; unfold transposed; nia).
      replace (transposed w h t + h) with (transposed w h (Z.succ t))
        by (unfold transposed; rewrite Ed, Em; lia).
      rewrite <- Ed at 1. apply IH; lia.
Qed.

Lemma Shuffle_transposed data w h :
  0 < w -> 0 < h -> Z.of_nat (length data) = w * h ->
  Shuffle data w
  = (fun t => byte_at data (transposed w h t)) <$> seqZ 0 (w * h).
Proof.
  intros Hw Hh Hsize. unfold Shuffle. rewrite Hsize.
  replace ((w * h + w - 1) / w) with h.
  2:{ apply (Z.div_unique_pos _ _ _ (w - 1)); lia. }
  rewrite Shuffle_loop_indices. cbn [app].
  pose proof (indices_transposed w h Hw Hh (length data) 0 ltac:(lia) ltac:(lia))
    as Hidx.
  unfold transposed at 1 in Hidx.
  rewrite Z.div_0_l, Z.mod_0_l in Hidx by lia.
  rewrite Z.mul_0_l, Z.add_0_l in Hidx. rewrite Hidx, Hsize.
  rewrite <- list_fmap_compose. reflexivity.
Qed.

(** The byte at an index of the output of [Shuffle] on a full matrix. *)
Lemma Shuffle_lookup data w h t :
  0 < w -> 0 < h -> Z.of_nat (length data) = w * h ->
  0 <= t < w * h ->
  byte_at (Shuffle data w) t = byte_at data (transposed w h t).
Proof.
  intros Hw Hh Hsize Ht.
  rewrite (Shuffle_transposed data w h Hw Hh Hsize).
  unfold byte_at at 1.
  rewrite nth_lookup, list_lookup_fmap.
  rewrite lookup_seqZ_lt by lia. cbn [fmap option_fmap option_map default].
  rewrite Z.add_0_l, Z2Nat.id by lia. reflexivity.
Qed.

(** X2: on a full matrix [Shuffle] is a transposition.  When the size is
    [width * height], the input being the matrix of [width] rows and
    [height] columns in scanline order, the output is the matrix of
    [height] rows and [width] columns in scanline order: the byte of row
    [r], column [c] of the input is at row [c], column [r] of the output. *)
Theorem Shuffle_transpose data width height r c :
  0 < width -> 0 < height ->
  Z.of_nat (length data) = width * height ->
  0 <= r < width -> 0 <= c < height ->
  byte_at (Shuffle data width) (c * width + r) = byte_at data (r * height + c).
Proof.
  intros Hw Hh Hsize Hr Hc.
  assert (0 <= c * width + r < width * height) as Hin by nia.
  rewrite (Shuffle_lookup data width height _ Hw Hh Hsize Hin).
  unfold transposed.
  assert ((c * width + r) / width = c) as ->
    by (symmetry; apply (Z.div_unique_pos _ _ _ r); lia).
  assert ((c * width + r) mod width = r) as ->
    by (symmetry; apply (Z.mod_unique_pos _ _ c); lia).
  f_equal. lia.
Qed.

Lemma Shuffle_transpose_witness :
  byte_at (Shuffle [65; 66; 67; 68; 97; 98; 99; 100] 2) (3 * 2 + 1)
  = byte_at [65; 66; 67; 68; 97; 98; 99; 100] (1 * 4 + 3)
  /\ Shuffle [65; 66; 67; 68; 97; 98; 99; 100] 2
     = [65; 97; 66; 98; 67; 99; 68; 100].
Proof.
  split; [|reflexivity].
  apply (Shuffle_transpose _ 2 4 1 3); [lia|lia|reflexivity|lia|lia].
Defined.

(** X3: transposing twice gives the input back.  For an input of
    [width * height] bytes, [Shuffle] with the width [height] undoes
    [Shuffle] with the width [width]. *)
Theorem Shuffle_Shuffle data width height :
  0 < width -> 0 < height ->
  Z.of_nat (length data) = width * height ->
  Shuffle (Shuffle data width) height = data.
Proof.
  intros Hw Hh Hsize.
  rewrite (Shuffle_transposed (Shuffle data width) height width Hh Hw).
  2:{ rewrite Shuffle_length. lia. }
  transitivity (byte_at data <$> seqZ 0 (Z.of_nat (length data)));
    [|apply byte_at_seqZ].
  rewrite Hsize. replace (height * width) with (width * height) by lia.
  apply list_fmap_ext. intros i t Ht.
  apply lookup_seqZ in Ht as [-> Hi]. rewrite Z.add_0_l.
  set (t := Z.of_nat i) in *.
  pose proof (Z.div_mod t height ltac:(lia)) as Ht_eq.
  pose proof (Z.mod_pos_bound t height Hh) as Hmod.
  assert (0 <= t / height < width) as Hdiv.
  { split; [apply Z.div_pos; lia|]. apply Z.div_lt_upper_bound; lia. }
  rewrite (Shuffle_lookup data width height) by (assumption || unfold transposed; nia).
  f_equal. unfold transposed.
  assert ((t / height + t mod height * width) / width = t mod height) as ->
    by (symmetry; apply (Z.div_unique_pos _ _ _ (t / height)); lia).
  assert ((t / height + t mod height * width) mod width = t / height) as ->
    by (symmetry; apply (Z.mod_unique_pos _ _ (t mod height)); lia).
  lia.
Qed.

Lemma Shuffle_Shuffle_witness :
  Shuffle (Shuffle [1; 2; 3; 4; 5; 6; 7; 8; 9; 10; 11; 12] 4) 3
  = [1; 2; 3; 4; 5; 6; 7; 8; 9; 10; 11; 12].
Proof. apply Shuffle_Shuffle; [lia|lia|reflexivity]. Defined.

End shuffle.

(** ** [DecodeVarInt] on numbers that are not terminated *)

Section varint_unterminated.
Import ICC ICCSpec.

(** The loop on bytes that all have the continuation flag, up to the tenth
    byte or the end of the input. *)
Lemma DecodeVarInt_loop_cont bs :
  forall (count : nat) input pos i ret,
    0 <= pos -> 0 <= i ->
    Forall (fun b => Z.land b 128 <> 0) bs ->
    Z.of_nat count = 10 - i -> i + Z.of_nat (length bs) <= 10 ->
    (forall (j : nat), (j < length bs)%nat ->
       input !! Z.to_nat (pos + i + Z.of_nat j) = bs !! j) ->
    i + Z.of_nat (length bs) = 10
    \/ Z.of_nat (length input) = pos + i + Z.of_nat (length bs) ->
    0 <= ret < 2 ^ (7 * i) -> ret < 2 ^ 64 ->
    DecodeVarInt_loop count input pos i ret
    = (i + Z.of_nat (length bs),
       (ret + 2 ^ (7 * i) * leb128_value bs) mod 2 ^ 64).
Proof.
  induction bs as [|b r IH];
    intros count input pos i ret Hpos Hi Hcont Hcount Hle10 Hin Hend Hret Hret64.
  - cbn [length leb128_value]. rewrite Z.mul_0_r, !Z.add_0_r.
    rewrite Z.mod_small by lia.
    destruct count as [|count]; [reflexivity|].
    cbn [DecodeVarInt_loop].
    replace (pos + i <? Z.of_nat (length input)) with false
      by (symmetry; apply Z.ltb_ge; cbn [length] in Hend; lia).
    reflexivity.
  - cbn [length] in Hend, Hin, Hle10. rewrite Nat2Z.inj_succ in Hend, Hle10.
    destruct count as [|count]; [lia|].
    pose proof (Hin 0%nat ltac:(lia)) as H0. simpl in H0.
    rewrite Z.add_0_r in H0.
    pose proof (lookup_lt_Some _ _ _ H0) as Hlt.
    cbn [DecodeVarInt_loop].
    replace (pos + i <? Z.of_nat (length input)) with true
      by (symmetry; apply Z.ltb_lt; lia).
    rewrite (byte_at_lookup input (pos + i) b) by (lia || assumption).
    assert (0 <= Z.land b 127 < 128) as Hx.
    { split; [apply Z.land_nonneg; lia|].
      change 127 with (Z.ones 7). rewrite Z.land_ones by lia.
      apply Z.mod_pos_bound. lia. }
    apply Forall_cons_1 in Hcont as [Hflag Hcont].
    replace (Z.land b 128 =? 0) with false
      by (symmetry; apply Z.eqb_neq; assumption).
    rewrite lor_shift_add by lia.
    assert (0 < 2 ^ (7 * i)) as HP by (apply Z.pow_pos_nonneg; lia).
    assert (2 ^ (7 * (i + 1)) = 2 ^ (7 * i) * 128) as Hnext.
    { replace (7 * (i + 1)) with (7 * i + 7) by lia.
      rewrite Z.pow_add_r by lia. reflexivity. }
    pose proof (Z.mod_pos_bound (ret + 2 ^ (7 * i) * Z.land b 127) (2 ^ 64)
                  ltac:(lia)) as Hm.
    pose proof (Z.mod_le (ret + 2 ^ (7 * i) * Z.land b 127) (2 ^ 64)
                  ltac:(nia) ltac:(lia)) as Hle.
    rewrite (IH count input pos (i + 1)); try assumption; try lia.
    + f_equal; [cbn [length]; lia|].
      rewrite Zplus_mod_idemp_l. f_equal.
      cbn [leb128_value]. rewrite Hnext. lia.
    + intros j Hj. specialize (Hin (S j) ltac:(lia)).
      simpl in Hin. rewrite <- Hin. f_equal. lia.
    + rewrite Hnext. nia.
Qed.

(** X4: [DecodeVarInt] on a number that is not terminated, for cursors
    that stay below [2^64] (no wrap of [*pos]).  When all the bytes at the
    cursor have the continuation flag, up to the tenth byte or up to the end
    of the input, the value is that of the bytes read (modulo [2^64]) and
    the cursor ends one byte after them: eleven bytes are counted for ten
    bytes read, and at the end of the input the cursor passes the end.  At
    or past the end of the input the value is 0 and the cursor advances by
    one. *)
Theorem DecodeVarInt_unterminated :
  (forall pre bs post,
     Forall (fun b => Z.land b 128 <> 0) bs ->
     length bs = 10%nat \/ ((length bs < 10)%nat /\ post = []) ->
     Z.of_nat (length pre) + Z.of_nat (length bs) + 1 < 2 ^ 64 ->
     DecodeVarInt (pre ++ bs ++ post) (Z.of_nat (length pre))
     = (leb128_value bs mod 2 ^ 64,
        Z.of_nat (length pre) + Z.of_nat (length bs) + 1))
  /\
  (forall input pos,
     Z.of_nat (length input) <= pos -> pos + 1 < 2 ^ 64 ->
     DecodeVarInt input pos = (0, pos + 1)).
Proof.
  split.
  - intros pre bs post Hcont Hend _. unfold DecodeVarInt.
    rewrite (DecodeVarInt_loop_cont bs 10 (pre ++ bs ++ post)
               (Z.of_nat (length pre)) 0 0); try lia; try assumption.
    + f_equal; try lia. f_equal. lia.
    + intros j Hj. rewrite Z.add_0_r, <- Nat2Z.inj_add, Nat2Z.id.
      rewrite lookup_app_r by lia.
      replace (length pre + j - length pre)%nat with j by lia.
      rewrite lookup_app_l by lia. reflexivity.
    + destruct Hend as [H10|[Hlt ->]]; [left; lia|right].
      rewrite !length_app. cbn [length]. lia.
  - intros input pos Hpos _. unfold DecodeVarInt. cbn [DecodeVarInt_loop].
    replace (pos + 0 <? Z.of_nat (length input)) with false
      by (symmetry; apply Z.ltb_ge; lia).
    f_equal. lia.
Qed.

Lemma DecodeVarInt_unterminated_witness :
  DecodeVarInt ([7] ++ [255; 255; 255; 255; 255; 255; 255; 255; 255; 255] ++ [1])
    1
  = (leb128_value [255; 255; 255; 255; 255; 255; 255; 255; 255; 255] mod 2 ^ 64,
     1 + 10 + 1)
  /\ DecodeVarInt ([7] ++ [129; 130] ++ []) 1 = (257 mod 2 ^ 64, 1 + 2 + 1)
  /\ DecodeVarInt [7] 3 = (0, 3 + 1).
Proof.
  split; [|split].
  - apply (proj1 DecodeVarInt_unterminated [7]
             [255; 255; 255; 255; 255; 255; 255; 255; 255; 255] [1]).
    + repeat constructor; discriminate.
    + left. reflexivity.
    + simpl. lia.
  - apply (proj1 DecodeVarInt_unterminated [7] [129; 130] []).
    + repeat constructor; discriminate.
    + right. split; [simpl; lia|reflexivity].
    + simpl. lia.
  - apply (proj2 DecodeVarInt_unterminated [7] 3); [simpl; lia|lia].
Defined.

End varint_unterminated.

(** ** [UnpredictICC] returns *)

Section unpredict_returns.
Import ICC.
Context `{ICCCommon}.

(** [UnpredictICC] returns on every input, and a status [OK] comes with an
    output of the declared size. *)
Lemma UnpredictICC_run_returns enc result0 :
  exists st s,
    UnpredictICC_run enc result0 = Some (st, s)
    /\ (st = OK ->
        Z.of_nat (length (result s)) = (DecodeVarInt enc 0).1
        /\ pos s = Z.of_nat (length enc)).
Proof.
  unfold UnpredictICC_run.
  destruct (negb (bool_decide (result0 = []))).
  { eexists _, _. split; [reflexivity|discriminate]. }
  destruct (Z.of_nat (length enc) <=? 0).
  { eexists _, _. split; [reflexivity|discriminate]. }
  destruct (DecodeVarInt enc 0) as [osize pos1]. cbn [fst].
  destruct (CheckIs32Bit osize);
    [|eexists _, _; (split; [reflexivity|discriminate])..].
  destruct (Z.of_nat (length enc) <=? pos1).
  { eexists _, _. split; [reflexivity|discriminate]. }
  destruct (DecodeVarInt enc pos1) as [csize pos2].
  destruct (CheckIs32Bit csize);
    [|eexists _, _; (split; [reflexivity|discriminate])..].
  destruct (CheckOutOfBounds pos2 csize (Z.of_nat (length enc)));
    [|eexists _, _; (split; [reflexivity|discriminate])..].
  set (ce := pos2 + csize).
  pose proof (header_loop_spec enc osize ce (Z.to_nat (kICCHeaderSize + 1)) 0
                (ICCInitialHeaderPrediction (u32 osize))
                (mk_ustate result0 pos2 ce) _ eq_refl) as Hh.
  destruct (header_loop _ _ _ _ _ _ _) as [?|s4|st s]; [contradiction| |].
  2:{ eexists _, _. split; [reflexivity|]. intros E. specialize (Hh E). tauto. }
  clear Hh.
  destruct (ce <=? cpos s4) eqn:E4.
  { eexists _, _. split; [reflexivity|discriminate]. }
  apply Z.leb_gt in E4.
  assert (exists e, tag_list (loop_fuel ce (cpos s4)) enc osize ce s4 = Some e
                    /\ match e with
                       | Broke _ => True
                       | Returned st _ => st <> OK
                       end) as (e & -> & He).
  { unfold tag_list.
    destruct (DecodeVarInt enc (cpos s4)) as [numtags cp] eqn:En.
    apply DecodeVarInt_advances in En.
    destruct (negb (numtags =? 0)).
    2:{ eexists. split; [reflexivity|exact I]. }
    destruct (CheckIs32Bit (numtags - 1));
      [|eexists; (split; [reflexivity|discriminate])..].
    set (t0 := mk_tag_state _ _ _).
    destruct (forever_total (tag_body enc osize ce) (fun t => ce - cpos (ts t)))
      with (fuel := loop_fuel ce (cpos s4)) (s := t0) as [e He].
    - intros t t' Hb. apply tag_body_spec in Hb. lia.
    - unfold loop_fuel, t0. simpl. lia.
    - unfold loop_fuel. lia.
    - exists e. split; [exact He|].
      apply forever_exit in He as [t' Ht'].
      destruct e as [u|st u]; [exact I|].
      apply tag_body_spec in Ht'. exact Ht'. }
  destruct e as [s5|st s].
  2:{ eexists _, _. split; [reflexivity|]. intros ->. contradiction. }
  destruct (forever_total (main_body enc osize ce) (fun s => ce - cpos s))
    with (fuel := loop_fuel ce (cpos s5)) (s := s5) as [e Hm].
  { intros s s' Hb. apply main_body_spec in Hb. lia. }
  { unfold loop_fuel. lia. }
  { unfold loop_fuel. lia. }
  rewrite Hm. apply forever_exit in Hm as [s' Hs'].
  destruct e as [s6|st s].
  - apply main_body_spec in Hs' as [Heq Hce]. subst s'.
    destruct (pos s6 =? Z.of_nat (length enc)) eqn:E5; cbn [negb].
    2:{ eexists _, _. split; [reflexivity|discriminate]. }
    apply Z.eqb_eq in E5.
    destruct (Z.of_nat (length (result s6)) =? osize) eqn:E6; cbn [negb].
    2:{ eexists _, _. split; [reflexivity|discriminate]. }
    apply Z.eqb_eq in E6.
    eexists _, _. split; [reflexivity|]. intros _. split; assumption.
  - apply main_body_spec in Hs'.
    eexists _, _. split; [reflexivity|]. intros ->. contradiction.
Qed.

End unpredict_returns.

(** ** The accesses to [decompressed_] *)

Section reader_bounds.
Import BitIO ICC Reader ReaderSpec.
Context `{ICCCommon} `{ANSDecoder}.

Lemma read_symbol_Some st r b1 b2 :
  0 <= i_ st < Z.of_nat (length (decompressed_ st)) ->
  exists st' r',
    read_symbol st r b1 b2 = Some (st', r')
    /\ i_ st' = i_ st /\ enc_size_ st' = enc_size_ st
    /\ length (decompressed_ st') = length (decompressed_ st)
    /\ bits_to_skip_ st' = bits_to_skip_ st
    /\ used_bits_base_ st' = used_bits_base_ st.
Proof.
  intros Hi. unfold read_symbol.
  destruct (run _ r) as [[v ans'] r1].
  unfold zset. rewrite decide_True by exact Hi.
  eexists _, _. split; [reflexivity|]. cbn. rewrite length_insert. tauto.
Qed.

Lemma init_symbols_Some (count : nat) : forall st r,
  0 <= i_ st ->
  i_ st + Z.of_nat count <= Z.of_nat (length (decompressed_ st)) ->
  exists st' r',
    init_symbols count st r = Some (st', r')
    /\ i_ st' = i_ st + Z.of_nat count /\ enc_size_ st' = enc_size_ st
    /\ length (decompressed_ st') = length (decompressed_ st)
    /\ bits_to_skip_ st' = bits_to_skip_ st
    /\ used_bits_base_ st' = used_bits_base_ st.
Proof.
  induction count as [|c IH]; intros st r Hi Hlen; cbn [init_symbols].
  - eexists _, _. split; [reflexivity|]. repeat split; lia.
  - cbv zeta.
    match goal with
    | |- context [read_symbol st r ?b1 ?b2] =>
        destruct (read_symbol_Some st r b1 b2 ltac:(lia))
          as (s1 & r1 & -> & E1 & E2 & E3 & E4 & E5)
    end.
    destruct (IH (set_i s1 (i_ s1 + 1)) r1) as (s2 & r2 & -> & F1 & F2 & F3 & F4 & F5).
    + cbn [set_i i_]. lia.
    + cbn [set_i i_ decompressed_]. lia.
    + cbn [set_i i_ enc_size_ decompressed_ bits_to_skip_ used_bits_base_]
        in F1, F2, F3, F4, F5.
      eexists _, _. split; [reflexivity|]. repeat split; (lia || congruence).
Qed.

Lemma has_room_ext a b :
  i_ a = i_ b -> enc_size_ a = enc_size_ b ->
  length (decompressed_ a) = length (decompressed_ b) ->
  has_room a -> has_room b.
Proof.
  intros E1 E2 E3 Ha j Hj Hm. rewrite <- E3. apply Ha; rewrite ?E1, ?E2; assumption.
Qed.

Lemma has_room_checkpoint st : is_checkpoint (i_ st) = true -> has_room st.
Proof.
  intros Hc j Hj Hm. specialize (Hm (i_ st) ltac:(lia)). congruence.
Qed.

Lemma has_room_done st : enc_size_ st <= i_ st -> has_room st.
Proof. intros Hd j Hj. lia. Qed.

Section loop.
Hypothesis Hinterval : 0 < kMaxCheckpointInterval <= 0x400.

Lemma is_checkpoint_next i :
  is_checkpoint i = true -> is_checkpoint (i + kMaxCheckpointInterval) = true.
Proof.
  unfold is_checkpoint. rewrite !andb_true_iff, !Z.eqb_eq, !Z.ltb_lt.
  intros [Hm Hp]. split; [|lia].
  rewrite <- (Z.mul_1_l kMaxCheckpointInterval) at 1.
  rewrite Z.mod_add by lia. exact Hm.
Qed.

(** One iteration of the loop of [Process]. *)
Lemma body_room g st r cp :
  i_ st < enc_size_ st ->
  has_room st -> has_room (set_i st (cp_i cp)) ->
  match process_body g st r cp with
  | Some (Next st' r' cp') =>
      i_ st' = i_ st /\ enc_size_ st' = enc_size_ st
      /\ has_room (set_i st' (i_ st' + 1)) /\ has_room (set_i st' (cp_i cp'))
  | Some (Exit e st' r' cp') => has_room st'
  | None => False
  end.
Proof.
  intros Hlt Hroom Hcp. unfold process_body.
  rewrite checkpoint_block_cases. cbv zeta.
  change ((i_ st mod kMaxCheckpointInterval =? 0) && (0 <? i_ st))
    with (is_checkpoint (i_ st)).
  destruct (is_checkpoint (i_ st)) eqn:Echk.
  - destruct (AllReadsWithinBounds r).
    + destruct ((0 <? i_ st) && (Z.land (i_ st) 65535 =? 0) && _).
      { apply has_room_checkpoint. exact Echk. }
      set (st1 := set_decompressed _ _).
      assert (i_ st1 = i_ st) as Ei by reflexivity.
      assert (enc_size_ st1 = enc_size_ st) as Ee by reflexivity.
      assert (Z.of_nat (length (decompressed_ st1))
              = Z.min (i_ st + 0x400) (enc_size_ st)) as El.
      { unfold st1. cbn -[resize Z.min]. rewrite resize_length.
        unfold is_checkpoint in Echk. apply andb_true_iff in Echk as [_ Hp].
        apply Z.ltb_lt in Hp. lia. }
      unfold symbol_step. rewrite Ei.
      destruct (i_ st <? 2) eqn:E2.
      { apply has_room_checkpoint. rewrite Ei. exact Echk. }
      apply Z.ltb_ge in E2.
      match goal with
      | |- context [read_symbol st1 r ?b1 ?b2] =>
          destruct (read_symbol_Some st1 r b1 b2 ltac:(lia))
            as (s2 & r2 & -> & F1 & F2 & F3 & _)
      end.
      split; [congruence|]. split; [congruence|]. split.
      * intros j Hj Hm. cbn [set_i i_ enc_size_ decompressed_] in Hj, Hm |- *.
        rewrite F3, El. rewrite F1, Ei in Hj, Hm. rewrite F2, Ee in Hj.
        destruct (Z_lt_dec j (i_ st + kMaxCheckpointInterval)) as [Hl|Hge];
          [clear -Hl Hj Hinterval; lia|].
        assert (i_ st + 1 <= i_ st + kMaxCheckpointInterval <= j) as Hnext
          by (clear -Hge Hinterval; lia).
        apply Hm in Hnext.
        rewrite is_checkpoint_next in Hnext by exact Echk. discriminate.
      * apply has_room_checkpoint. cbn. exact Echk.
    + eapply has_room_ext; [| | |exact Hcp]; reflexivity.
  - unfold symbol_step.
    destruct (i_ st <? 2) eqn:E2; [exact Hroom|].
    apply Z.ltb_ge in E2.
    assert (i_ st < Z.of_nat (length (decompressed_ st))) as Hin.
    { apply Hroom; [lia|]. intros m Hm. replace m with (i_ st) by lia. exact Echk. }
    match goal with
    | |- context [read_symbol st r ?b1 ?b2] =>
        destruct (read_symbol_Some st r b1 b2 ltac:(lia))
          as (s2 & r2 & -> & F1 & F2 & F3 & _)
    end.
    split; [exact F1|]. split; [exact F2|]. split.
    + intros j Hj Hm. cbn [set_i i_ enc_size_ decompressed_] in Hj, Hm |- *.
      rewrite F3. rewrite F1 in Hj, Hm. rewrite F2 in Hj.
      apply Hroom; [lia|]. intros m Hm'.
      destruct (Z.eq_dec m (i_ st)) as [->|?]; [exact Echk|apply Hm; lia].
    + eapply has_room_ext; [| | |exact Hcp]; cbn; congruence.
Qed.

(** The loop of [Process] and what follows it. *)
Lemma from_room g icc :
  forall (count : nat) st r cp,
    count = Z.to_nat (enc_size_ st - i_ st) ->
    has_room st -> has_room (set_i st (cp_i cp)) ->
    exists e st' r' icc',
      process_from g count st r cp icc = Some (e, st', r', icc')
      /\ has_room st'.
Proof.
  induction count as [|c IH]; intros st r cp Hcount Hroom Hcp.
  - unfold process_from. cbn [process_loop].
    unfold process_tail, check_and_restore, CheckEOI.
    destruct (AllReadsWithinBounds r).
    + destruct (negb _).
      * eexists _, _, _, _. split; [reflexivity|].
        apply has_room_done. cbn. lia.
      * destruct (UnpredictICC_run_returns
                    (decompressed_
                       (set_bits_to_skip st
                          (u64 (TotalBitsConsumed r - used_bits_base_ st)))) [])
          as (e & u & -> & _).
        eexists _, _, _, _. split; [reflexivity|].
        apply has_room_done. cbn. lia.
    + eexists _, _, _, _. split; [reflexivity|].
      eapply has_room_ext; [| | |exact Hcp]; reflexivity.
  - rewrite process_from_S.
    pose proof (body_room g st r cp ltac:(lia) Hroom Hcp) as Hbody.
    destruct (process_body g st r cp) as [[st1 r1 cp1|e st1 r1 cp1]|];
      [| |contradiction].
    + destruct Hbody as (E1 & E2 & R1 & R2).
      apply IH; [cbn; lia|exact R1|].
      eapply has_room_ext; [| | |exact R2]; reflexivity.
    + eexists _, _, _, _. split; [reflexivity|exact Hbody].
Qed.

Lemma checkpoint_before_1024 i :
  0 <= i <= 22 ->
  exists m, i <= m <= 1024 /\ is_checkpoint m = true.
Proof.
  intros Hi. set (K := kMaxCheckpointInterval) in *.
  exists (K * (i / K + 1)).
  pose proof (Z.div_mod i K ltac:(lia)) as Hd.
  pose proof (Z.mod_pos_bound i K ltac:(lia)) as Hm.
  assert (0 <= i / K) by (apply Z.div_pos; lia).
  split.
  - split; [nia|].
    destruct (Z_lt_dec i K) as [Hlt|Hge].
    + rewrite (Z.div_small i K) by lia. lia.
    + nia.
  - unfold is_checkpoint. fold K. apply andb_true_iff. split.
    + apply Z.eqb_eq. rewrite Z.mul_comm. apply Z.mod_mul. lia.
    + apply Z.ltb_lt. nia.
Qed.

(** [Init]: the first call ([bits_to_skip_ = 0]) leaves room for the
    symbols up to the first checkpoint; a call that fails leaves
    [bits_to_skip_] at 0. *)
Lemma Init_first_room g st r :
  bits_to_skip_ st = 0 ->
  exists e st' r',
    Init g st r = Some (e, st', r')
    /\ (e = OK -> has_room st')
    /\ (e <> OK -> bits_to_skip_ st' = 0).
Proof.
  intros Hb. unfold Init.
  destruct (CheckEOI r);
    [|eexists _, _, _; (split; [reflexivity|split; [discriminate|intros _; exact Hb]])..].
  cbn [bits_to_skip_]. rewrite Hb. cbn [Z.eqb].
  destruct (run U64Coder_Read r) as [enc_size ra].
  destruct (268435456 <? enc_size).
  { eexists _, _, _. split; [reflexivity|]. split; [discriminate|reflexivity]. }
  destruct (run (DecodeHistograms _) ra) as [[hst code] rb].
  destruct hst;
    [|eexists _, _, _; (split; [reflexivity|split; [discriminate|reflexivity]])..].
  destruct (run (ANSSymbolReader_Create code) rb) as [[cst ans] rc].
  destruct cst;
    [|eexists _, _, _; (split; [reflexivity|split; [discriminate|reflexivity]])..].
  set (s0 := mk_ICCReader enc_size 0 _ _ _ _ _).
  assert (length (decompressed_ s0) = Z.to_nat (Z.min 0x400 enc_size)) as Hl0
    by (unfold s0; cbn -[resize Z.min]; apply resize_length).
  destruct (init_symbols_Some (Z.to_nat (Z.min 2 enc_size)) s0 rc)
    as (s1 & r1 & -> & E1 & E2 & E3 & E4 & E5);
    [reflexivity|rewrite Hl0; cbn [s0 i_]; lia|].
  change (i_ s0) with 0 in E1. change (enc_size_ s0) with enc_size in E2.
  change (bits_to_skip_ s0) with 0 in E4.
  destruct (kPreambleSize <? enc_size) eqn:Elong.
  - apply Z.ltb_lt in Elong. unfold kPreambleSize in *.
    destruct (init_symbols_Some (Z.to_nat (22 - i_ s1)) s1 r1)
      as (s2 & r2 & -> & F1 & F2 & F3 & F4 & F5);
      [lia|rewrite E3, Hl0; lia|].
    destruct (CheckEOI r2);
      [|eexists _, _, _; (split; [reflexivity|split; [discriminate|intros _; congruence]])..].
    destruct (CheckPreamble _ _);
      [|eexists _, _, _; (split; [reflexivity|split; [discriminate|intros _; congruence]])..].
    eexists _, _, _. split; [reflexivity|]. split; [|intros X; contradiction].
    intros _ j Hj Hm. cbn [set_bits_to_skip i_ enc_size_ decompressed_] in *.
    rewrite F3, E3, Hl0.
    destruct (Z_lt_dec j 1024) as [?|Hge]; [lia|].
    destruct (checkpoint_before_1024 (i_ s2) ltac:(lia)) as (m & Hm1 & Hm2).
    rewrite Hm in Hm2 by lia. discriminate.
  - apply Z.ltb_ge in Elong. unfold kPreambleSize in *.
    eexists _, _, _. split; [reflexivity|]. split; [|intros X; contradiction].
    intros _ j Hj Hm. cbn [set_bits_to_skip i_ enc_size_ decompressed_] in *.
    rewrite E3, Hl0. lia.
Qed.

End loop.
(** X7: no access outside [decompressed_] when [Process] follows a
    successful [Init].  Provided the checkpoint interval is at most the
    0x400 bytes by which the buffer grows: a call of [Init] on an object
    with [bits_to_skip_ = 0] (a new object, or one whose first [Init] has
    not succeeded yet) or with room in the buffer up to the next checkpoint
    makes no access outside the buffer (in the model: it returns), whatever
    the input; when it returns [OK] the buffer has room up to the next
    checkpoint, and when it fails [bits_to_skip_] is 0 or the room is kept,
    so that [Init] can be called again.  A call of [Process] on an object
    whose buffer has such room makes no access outside the buffer and
    leaves such room, whatever it returns.  [Process] on an object whose
    [Init] has failed is not covered: a failed [Init] may have assigned
    [enc_size_] without resizing the buffer. *)
Theorem decompressed_in_bounds :
  0 < kMaxCheckpointInterval <= 0x400 ->
  (forall g st r,
     bits_to_skip_ st = 0 \/ has_room st ->
     exists e st' r',
       Init g st r = Some (e, st', r')
       /\ (e = OK -> has_room st')
       /\ (e <> OK -> bits_to_skip_ st' = 0 \/ has_room st'))
  /\
  (forall g st r icc,
     has_room st ->
     exists e st' r' icc',
       Process g st r icc = Some (e, st', r', icc') /\ has_room st').
Proof.
  intros HK. split.
  - intros g st r Hst.
    destruct (Z.eq_dec (bits_to_skip_ st) 0) as [Hb|Hb].
    + destruct (Init_first_room HK g st r Hb) as (e & st' & r' & E & Hok & Hfail).
      exists e, st', r'. split; [exact E|]. split; [exact Hok|].
      intros Hne. left. apply Hfail. exact Hne.
    + destruct Hst as [?|Hroom]; [contradiction|].
      unfold Init. destruct (CheckEOI r).
      * cbn [bits_to_skip_].
        replace (bits_to_skip_ st =? 0) with false
          by (symmetry; apply Z.eqb_neq; exact Hb).
        eexists _, _, _. split; [reflexivity|]. split; [|intros X; contradiction].
        intros _. eapply has_room_ext; [| | |exact Hroom]; reflexivity.
      * eexists _, _, _. split; [reflexivity|]. split; [discriminate|].
        intros _. right. exact Hroom.
      * eexists _, _, _. split; [reflexivity|]. split; [discriminate|].
        intros _. right. exact Hroom.
  - intros g st r icc Hroom. unfold Process, save.
    apply (from_room HK); [reflexivity| |];
      (eapply has_room_ext; [| | |exact Hroom]; reflexivity).
Qed.

End reader_bounds.

Lemma decompressed_in_bounds_witness :
  (exists e st' r',
     Reader.Init Sample.zero_fill Reader.ICCReader_new
       (BitIO.mk_reader Sample.short_stream 0) = Some (e, st', r')
     /\ (e = OK -> ReaderSpec.has_room st')
     /\ (e <> OK ->
         Reader.bits_to_skip_ st' = 0 \/ ReaderSpec.has_room st'))
  /\ (exists e st' r' icc',
        Reader.Process Sample.zero_fill
          (Reader.mk_ICCReader 3 2 48 0 [1; 0; 0] tt 2)
          (BitIO.mk_reader Sample.short_stream 48) []
        = Some (e, st', r', icc')
        /\ ReaderSpec.has_room st').
Proof.
  assert (0 < kMaxCheckpointInterval <= 0x400) as HK
    by (vm_compute; split; [reflexivity|discriminate]).
  destruct (decompressed_in_bounds (H := Sample.common)
              (H0 := Sample.raw_bytes) HK) as [HI HP].
  pose proof (HI Sample.zero_fill Reader.ICCReader_new
                (BitIO.mk_reader Sample.short_stream 0) (or_introl eq_refl))
    as Hinit.
  split; [exact Hinit|].
  apply HP.
  destruct Hinit as (e & st' & r' & E & Hok & _).
  assert (Reader.Init Sample.zero_fill Reader.ICCReader_new
            (BitIO.mk_reader Sample.short_stream 0)
          = Some (OK, Reader.mk_ICCReader 3 2 48 0 [1; 0; 0] tt 2,
                  BitIO.mk_reader Sample.short_stream 48)) as E'
    by (vm_compute; reflexivity).
  rewrite E' in E. injection E as <- <- <-. apply Hok. reflexivity.
Defined.

(** ** [Init] and the previous contents of the reader object *)

Section init_agree.
Import BitIO ICC Reader ReaderSpec.
Context `{ICCCommon} `{ANSDecoder}.

(** Reading one symbol into two similar states. *)
Lemma read_symbol_sim a b r b1 b2 :
  sim a b -> 0 <= i_ a < Z.of_nat (length (decompressed_ a)) ->
  exists a' b' r',
    read_symbol a r b1 b2 = Some (a', r')
    /\ read_symbol b r b1 b2 = Some (b', r')
    /\ sim (set_i a' (i_ a' + 1)) (set_i b' (i_ b' + 1))
    /\ i_ a' = i_ a /\ enc_size_ a' = enc_size_ a
    /\ length (decompressed_ a') = length (decompressed_ a)
    /\ bits_to_skip_ a' = bits_to_skip_ a
    /\ bits_to_skip_ b' = bits_to_skip_ b.
Proof.
  intros Hsim Hi.
  pose proof Hsim as (E1 & E2 & E3 & E4 & E5 & E6 & E7).
  unfold read_symbol. rewrite <- E2, <- E4, <- E5.
  destruct (run _ r) as [[v ans'] r1].
  unfold zset. rewrite <- E6. rewrite !decide_True by exact Hi.
  eexists _, _, _. split; [reflexivity|]. split; [reflexivity|].
  split; [|cbn; rewrite length_insert; tauto].
  unfold sim. cbn -[Z.to_nat take Z.add].
  rewrite !length_insert.
  replace (Z.to_nat (i_ a + 1)) with (S (Z.to_nat (i_ a))) by lia.
  rewrite !take_S_insert by lia.
  repeat split; try assumption; congruence.
Qed.

Lemma init_symbols_sim (count : nat) : forall a b r,
  sim a b -> 0 <= i_ a ->
  i_ a + Z.of_nat count <= Z.of_nat (length (decompressed_ a)) ->
  exists a' b' r',
    init_symbols count a r = Some (a', r')
    /\ init_symbols count b r = Some (b', r')
    /\ sim a' b'
    /\ i_ a' = i_ a + Z.of_nat count /\ enc_size_ a' = enc_size_ a
    /\ length (decompressed_ a') = length (decompressed_ a)
    /\ bits_to_skip_ a' = bits_to_skip_ a
    /\ bits_to_skip_ b' = bits_to_skip_ b.
Proof.
  induction count as [|c IH]; intros a b r Hsim Hi Hlen; cbn [init_symbols].
  - eexists _, _, _. split; [reflexivity|]. split; [reflexivity|].
    split; [exact Hsim|]. repeat split; lia.
  - cbv zeta.
    pose proof Hsim as (E1 & E2 & E3 & E4 & E5 & E6 & E7).
    rewrite <- E2.
    assert (forall k, 0 < k <= i_ a ->
              byte_at (decompressed_ b) (i_ a - k)
              = byte_at (decompressed_ a) (i_ a - k)) as Hbyte.
    { intros k Hk. unfold byte_at. symmetry.
      apply (take_nth_eq _ _ (Z.to_nat (i_ a))); [assumption|lia]. }
    assert ((if 0 <? i_ a then byte_at (decompressed_ b) (i_ a - 1) else 0)
            = (if 0 <? i_ a then byte_at (decompressed_ a) (i_ a - 1) else 0))
      as ->.
    { destruct (0 <? i_ a) eqn:E; [|reflexivity].
      apply Z.ltb_lt in E. apply Hbyte. lia. }
    assert ((if 1 <? i_ a then byte_at (decompressed_ b) (i_ a - 2) else 0)
            = (if 1 <? i_ a then byte_at (decompressed_ a) (i_ a - 2) else 0))
      as ->.
    { destruct (1 <? i_ a) eqn:E; [|reflexivity].
      apply Z.ltb_lt in E. apply Hbyte. lia. }
    match goal with
    | |- context [read_symbol a r ?b1 ?b2] =>
        destruct (read_symbol_sim a b r b1 b2 Hsim ltac:(lia))
          as (a1 & b1' & r1 & -> & -> & Hsim1 & F1 & F2 & F3 & F4 & F5)
    end.
    destruct (IH _ _ r1 Hsim1) as (a2 & b2' & r2 & -> & -> & Hsim2 & G1 & G2 & G3 & G4 & G5).
    + cbn [set_i i_]. lia.
    + cbn [set_i i_ decompressed_]. lia.
    + cbn [set_i i_ enc_size_ decompressed_ bits_to_skip_] in G1, G2, G3, G4, G5.
      eexists _, _, _. split; [reflexivity|]. split; [reflexivity|].
      split; [exact Hsim2|]. repeat split; (lia || congruence).
Qed.

Lemma take_lookup_eq (l l' : list Z) (n k : nat) :
  take n l = take n l' -> (k < n)%nat -> l !! k = l' !! k.
Proof.
  intros Ht Hk.
  rewrite <- (lookup_take_lt l n k), <- (lookup_take_lt l' n k), Ht;
    [reflexivity|lia..].
Qed.

(** [DecodeVarInt] at a position of the preamble reads bytes of the
    preamble only. *)
Lemma DecodeVarInt_prefix data data' pos :
  take (Z.to_nat kPreambleSize) data = take (Z.to_nat kPreambleSize) data' ->
  0 <= pos <= 11 ->
  DecodeVarInt data pos = DecodeVarInt data' pos.
Proof.
  intros Htake Hpos. unfold DecodeVarInt.
  rewrite (DecodeVarInt_loop_ext data data' pos); [reflexivity|lia| |lia|lia].
  intros j Hj. apply (take_lookup_eq _ _ _ _ Htake).
  unfold kPreambleSize. lia.
Qed.

(** X8: [CheckPreamble] looks at the first [kPreambleSize] bytes only.  Two
    buffers of the same size that agree on their first 22 bytes get the
    same verdict, for every encoded size: the bytes after the preamble,
    which [Init] has not decoded yet when it calls [CheckPreamble], have no
    influence. *)
Theorem CheckPreamble_prefix data data' enc_size :
  length data = length data' ->
  take (Z.to_nat kPreambleSize) data = take (Z.to_nat kPreambleSize) data' ->
  CheckPreamble data enc_size = CheckPreamble data' enc_size.
Proof.
  intros Hlen Htake. unfold CheckPreamble. rewrite <- Hlen.
  rewrite <- (DecodeVarInt_prefix data data' 0 Htake) by lia.
  pose proof (DecodeVarInt_range data 0) as R.
  destruct (DecodeVarInt data 0) as [osize pos1]. cbn [fst snd] in R.
  rewrite <- (DecodeVarInt_prefix data data' pos1 Htake) by lia.
  reflexivity.
Qed.

(** A first call of [Init] on two reader objects. *)
Lemma Init_first_agree ga gb a b r :
  bits_to_skip_ a = 0 -> bits_to_skip_ b = 0 ->
  exists e a' b' r',
    Init ga a r = Some (e, a', r')
    /\ Init gb b r = Some (e, b', r')
    /\ (e = OK ->
        sim a' b' /\ bits_to_skip_ a' = bits_to_skip_ b'
        /\ 0 <= i_ a' <= Z.of_nat (length (decompressed_ a'))
        /\ Z.of_nat (length (decompressed_ a'))
           = Z.max 0 (Z.min 0x400 (enc_size_ a'))).
Proof.
  intros Ha Hb. unfold Init.
  destruct (CheckEOI r);
    [|eexists _, _, _, _; (split; [reflexivity|split; [reflexivity|discriminate]])..].
  cbn [bits_to_skip_]. rewrite Ha, Hb. cbn [Z.eqb].
  destruct (run U64Coder_Read r) as [enc_size ra].
  destruct (268435456 <? enc_size).
  { eexists _, _, _, _. split; [reflexivity|]. split; [reflexivity|discriminate]. }
  destruct (run (DecodeHistograms _) ra) as [[hst code] rb].
  destruct hst;
    [|eexists _, _, _, _; (split; [reflexivity|split; [reflexivity|discriminate]])..].
  destruct (run (ANSSymbolReader_Create code) rb) as [[cst ans] rc].
  destruct cst;
    [|eexists _, _, _, _; (split; [reflexivity|split; [reflexivity|discriminate]])..].
  cbn [enc_size_ i_ bits_to_skip_ used_bits_base_ decompressed_ code_ ans_reader_].
  set (a0 := mk_ICCReader enc_size 0 _ _ (resize ga _ (decompressed_ a)) _ _).
  set (b0 := mk_ICCReader enc_size 0 _ _ (resize gb _ (decompressed_ b)) _ _).
  assert (length (decompressed_ a0) = Z.to_nat (Z.min 0x400 enc_size)) as Hl0
    by (unfold a0; cbn -[resize Z.min]; apply resize_length).
  assert (sim a0 b0) as Hsim0.
  { unfold sim, a0, b0. cbn -[resize Z.min]. rewrite !resize_length.
    repeat split; reflexivity. }
  destruct (init_symbols_sim (Z.to_nat (Z.min 2 enc_size)) a0 b0 rc Hsim0)
    as (a1 & b1 & r1 & -> & -> & Hsim1 & E1 & E2 & E3 & E4 & E5);
    [reflexivity|rewrite Hl0; cbn [a0 i_]; lia|].
  change (i_ a0) with 0 in E1. change (enc_size_ a0) with enc_size in E2.
  pose proof Hsim1 as (S1 & S2 & S3 & S4 & S5 & S6 & S7).
  rewrite <- S2.
  destruct (kPreambleSize <? enc_size) eqn:Elong.
  - apply Z.ltb_lt in Elong. unfold kPreambleSize in Elong |- *.
    destruct (init_symbols_sim (Z.to_nat (22 - i_ a1)) a1 b1 r1 Hsim1)
      as (a2 & b2 & r2 & -> & -> & Hsim2 & F1 & F2 & F3 & F4 & F5);
      [lia|rewrite E3, Hl0; lia|].
    pose proof Hsim2 as (T1 & T2 & T3 & T4 & T5 & T6 & T7).
    destruct (CheckEOI r2);
      [|eexists _, _, _, _; (split; [reflexivity|split; [reflexivity|discriminate]])..].
    assert (forall e, CheckPreamble (decompressed_ a2) e
                      = CheckPreamble (decompressed_ b2) e) as Hpre.
    { intros e.
      assert (take (Z.to_nat kPreambleSize) (decompressed_ a2)
              = take (Z.to_nat kPreambleSize) (decompressed_ b2)) as Htake
        by (unfold kPreambleSize;
            replace (Z.to_nat 22) with (Z.to_nat (i_ a2)) by lia; exact T7).
      unfold CheckPreamble. rewrite <- T6.
      rewrite <- (DecodeVarInt_prefix _ _ 0 Htake) by lia.
      pose proof (DecodeVarInt_range (decompressed_ a2) 0) as R.
      destruct (DecodeVarInt (decompressed_ a2) 0) as [osize pos1].
      cbn [fst snd] in R.
      rewrite <- (DecodeVarInt_prefix _ _ pos1 Htake) by lia.
      reflexivity. }
    rewrite <- Hpre.
    destruct (CheckPreamble _ _);
      [|eexists _, _, _, _; (split; [reflexivity|split; [reflexivity|discriminate]])..].
    eexists _, _, _, _. split; [reflexivity|]. split; [reflexivity|].
    intros _. rewrite <- T3.
    split; [unfold sim in *; cbn; tauto|].
    split; [reflexivity|].
    cbn [set_bits_to_skip i_ enc_size_ decompressed_].
    rewrite F3, E3, Hl0. lia.
  - apply Z.ltb_ge in Elong. unfold kPreambleSize in Elong.
    eexists _, _, _, _. split; [reflexivity|]. split; [reflexivity|].
    intros _. rewrite <- S3.
    split; [unfold sim in *; cbn; tauto|].
    split; [reflexivity|].
    cbn [set_bits_to_skip i_ enc_size_ decompressed_].
    rewrite E3, Hl0. lia.
Qed.

Lemma init_symbols_bits (count : nat) : forall st r st' r',
  init_symbols count st r = Some (st', r') ->
  bits_to_skip_ st' = bits_to_skip_ st.
Proof.
  induction count as [|c IH]; intros st r st' r' Hrun; cbn [init_symbols] in Hrun.
  - injection Hrun as <- _. reflexivity.
  - cbv zeta in Hrun.
    destruct (read_symbol st r _ _) as [[s1 r1]|] eqn:E; [|discriminate].
    apply IH in Hrun. apply read_symbol_fields in E as (_ & _ & _ & E & _).
    cbn [set_i bits_to_skip_] in Hrun. congruence.
Qed.

(** [bits_to_skip_] is assigned by the last statement of the first branch of
    [Init] only: a call that does not return [OK] leaves it as it was. *)
Lemma Init_failure_bits g st r e st' r' :
  Init g st r = Some (e, st', r') -> e <> OK ->
  bits_to_skip_ st' = bits_to_skip_ st.
Proof.
  intros Hinit Hne. unfold Init in Hinit.
  destruct (CheckEOI r); try (injection Hinit as _ <- _; reflexivity).
  cbn [bits_to_skip_] in Hinit.
  destruct (bits_to_skip_ st =? 0) eqn:Eb.
  2:{ injection Hinit as <- _ _. contradiction. }
  destruct (run U64Coder_Read r) as [enc_size ra].
  destruct (268435456 <? enc_size); [injection Hinit as _ <- _; reflexivity|].
  destruct (run (DecodeHistograms _) ra) as [[hst code] rb].
  destruct hst; try (injection Hinit as _ <- _; reflexivity).
  destruct (run (ANSSymbolReader_Create code) rb) as [[cst ans] rc].
  destruct cst; try (injection Hinit as _ <- _; reflexivity).
  destruct (init_symbols _ _ rc) as [[s1 r1]|] eqn:E1; [|discriminate].
  apply init_symbols_bits in E1. cbn [bits_to_skip_] in E1.
  destruct (kPreambleSize <? enc_size).
  - destruct (init_symbols _ s1 r1) as [[s2 r2]|] eqn:E2; [|discriminate].
    apply init_symbols_bits in E2.
    destruct (CheckEOI r2); try (injection Hinit as _ <- _; congruence).
    destruct (CheckPreamble _ _); try (injection Hinit as _ <- _; congruence).
    injection Hinit as <- _ _. contradiction.
  - injection Hinit as <- _ _. contradiction.
Qed.

(** X6: uninitialised memory has no influence.  The bytes that
    [decompressed_.resize] adds are not initialised; whatever they hold,
    [Process] returns the same status and the same profile. *)
Theorem Process_uninitialised ga gb st r icc :
  wf_state st ->
  outcome (Process ga st r icc) = outcome (Process gb st r icc).
Proof.
  intros Hwf. unfold Process, save.
  apply sim_from; [apply sim_refl|exact Hwf|reflexivity].
Qed.

(** X9: a call of [Init] that fails can be repeated.  When a first call
    ([bits_to_skip_ = 0]) does not return [OK], for lack of input or
    otherwise, it leaves [bits_to_skip_ = 0], and the reader object is as
    good as new: on every bit reader the next call of [Init] returns the
    status that it returns on a new object and leaves the bit reader at the
    same position, and when that status is [OK], [Process] has the same
    outcome as on the new object. *)
Theorem Init_retry g st r e st' r' :
  bits_to_skip_ st = 0 ->
  Init g st r = Some (e, st', r') -> e <> OK ->
  bits_to_skip_ st' = 0
  /\ forall g2 r2 icc,
       exists e2 a b r3,
         Init g2 st' r2 = Some (e2, a, r3)
         /\ Init g2 ICCReader_new r2 = Some (e2, b, r3)
         /\ (e2 = OK -> 0 <= enc_size_ a ->
             outcome (Process g2 a r3 icc) = outcome (Process g2 b r3 icc)).
Proof.
  intros Hb Hinit Hne.
  assert (bits_to_skip_ st' = 0) as Hb'
    by (rewrite (Init_failure_bits g st r e st' r' Hinit Hne); exact Hb).
  split; [exact Hb'|]. intros g2 r2 icc.
  destruct (Init_first_agree g2 g2 st' ICCReader_new r2 Hb' eq_refl)
    as (e2 & a & b & r3 & Ea & Eb & Hok).
  exists e2, a, b, r3. split; [exact Ea|]. split; [exact Eb|].
  intros -> Henc. destruct (Hok eq_refl) as (Hsim & Hbits & Hi & Hlen).
  assert (wf_state a) as Hwf by (unfold wf_state; lia).
  pose proof Hsim as (E1 & E2 & E3 & _).
  unfold Process, save, TotalBitsConsumed.
  cbn -[Z.to_nat Z.sub u64 process_from outcome].
  rewrite <- E1, <- E2, <- E3.
  pose proof Hsim as (_ & _ & _ & E4 & E5 & E6 & E7). rewrite <- E5.
  apply sim_from; [|exact Hwf|reflexivity].
  unfold sim in *. cbn. tauto.
Qed.

End init_agree.

Lemma CheckPreamble_prefix_witness :
  ICC.CheckPreamble (H := Sample.common)
    ([232; 7; 4] ++ replicate 19 0 ++ [1; 2; 3]) 30
  = ICC.CheckPreamble (H := Sample.common)
      ([232; 7; 4] ++ replicate 19 0 ++ [9; 9; 9]) 30.
Proof. apply CheckPreamble_prefix; reflexivity. Defined.

Lemma Process_uninitialised_witness :
  Reader.outcome
    (Reader.Process Sample.zero_fill
       (Reader.mk_ICCReader 3 2 48 0 [1; 0; 0] tt 2)
       (BitIO.mk_reader Sample.short_stream 48) [])
  = Reader.outcome
      (Reader.Process (fun _ => 255)
         (Reader.mk_ICCReader 3 2 48 0 [1; 0; 0] tt 2)
         (BitIO.mk_reader Sample.short_stream 48) []).
Proof.
  apply (Process_uninitialised (H := Sample.common) (H0 := Sample.raw_bytes)).
  vm_compute. split; [split|]; discriminate.
Defined.

Lemma Init_retry_witness :
  Reader.bits_to_skip_
    (Reader.mk_ICCReader 4294967295 0 0 0 [] tt 0) = 0
  /\ forall g2 r2 icc,
       exists e2 a b r3,
         Reader.Init g2 (Reader.mk_ICCReader 4294967295 0 0 0 [] tt 0) r2
         = Some (e2, a, r3)
         /\ Reader.Init g2 Reader.ICCReader_new r2 = Some (e2, b, r3)
         /\ (e2 = OK -> 0 <= Reader.enc_size_ a ->
             Reader.outcome (Reader.Process g2 a r3 icc)
             = Reader.outcome (Reader.Process g2 b r3 icc)).
Proof.
  apply (Init_retry (H := Sample.common) (H0 := Sample.raw_bytes)
           Sample.zero_fill Reader.ICCReader_new
           (BitIO.mk_reader [255; 255; 255; 255] 0)
           (Failure "Too large encoded profile") _
           (BitIO.mk_reader [255; 255; 255; 255] 32)).
  - reflexivity.
  - vm_compute. reflexivity.
  - discriminate.
Defined.

(** ** What a successful [Process] has done *)

Section process_ok.
Import BitIO ICC Reader ReaderSpec.
Context `{ICCCommon} `{ANSDecoder}.

Lemma take_resize g n (l : list Z) (i : nat) :
  (i <= length l)%nat -> (i <= Z.to_nat n)%nat ->
  take i (resize g n l) = take i l.
Proof.
  intros Hl Hn. unfold resize.
  rewrite take_app_le by (rewrite length_take; lia).
  rewrite take_take. f_equal. lia.
Qed.

(** An iteration of the loop that goes on. *)
Lemma body_fields g st r cp st' r' cp' :
  wf_state st -> i_ st < enc_size_ st ->
  process_body g st r cp = Some (Next st' r' cp') ->
  wf_state (set_i st' (i_ st' + 1))
  /\ i_ st' = i_ st /\ enc_size_ st' = enc_size_ st
  /\ used_bits_base_ st' = used_bits_base_ st
  /\ take (Z.to_nat (i_ st)) (decompressed_ st')
     = take (Z.to_nat (i_ st)) (decompressed_ st).
Proof.
  intros [[Hi0 Hil] Hle] Hlt. unfold process_body.
  rewrite checkpoint_block_cases. cbv zeta.
  assert (forall s1 : ICCReader,
            i_ s1 = i_ st -> enc_size_ s1 = enc_size_ st ->
            used_bits_base_ s1 = used_bits_base_ st ->
            Z.of_nat (length (decompressed_ s1)) <= enc_size_ st ->
            take (Z.to_nat (i_ st)) (decompressed_ s1)
            = take (Z.to_nat (i_ st)) (decompressed_ st) ->
            symbol_step s1 r cp' = Some (Next st' r' cp') ->
            wf_state (set_i st' (i_ st' + 1))
            /\ i_ st' = i_ st /\ enc_size_ st' = enc_size_ st
            /\ used_bits_base_ st' = used_bits_base_ st
            /\ take (Z.to_nat (i_ st)) (decompressed_ st')
               = take (Z.to_nat (i_ st)) (decompressed_ st)) as Hsym.
  { intros s1 Ei Ee Eb El Et. unfold symbol_step, read_symbol. rewrite Ei.
    destruct (i_ st <? 2); [discriminate|].
    destruct (run _ r) as [[v ans'] r1].
    unfold zset.
    destruct (decide (0 <= i_ st < Z.of_nat (length (decompressed_ s1))))
      as [Hin|]; [|discriminate].
    intros [= <- <-]. unfold wf_state.
    cbn -[Z.to_nat take Z.add]. rewrite length_insert.
    split; [lia|]. split; [reflexivity|]. split; [exact Ee|].
    split; [exact Eb|].
    rewrite take_insert_ge by lia. exact Et. }
  destruct ((i_ st mod kMaxCheckpointInterval =? 0) && (0 <? i_ st)).
  - destruct (AllReadsWithinBounds r); [|discriminate].
    destruct ((0 <? i_ st) && (Z.land (i_ st) 65535 =? 0) && _); [discriminate|].
    intros Hrun.
    assert (cp' = (save st r).2) as ->.
    { unfold symbol_step in Hrun.
      destruct (i_ _ <? 2); [discriminate|].
      destruct (read_symbol _ _ _ _) as [[? ?]|]; [|discriminate].
      injection Hrun as _ _ <-. reflexivity. }
    match type of Hrun with
    | symbol_step ?s1 _ _ = _ =>
        apply (Hsym s1 eq_refl eq_refl eq_refl); [| |exact Hrun]
    end.
    + cbn -[resize Z.min]. rewrite resize_length. lia.
    + cbn -[resize Z.min Z.to_nat take]. apply take_resize; lia.
  - intros Hrun.
    assert (cp' = cp) as ->.
    { unfold symbol_step in Hrun.
      destruct (i_ _ <? 2); [discriminate|].
      destruct (read_symbol _ _ _ _) as [[? ?]|]; [|discriminate].
      injection Hrun as _ _ <-. reflexivity. }
    apply (Hsym st eq_refl eq_refl eq_refl Hle eq_refl Hrun).
Qed.

(** The loop never leaves with the status [OK]. *)
Lemma body_Exit g st r cp e st' r' cp' :
  process_body g st r cp = Some (Exit e st' r' cp') -> e <> OK.
Proof.
  unfold process_body. rewrite checkpoint_block_cases. cbv zeta.
  unfold symbol_step.
  destruct ((i_ st mod kMaxCheckpointInterval =? 0) && (0 <? i_ st)).
  - destruct (AllReadsWithinBounds r); [|intros [= <- _ _ _]; discriminate].
    destruct ((0 <? i_ st) && (Z.land (i_ st) 65535 =? 0) && _);
      [intros [= <- _ _ _]; discriminate|].
    destruct (i_ _ <? 2); [intros [= <- _ _ _]; discriminate|].
    destruct (read_symbol _ _ _ _) as [[? ?]|]; discriminate.
  - destruct (i_ _ <? 2); [intros [= <- _ _ _]; discriminate|].
    destruct (read_symbol _ _ _ _) as [[? ?]|]; discriminate.
Qed.

Lemma loop_fields g :
  forall (count : nat) st r cp,
    wf_state st -> count = Z.to_nat (enc_size_ st - i_ st) ->
    match process_loop g count st r cp with
    | Some (Next st' r' cp') =>
        wf_state st' /\ i_ st' = enc_size_ st'
        /\ enc_size_ st' = enc_size_ st
        /\ used_bits_base_ st' = used_bits_base_ st
        /\ take (Z.to_nat (i_ st)) (decompressed_ st')
           = take (Z.to_nat (i_ st)) (decompressed_ st)
    | Some (Exit e _ _ _) => e <> OK
    | None => True
    end.
Proof.
  induction count as [|c IH]; intros st r cp Hwf Hcount; cbn [process_loop].
  - split; [exact Hwf|]. destruct Hwf as [[? ?] ?].
    split; [lia|]. repeat split; reflexivity.
  - pose proof (body_fields g st r cp) as Hnext.
    pose proof (body_Exit g st r cp) as Hexit.
    destruct (process_body g st r cp) as [[st1 r1 cp1|e st1 r1 cp1]|];
      [| |exact I].
    + destruct (Hnext _ _ _ Hwf ltac:(lia) eq_refl) as (Hwf1 & E1 & E2 & E3 & E4).
      specialize (IH (set_i st1 (i_ st1 + 1)) r1 cp1 Hwf1
                    ltac:(cbn [set_i enc_size_ i_]; lia)).
      destruct (process_loop g c _ r1 cp1) as [[st2 r2 cp2|e st2 r2 cp2]|];
        [|exact IH|exact I].
      destruct IH as (Hwf2 & F1 & F2 & F3 & F4).
      cbn [set_i enc_size_ i_ used_bits_base_ decompressed_] in F2, F3, F4.
      split; [exact Hwf2|]. split; [exact F1|].
      split; [congruence|]. split; [congruence|].
      rewrite <- E4.
      assert (take (Z.to_nat (i_ st))
                (take (Z.to_nat (i_ st1 + 1)) (decompressed_ st2))
              = take (Z.to_nat (i_ st))
                  (take (Z.to_nat (i_ st1 + 1)) (decompressed_ st1))) as X
        by (rewrite F4; reflexivity).
      rewrite !take_take in X.
      destruct Hwf as [[? ?] ?].
      replace (Z.to_nat (i_ st) `min` Z.to_nat (i_ st1 + 1))%nat
        with (Z.to_nat (i_ st)) in X by lia.
      exact X.
    + exact (Hexit _ _ _ _ eq_refl).
Qed.

(** What the loop of [Process] and the statements after it have done when
    they return [OK]. *)
Lemma process_from_OK g st r cp icc st' r' icc' :
  wf_state st ->
  process_from g (Z.to_nat (enc_size_ st - i_ st)) st r cp icc
  = Some (OK, st', r', icc') ->
  AllReadsWithinBounds r' = true
  /\ CheckANSFinalState (ans_reader_ st') = true
  /\ i_ st' = enc_size_ st' /\ enc_size_ st' = enc_size_ st
  /\ Z.of_nat (length (decompressed_ st')) = enc_size_ st'
  /\ take (Z.to_nat (i_ st)) (decompressed_ st')
     = take (Z.to_nat (i_ st)) (decompressed_ st)
  /\ bits_to_skip_ st' = u64 (TotalBitsConsumed r' - used_bits_base_ st)
  /\ (exists u, UnpredictICC_run (decompressed_ st') [] = Some (OK, u)
                /\ icc' = result u)
  /\ Z.of_nat (length icc') = (DecodeVarInt (decompressed_ st') 0).1.
Proof.
  intros Hwf. unfold process_from.
  pose proof (loop_fields g (Z.to_nat (enc_size_ st - i_ st)) st r cp Hwf eq_refl)
    as Hloop.
  destruct (process_loop g _ st r cp) as [[s1 r1 cp1|e s1 r1 cp1]|];
    [| |discriminate].
  2:{ intros [= -> _ _ _]. contradiction. }
  destruct Hloop as (Hwf1 & E1 & E2 & E3 & E4).
  unfold process_tail, check_and_restore, CheckEOI.
  destruct (AllReadsWithinBounds r1) eqn:Hin; [|discriminate].
  destruct (CheckANSFinalState _) eqn:Hfinal; cbn [negb]; [|discriminate].
  destruct (UnpredictICC_run_returns
              (decompressed_
                 (set_bits_to_skip s1
                    (u64 (TotalBitsConsumed r1 - used_bits_base_ s1)))) [])
    as (e & u & Hrun & Hok).
  rewrite Hrun. intros [= -> <- <- <-].
  destruct (Hok eq_refl) as [Hsize _].
  destruct Hwf1 as [[? ?] ?].
  cbn [set_bits_to_skip ans_reader_ i_ enc_size_ decompressed_ bits_to_skip_]
    in *.
  split; [exact Hin|]. split; [exact Hfinal|]. split; [exact E1|].
  split; [exact E2|]. split; [lia|]. split; [exact E4|].
  split; [rewrite E3; reflexivity|].
  split; [exists u; split; [exact Hrun|reflexivity]|exact Hsize].
Qed.

(** X10: what a successful call of [Process] has done.  When [Process]
    returns [OK]: every read was within the bounds of the input, all the
    [enc_size_] symbols have been decoded ([decompressed_] holds exactly
    [enc_size_] bytes, those decoded before the call being unchanged), the
    check of the final state of the entropy decoder has passed,
    [bits_to_skip_] is the number of bits consumed since [Init], and the
    profile returned is what [UnpredictICC] makes of [decompressed_], its
    size being the output size declared in the first varint of the
    stream; the previous contents of [*icc] are discarded. *)
Theorem Process_OK g st r icc st' r' icc' :
  wf_state st ->
  Process g st r icc = Some (OK, st', r', icc') ->
  AllReadsWithinBounds r' = true
  /\ CheckANSFinalState (ans_reader_ st') = true
  /\ i_ st' = enc_size_ st' /\ enc_size_ st' = enc_size_ st
  /\ Z.of_nat (length (decompressed_ st')) = enc_size_ st'
  /\ take (Z.to_nat (i_ st)) (decompressed_ st')
     = take (Z.to_nat (i_ st)) (decompressed_ st)
  /\ bits_to_skip_ st' = u64 (TotalBitsConsumed r' - used_bits_base_ st)
  /\ (exists u, UnpredictICC_run (decompressed_ st') [] = Some (OK, u)
                /\ icc' = result u)
  /\ Z.of_nat (length icc') = (DecodeVarInt (decompressed_ st') 0).1.
Proof.
  intros Hwf Hproc. unfold Process, save in Hproc.
  set (s0 := set_bits_to_skip st _) in Hproc.
  assert (wf_state s0) as Hwf0 by exact Hwf.
  change (enc_size_ s0 - i_ s0) with (enc_size_ st - i_ st) in Hproc.
  change (enc_size_ st - i_ st) with (enc_size_ s0 - i_ s0) in Hproc.
  apply (process_from_OK g s0 _ _ _ _ _ _ Hwf0) in Hproc.
  exact Hproc.
Qed.

(** [CheckPreamble] accepts within the size limits only. *)
Lemma CheckPreamble_OK_limits data enc_size :
  CheckPreamble data enc_size = OK ->
  (DecodeVarInt data 0).1 <= 2 ^ 28
  /\ enc_size <= (DecodeVarInt data 0).1 + 65536.
Proof.
  unfold CheckPreamble.
  pose proof (DecodeVarInt_range data 0) as R.
  destruct (DecodeVarInt data 0) as [osize pos1]. cbn [fst snd] in R |- *.
  destruct (CheckIs32Bit osize); try discriminate.
  destruct (Z.of_nat (length data) <=? pos1); [discriminate|].
  destruct (DecodeVarInt data pos1) as [csize pos2].
  destruct (CheckIs32Bit csize); try discriminate.
  destruct (CheckOutOfBounds _ _ _); try discriminate.
  destruct (u64 (osize + 65536) <? enc_size) eqn:E1; [discriminate|].
  change (Z.shiftl 1 28) with (2 ^ 28). change (2 ^ 28 =? 0) with false.
  cbn [negb andb].
  destruct (2 ^ 28 <? osize) eqn:E2; [discriminate|]. intros _.
  apply Z.ltb_ge in E1, E2.
  rewrite u64_small in E1 by lia. lia.
Qed.

(** What a first call of [Init] that accepts a long stream leaves. *)
Lemma Init_OK_long g st r st' r' :
  bits_to_skip_ st = 0 ->
  Init g st r = Some (OK, st', r') ->
  kPreambleSize < enc_size_ st' ->
  wf_state st' /\ i_ st' = kPreambleSize
  /\ enc_size_ st' <= 268435456
  /\ CheckPreamble (decompressed_ st') (enc_size_ st') = OK
  /\ AllReadsWithinBounds r' = true.
Proof.
  intros Hb Hinit Hlong. unfold Init in Hinit.
  destruct (CheckEOI r); try discriminate.
  cbn [bits_to_skip_] in Hinit. rewrite Hb in Hinit. cbn [Z.eqb] in Hinit.
  destruct (run U64Coder_Read r) as [enc_size ra].
  destruct (268435456 <? enc_size) eqn:Ebig; [discriminate|].
  apply Z.ltb_ge in Ebig.
  destruct (run (DecodeHistograms _) ra) as [[hst code] rb].
  destruct hst; try discriminate.
  destruct (run (ANSSymbolReader_Create code) rb) as [[cst ans] rc].
  destruct cst; try discriminate.
  set (s0 := mk_ICCReader enc_size 0 _ _ _ _ _) in Hinit.
  assert (length (decompressed_ s0) = Z.to_nat (Z.min 0x400 enc_size)) as Hl0
    by (unfold s0; cbn -[resize Z.min]; apply resize_length).
  destruct (init_symbols_Some (Z.to_nat (Z.min 2 enc_size)) s0 rc)
    as (s1 & r1 & E & E1 & E2 & E3 & E4 & E5);
    [reflexivity|rewrite Hl0; cbn [s0 i_]; lia|].
  rewrite E in Hinit.
  change (i_ s0) with 0 in E1. change (enc_size_ s0) with enc_size in E2.
  destruct (kPreambleSize <? enc_size) eqn:Elong.
  - apply Z.ltb_lt in Elong. unfold kPreambleSize in *.
    destruct (init_symbols_Some (Z.to_nat (22 - i_ s1)) s1 r1)
      as (s2 & r2 & F & F1 & F2 & F3 & F4 & F5);
      [lia|rewrite E3, Hl0; lia|].
    rewrite F in Hinit.
    unfold CheckEOI in Hinit.
    destruct (AllReadsWithinBounds r2) eqn:Hin; [|discriminate].
    destruct (CheckPreamble _ _) eqn:Hpre; try discriminate.
    injection Hinit as <- <-.
    unfold wf_state. cbn [set_bits_to_skip i_ enc_size_ decompressed_].
    rewrite F3, E3, Hl0, F2, E2.
    split; [lia|]. split; [lia|]. split; [lia|].
    split; [exact Hpre|exact Hin].
  - apply Z.ltb_ge in Elong. injection Hinit as <- <-.
    cbn [set_bits_to_skip enc_size_] in Hlong. lia.
Qed.

Lemma init_symbols_base (count : nat) : forall st r st' r',
  init_symbols count st r = Some (st', r') ->
  used_bits_base_ st' = used_bits_base_ st.
Proof.
  induction count as [|c IH]; intros st r st' r' Hrun; cbn [init_symbols] in Hrun.
  - injection Hrun as <- _. reflexivity.
  - cbv zeta in Hrun.
    destruct (read_symbol st r _ _) as [[s1 r1]|] eqn:E; [|discriminate].
    apply IH in Hrun. apply read_symbol_fields in E as (_ & _ & E & _).
    cbn [set_i used_bits_base_] in Hrun. congruence.
Qed.

(** X16: what a successful first call of [Init] has done.  When [Init] is
    called with [bits_to_skip_ = 0] and returns [OK]: the reader was within
    bounds at entry; [used_bits_base_] is the position at entry and
    [bits_to_skip_] the number of bits consumed; the encoded size is at
    most 268435456; [decompressed_] has [min(0x400, enc_size_)] bytes, of
    which the first [kPreambleSize] have been decoded when the stream is
    longer than that, and the first two (or [enc_size_], if less)
    otherwise; and only in the first case is it known that all reads were
    within bounds and that [CheckPreamble] accepts. *)
Theorem Init_first_OK g st r st' r' :
  bits_to_skip_ st = 0 ->
  Init g st r = Some (OK, st', r') ->
  AllReadsWithinBounds r = true
  /\ used_bits_base_ st' = TotalBitsConsumed r
  /\ bits_to_skip_ st' = u64 (TotalBitsConsumed r' - TotalBitsConsumed r)
  /\ enc_size_ st' <= 268435456
  /\ Z.of_nat (length (decompressed_ st')) = Z.max 0 (Z.min 0x400 (enc_size_ st'))
  /\ i_ st' = (if kPreambleSize <? enc_size_ st' then kPreambleSize
               else Z.max 0 (Z.min 2 (enc_size_ st')))
  /\ (kPreambleSize < enc_size_ st' ->
      AllReadsWithinBounds r' = true
      /\ CheckPreamble (decompressed_ st') (enc_size_ st') = OK).
Proof.
  intros Hb Hinit. unfold Init in Hinit. unfold CheckEOI in Hinit at 1.
  destruct (AllReadsWithinBounds r) eqn:Hin0; [|discriminate].
  cbn [bits_to_skip_] in Hinit. rewrite Hb in Hinit. cbn [Z.eqb] in Hinit.
  destruct (run U64Coder_Read r) as [enc_size ra].
  destruct (268435456 <? enc_size) eqn:Ebig; [discriminate|].
  apply Z.ltb_ge in Ebig.
  destruct (run (DecodeHistograms _) ra) as [[hst code] rb].
  destruct hst; try discriminate.
  destruct (run (ANSSymbolReader_Create code) rb) as [[cst ans] rc].
  destruct cst; try discriminate.
  set (s0 := mk_ICCReader enc_size 0 _ _ _ _ _) in Hinit.
  assert (length (decompressed_ s0) = Z.to_nat (Z.min 0x400 enc_size)) as Hl0
    by (unfold s0; cbn -[resize Z.min]; apply resize_length).
  destruct (init_symbols_Some (Z.to_nat (Z.min 2 enc_size)) s0 rc)
    as (s1 & r1 & E & E1 & E2 & E3 & E4 & E5);
    [reflexivity|rewrite Hl0; cbn [s0 i_]; lia|].
  rewrite E in Hinit.
  change (i_ s0) with 0 in E1. change (enc_size_ s0) with enc_size in E2.
  change (used_bits_base_ s0) with (TotalBitsConsumed r) in E5.
  split; [reflexivity|].
  destruct (kPreambleSize <? enc_size) eqn:Elong.
  - pose proof Elong as Elong'.
    apply Z.ltb_lt in Elong. unfold kPreambleSize in Elong, Hinit |- *.
    destruct (init_symbols_Some (Z.to_nat (22 - i_ s1)) s1 r1)
      as (s2 & r2 & F & F1 & F2 & F3 & F4 & F5);
      [lia|rewrite E3, Hl0; lia|].
    rewrite F in Hinit.
    unfold CheckEOI in Hinit.
    destruct (AllReadsWithinBounds r2) eqn:Hin; [|discriminate].
    destruct (CheckPreamble _ _) eqn:Hpre; try discriminate.
    injection Hinit as <- <-.
    cbn [set_bits_to_skip i_ enc_size_ decompressed_ bits_to_skip_
           used_bits_base_].
    rewrite F3, E3, Hl0, F2, E2, F5, E5.
    change (22 <? enc_size) with (kPreambleSize <? enc_size). rewrite Elong'.
    split; [reflexivity|]. split; [reflexivity|]. split; [lia|].
    split; [lia|]. split; [unfold kPreambleSize; lia|].
    intros _. split; [exact Hin|exact Hpre].
  - pose proof Elong as Elong'. apply Z.ltb_ge in Elong.
    injection Hinit as <- <-.
    cbn [set_bits_to_skip i_ enc_size_ decompressed_ bits_to_skip_
           used_bits_base_].
    rewrite E3, Hl0, E2, E5, Elong'.
    split; [reflexivity|]. split; [reflexivity|]. split; [lia|].
    split; [lia|]. split; [lia|]. intros X. lia.
Qed.

(** X11: the size limits of a decoded profile.  When a first call of [Init]
    accepts a stream of more than [kPreambleSize] encoded bytes and
    [Process] then returns [OK], the profile has at most [2^28] bytes and
    the encoded stream is at most 65536 bytes longer than the profile (and
    at most [2^28] bytes long): what [CheckPreamble] has checked on the
    first bytes holds of the profile that comes out. *)
Theorem decoded_profile_limits g g2 st r st1 r1 icc st2 r2 icc' :
  bits_to_skip_ st = 0 ->
  Init g st r = Some (OK, st1, r1) ->
  kPreambleSize < enc_size_ st1 ->
  Process g2 st1 r1 icc = Some (OK, st2, r2, icc') ->
  Z.of_nat (length icc') <= 2 ^ 28
  /\ enc_size_ st1 <= Z.of_nat (length icc') + 65536
  /\ enc_size_ st1 <= 2 ^ 28.
Proof.
  intros Hb Hinit Hlong Hproc.
  destruct (Init_OK_long g st r st1 r1 Hb Hinit Hlong)
    as (Hwf & Hi & Hbig & Hpre & _).
  unfold Process, save in Hproc.
  set (s0 := set_bits_to_skip st1 _) in Hproc.
  assert (wf_state s0) as Hwf0 by exact Hwf.
  destruct (process_from_OK g2 s0 _ _ _ _ _ _ Hwf0 Hproc)
    as (_ & _ & _ & _ & _ & Htake & _ & _ & Hsize).
  cbn [s0 set_bits_to_skip i_ decompressed_] in Htake.
  apply CheckPreamble_OK_limits in Hpre.
  assert (DecodeVarInt (decompressed_ st2) 0 = DecodeVarInt (decompressed_ st1) 0)
    as Hvar.
  { unfold DecodeVarInt.
    rewrite (DecodeVarInt_loop_ext (decompressed_ st2) (decompressed_ st1) 0);
      [reflexivity|lia| |lia|lia].
    intros j Hj. apply (take_lookup_eq _ _ _ _ Htake).
    rewrite Hi. unfold kPreambleSize. lia. }
  rewrite Hsize, Hvar. change 268435456 with (2 ^ 28) in Hbig. lia.
Qed.

End process_ok.

Lemma Process_OK_witness :
  exists st' r',
    Reader.Process (H := Sample.common) (H0 := Sample.raw_bytes)
      Sample.zero_fill (Reader.mk_ICCReader 3 2 48 0 [1; 0; 0] tt 2)
      (BitIO.mk_reader Sample.short_stream 48) [5; 5]
    = Some (OK, st', r', [7])
    /\ BitIO.AllReadsWithinBounds r' = true
    /\ Reader.i_ st' = 3
    /\ Reader.decompressed_ st' = [1; 0; 7]
    /\ Z.of_nat (length [7]) = (ICC.DecodeVarInt (Reader.decompressed_ st') 0).1.
Proof.
  eexists _, _. split; [vm_compute; reflexivity|].
  match goal with
  | |- context [Reader.i_ ?s] =>
      match goal with
      | |- BitIO.AllReadsWithinBounds ?r = _ /\ _ =>
          pose proof (Process_OK (H := Sample.common) (H0 := Sample.raw_bytes)
                        Sample.zero_fill
                        (Reader.mk_ICCReader 3 2 48 0 [1; 0; 0] tt 2)
                        (BitIO.mk_reader Sample.short_stream 48) [5; 5]
                        s r [7]
                        ltac:(vm_compute; split; [split|]; discriminate)
                        ltac:(vm_compute; reflexivity))
            as (P1 & _ & P3 & P4 & _ & _ & _ & _ & P9)
      end
  end.
  split; [exact P1|]. split; [rewrite P3, P4; reflexivity|].
  split; [reflexivity|exact P9].
Defined.

Lemma decoded_profile_limits_witness :
  exists st1 r1 st2 r2 icc',
    Reader.Init (H := Sample.common) (H0 := Sample.raw_bytes)
      Sample.zero_fill Reader.ICCReader_new
      (BitIO.mk_reader Examples.long_stream 0) = Some (OK, st1, r1)
    /\ Reader.Process Sample.zero_fill st1 r1 [] = Some (OK, st2, r2, icc')
    /\ length icc' = 21%nat
    /\ (Z.of_nat (length icc') <= 2 ^ 28
        /\ Reader.enc_size_ st1 <= Z.of_nat (length icc') + 65536
        /\ Reader.enc_size_ st1 <= 2 ^ 28).
Proof.
  eexists _, _, _, _, _.
  split; [vm_compute; reflexivity|].
  split; [vm_compute; reflexivity|].
  split; [reflexivity|].
  eapply (decoded_profile_limits (H := Sample.common) (H0 := Sample.raw_bytes)
            Sample.zero_fill Sample.zero_fill Reader.ICCReader_new
            (BitIO.mk_reader Examples.long_stream 0) _ _ []).
  - reflexivity.
  - vm_compute. reflexivity.
  - vm_compute. reflexivity.
  - vm_compute. reflexivity.
Defined.

Lemma Init_first_OK_witness :
  exists st' r',
    Reader.Init (H := Sample.common) (H0 := Sample.raw_bytes)
      Sample.zero_fill Reader.ICCReader_new
      (BitIO.mk_reader Examples.long_stream 0) = Some (OK, st', r')
    /\ Reader.i_ st' = 22
    /\ length (Reader.decompressed_ st') = 23%nat
    /\ Reader.bits_to_skip_ st' = 208
    /\ BitIO.AllReadsWithinBounds r' = true.
Proof.
  eexists _, _. split; [vm_compute; reflexivity|].
  match goal with
  | |- Reader.i_ ?s = _ /\ _ /\ _ /\ BitIO.AllReadsWithinBounds ?r = _ =>
      pose proof (Init_first_OK (H := Sample.common) (H0 := Sample.raw_bytes)
                    Sample.zero_fill Reader.ICCReader_new
                    (BitIO.mk_reader Examples.long_stream 0) s r
                    eq_refl ltac:(vm_compute; reflexivity))
        as (_ & _ & _ & _ & _ & _ & P)
  end.
  split; [reflexivity|]. split; [reflexivity|]. split; [reflexivity|].
  apply P. reflexivity.
Defined.

(** ** Further properties of the Lehmer code *)

Section lehmer_extra.
Import LehmerSpec Lehmer.

(** A loop that fills more entries than the array has. *)
Lemma for_range_short {A} (f : Z -> A) :
  forall (k : nat) a (l : list A),
    0 <= a <= Z.of_nat (length l) ->
    Z.of_nat (length l) < a + Z.of_nat k ->
    for_range k a (fun i t => zset t i (f i)) l = None.
Proof.
  induction k as [|k IH]; intros a l Ha Hk.
  - lia.
  - cbn [for_range]. unfold zset.
    destruct (decide (0 <= a < Z.of_nat (length l))) as [Hin|Hout].
    + apply IH; rewrite length_insert; lia.
    + reflexivity.
Qed.

(** X12: the scratch arrays must have the documented sizes.  With fewer
    than [n + 1] entries [ComputeLehmerCode] writes outside [temp], and
    with fewer than [2^ceil(log2 n)] entries, which is more than [n] when
    [n] is not a power of two, so does [DecodeLehmerCode], whatever the
    permutation or the code. *)
Theorem lehmer_scratch_too_short :
  (forall permutation temp,
     Z.of_nat (length temp) < Z.of_nat (length permutation) + 1 ->
     ComputeLehmerCode permutation temp = None)
  /\
  (forall code temp,
     Z.of_nat (length temp) < 2 ^ CeilLog2Nonzero (Z.of_nat (length code)) ->
     DecodeLehmerCode code temp = None).
Proof.
  split.
  - intros p temp Hlen. unfold ComputeLehmerCode, zero_temp.
    rewrite for_range_short by lia. reflexivity.
  - intros c temp Hlen. unfold DecodeLehmerCode.
    destruct (decide (Z.of_nat (length c) <> 0)); [|reflexivity].
    unfold init_tree. rewrite Z.shiftl_1_l.
    rewrite for_range_short; [reflexivity|lia|].
    assert (0 <= CeilLog2Nonzero (Z.of_nat (length c)))
      by (unfold CeilLog2Nonzero; apply Z.log2_up_nonneg).
    assert (0 < 2 ^ CeilLog2Nonzero (Z.of_nat (length c)))
      by (apply Z.pow_pos_nonneg; lia).
    lia.
Qed.

Lemma lehmer_scratch_too_short_witness :
  ComputeLehmerCode [2; 0; 1] [0; 0; 0] = None
  /\ DecodeLehmerCode [0; 0; 0; 0; 0] [0; 0; 0; 0; 0; 0; 0] = None.
Proof.
  split.
  - apply (proj1 lehmer_scratch_too_short). simpl. lia.
  - apply (proj2 lehmer_scratch_too_short). vm_compute. reflexivity.
Defined.

Lemma rank_unused_all k : 0 <= k -> rank_unused (seqZ 0 k) k = 0.
Proof.
  intros Hk. unfold rank_unused.
  assert (forall l : list Z,
            (forall v, v ∈ l -> v ∈ seqZ 0 k) ->
            filter (fun v => v ∉ seqZ 0 k) l = []) as Hnone.
  { induction l as [|x l IH]; intros Hin; [reflexivity|].
    rewrite filter_cons_False.
    - apply IH. intros v Hv. apply Hin. right. exact Hv.
    - intros Hx. apply Hx. apply Hin. left. }
  rewrite Hnone by auto. reflexivity.
Qed.

Lemma codes_of_identity (m : nat) :
  forall k, 0 <= k ->
    codes_of (seqZ 0 k) (seqZ k (Z.of_nat m)) = replicate m 0.
Proof.
  induction m as [|m IH]; intros k Hk.
  - reflexivity.
  - rewrite (seqZ_cons k) by lia. cbn [codes_of replicate].
    rewrite rank_unused_all by lia. f_equal.
    replace (seqZ 0 k ++ [k]) with (seqZ 0 (Z.succ k)).
    2:{ replace (Z.succ k) with (k + 1) by lia.
        rewrite seqZ_app by lia. rewrite Z.add_0_l. reflexivity. }
    replace (Z.pred (Z.of_nat (S m))) with (Z.of_nat m) by lia.
    apply IH. lia.
Qed.

Lemma identity_is_permutation (n : nat) : is_permutation (seqZ 0 (Z.of_nat n)).
Proof.
  split; [apply NoDup_seqZ|].
  intros v Hv. apply elem_of_seqZ in Hv. rewrite length_seqZ. lia.
Qed.

(** X13: the identity permutation has the code [0, ..., 0].  For every
    [1 <= n <= 2^30], [ComputeLehmerCode] maps [0, 1, ..., n-1] to [n]
    zeros and [DecodeLehmerCode] maps [n] zeros to [0, 1, ..., n-1]. *)
Theorem lehmer_identity (n : nat) t1 t2 :
  1 <= Z.of_nat n <= 2 ^ 30 ->
  Z.of_nat (length t1) = Z.of_nat n + 1 ->
  Z.of_nat (length t2) = 2 ^ CeilLog2Nonzero (Z.of_nat n) ->
  ComputeLehmerCode (seqZ 0 (Z.of_nat n)) t1 = Some (replicate n 0)
  /\ DecodeLehmerCode (replicate n 0) t2 = Some (seqZ 0 (Z.of_nat n)).
Proof.
  intros Hn H1 H2.
  assert (length (seqZ 0 (Z.of_nat n)) = n) as Hlen
    by (rewrite length_seqZ; lia).
  pose proof (codes_of_identity n 0 ltac:(lia)) as Hcodes.
  change (seqZ 0 0) with (@nil Z) in Hcodes.
  split.
  - rewrite <- Hcodes. apply ComputeLehmerCode_spec.
    + apply identity_is_permutation.
    + rewrite Hlen. lia.
    + rewrite Hlen. exact H1.
  - rewrite <- Hcodes. apply DecodeLehmerCode_codes_of.
    + apply identity_is_permutation.
    + rewrite Hlen. lia.
    + rewrite Hlen. exact H2.
Qed.

Lemma lehmer_identity_witness :
  ComputeLehmerCode (seqZ 0 (Z.of_nat 5)) (replicate 6 9) = Some (replicate 5 0)
  /\ DecodeLehmerCode (replicate 5 0) (replicate 8 9)
     = Some (seqZ 0 (Z.of_nat 5)).
Proof.
  apply lehmer_identity; [simpl; lia|reflexivity|reflexivity].
Defined.

(** The lowest set bit of a positive number is a power of two, and the
    number is an odd multiple of it. *)
Lemma lowbit_spec i :
  0 < i ->
  exists k q, 0 <= k /\ 0 <= q /\ lowbit i = 2 ^ k /\ i = 2 ^ k * (2 * q + 1).
Proof.
  intros Hi. destruct i as [|p|p]; try lia. clear Hi. cbn [lowbit].
  induction p as [p _|p IH|].
  - exists 0, (Zpos p). split; [lia|]. split; [lia|]. split; [reflexivity|].
    rewrite Pos2Z.inj_xI. lia.
  - destruct IH as (k & q & Hk & Hq & E1 & E2).
    exists (k + 1), q. split; [lia|]. split; [lia|].
    cbn [plow]. rewrite Pos2Z.inj_xO, (Pos2Z.inj_xO p), E1, E2.
    rewrite Z.pow_add_r by lia. split; lia.
  - exists 0, 0. repeat split; lia.
Qed.

(** X14: [ValueOfLowest1Bit].  For the unsigned types of 32 and of 64 bits,
    [t & -t] is the value of the lowest bit set in [t]: a power of two
    [2^k] such that [t] is an odd multiple of it; it is 0 for [t = 0]. *)
Theorem ValueOfLowest1Bit_spec :
  (forall t, 0 < t < 2 ^ 32 ->
     exists k q, 0 <= k /\ 0 <= q
       /\ ValueOfLowest1Bit u32 t = 2 ^ k /\ t = 2 ^ k * (2 * q + 1))
  /\ (forall t, 0 < t < 2 ^ 64 ->
        exists k q, 0 <= k /\ 0 <= q
          /\ ValueOfLowest1Bit u64 t = 2 ^ k /\ t = 2 ^ k * (2 * q + 1))
  /\ ValueOfLowest1Bit u32 0 = 0 /\ ValueOfLowest1Bit u64 0 = 0.
Proof.
  split; [|split; [|split; reflexivity]].
  - intros t Ht. rewrite vl1b_u32 by lia. apply lowbit_spec. lia.
  - intros t Ht. rewrite vl1b_u64 by lia. apply lowbit_spec. lia.
Qed.

Lemma ValueOfLowest1Bit_spec_witness :
  (exists k q, 0 <= k /\ 0 <= q
     /\ ValueOfLowest1Bit u32 40 = 2 ^ k /\ 40 = 2 ^ k * (2 * q + 1))
  /\ ValueOfLowest1Bit u32 40 = 8.
Proof.
  split; [|reflexivity].
  apply (proj1 ValueOfLowest1Bit_spec). lia.
Defined.

End lehmer_extra.
